(** * Video Grouper: the Go backend (app.go and its earlier variants)

    A shallow embedding of the three bound operations of the Wails
    backend -- [SelectDirectory] (directory scan), [MoveVideos] (batch
    move) and [GenerateThumbnail] (ffmpeg frame grab) -- together with
    the parts of Go's [strings], [path/filepath], [os], [os/exec] and
    [encoding/base64] packages they call, and of the Vue component that
    calls them.

    Go strings are byte sequences; they are [string] here (a list of
    8-bit [ascii]).  Paths follow the Unix build of [path/filepath]
    (separator [/], no volume names). *)

From Stdlib Require Import ZArith Ascii String List Bool Lia.
From stdpp Require Import base option list strings gmap pretty.

Local Open Scope string_scope.
Local Open Scope list_scope.

(** ** Package [strings] *)

Module strings.

(** [strings.Split(s, sep)] for a one-byte separator: the pieces of [s]
    between the occurrences of [sep]; always at least one piece. *)
Fixpoint Split (s : string) (sep : ascii) : list string :=
  match s with
  | EmptyString => [EmptyString]
  | String c s' =>
      if Ascii.eqb c sep then EmptyString :: Split s' sep
      else match Split s' sep with
           | [] => [String c EmptyString]
           | piece :: pieces => String c piece :: pieces
           end
  end.

(** [strings.Join(elems, sep)]. *)
Fixpoint Join (elems : list string) (sep : string) : string :=
  match elems with
  | [] => EmptyString
  | [e] => e
  | e :: rest => e +:+ sep +:+ Join rest sep
  end.

(** [strings.HasPrefix] and [strings.HasSuffix]. *)
Fixpoint HasPrefix (s pre : string) {struct pre} : bool :=
  match pre, s with
  | EmptyString, _ => true
  | String _ _, EmptyString => false
  | String a pre', String b s' => Ascii.eqb a b && HasPrefix s' pre'
  end.

Definition HasSuffix (s suffix : string) : bool :=
  let n := String.length s in
  let k := String.length suffix in
  (k <=? n)%nat && String.eqb (String.substring (n - k) k s) suffix.

(** [strings.TrimSuffix]. *)
Definition TrimSuffix (s suffix : string) : string :=
  if HasSuffix s suffix
  then String.substring 0 (String.length s - String.length suffix) s
  else s.

(** [unicode.ToLower] on one byte.  Only [A]..[Z] change; the bytes of a
    multi-byte UTF-8 sequence are never ASCII, so the ASCII bytes of
    [strings.ToLower s] are the images of the ASCII bytes of [s]. *)
Definition lower_byte (c : ascii) : ascii :=
  let n := nat_of_ascii c in
  if ((65 <=? n) && (n <=? 90))%nat then ascii_of_nat (n + 32) else c.

(** [strings.ToLower], on the ASCII letters. *)
Fixpoint ToLower (s : string) : string :=
  match s with
  | EmptyString => EmptyString
  | String c s' => String (lower_byte c) (ToLower s')
  end.

(** What [Join (Split s old) new_] computes, said directly: every byte
    [old] becomes [new_]. *)
Fixpoint replace_byte (old new_ : ascii) (s : string) : string :=
  match s with
  | EmptyString => EmptyString
  | String c s' =>
      String (if Ascii.eqb c old then new_ else c) (replace_byte old new_ s')
  end.

(** Does the byte [c] occur in [s]? *)
Fixpoint contains_byte (c : ascii) (s : string) : bool :=
  match s with
  | EmptyString => false
  | String a s' => Ascii.eqb a c || contains_byte c s'
  end.

End strings.

(** ** Package [path/filepath] (Unix) *)

Module filepath.

Definition Separator : ascii := "/"%char.

Definition IsAbs (path : string) : bool := strings.HasPrefix path "/".

(** One round of the loop of [Clean], on a whole path element.  [out] is
    the output written so far, last element first.  An empty element and
    [.] are dropped; [..] removes the last element written, unless the
    output is empty or ends in a [..] that could not be removed itself,
    in which case a rooted path drops it and an unrooted one keeps it. *)
Definition clean_step (rooted : bool) (out : list string) (elem : string)
  : list string :=
  if decide (elem = "") then out
  else if decide (elem = ".") then out
  else if decide (elem = "..") then
    match out with
    | top :: below => if decide (top = "..") then elem :: out else below
    | [] => if rooted then [] else [elem]
    end
  else elem :: out.

(** [filepath.Clean]. *)
Definition Clean (path : string) : string :=
  if decide (path = "") then "."
  else
    let rooted := IsAbs path in
    let out := fold_left (clean_step rooted) (strings.Split path Separator) [] in
    let body := strings.Join (rev out) "/" in
    if rooted then "/" +:+ body
    else if decide (body = "") then "." else body.

(** [filepath.Join]: empty elements are ignored, the rest is joined with
    the separator and cleaned. *)
Fixpoint Join (elem : list string) : string :=
  match elem with
  | [] => ""
  | e :: rest =>
      if decide (e = "") then Join rest
      else Clean (strings.Join (e :: rest) "/")
  end.

(** [s] without its trailing bytes [c]. *)
Fixpoint trim_right (c : ascii) (s : string) : string :=
  match s with
  | EmptyString => EmptyString
  | String a s' =>
      let t := trim_right c s' in
      if decide (t = "") then
        if Ascii.eqb a c then EmptyString else String a EmptyString
      else String a t
  end.

(** [filepath.Base]: the last element of the path, trailing separators
    removed first; [.] for the empty path and [/] for a path of
    separators only. *)
Definition Base (path : string) : string :=
  if decide (path = "") then "."
  else
    let e := List.last (strings.Split (trim_right Separator path) Separator) "" in
    if decide (e = "") then "/" else e.

(** [path[:i+1]] for the index [i] of the last separator ([""] without one). *)
Fixpoint upto_last_separator (s : string) : string :=
  match s with
  | EmptyString => EmptyString
  | String a s' =>
      let t := upto_last_separator s' in
      if decide (t = "") then
        if Ascii.eqb a Separator then String a EmptyString else EmptyString
      else String a t
  end.

(** [filepath.Dir]. *)
Definition Dir (path : string) : string := Clean (upto_last_separator path).

(** [filepath.Ext]: the suffix from the last dot of the last element. *)
Fixpoint Ext (path : string) : string :=
  match path with
  | EmptyString => EmptyString
  | String a s' =>
      let e := Ext s' in
      if decide (e = "") then
        if Ascii.eqb a "."%char && negb (strings.contains_byte Separator s')
        then path else EmptyString
      else e
  end.

End filepath.

(** ** Package [os]: the system calls the backend makes *)

Module os.

(** The [syscall.Errno] values the calls below can report. *)
Inductive Errno : Set :=
| ENOENT | EEXIST | ENOTDIR | EISDIR | ENOTEMPTY | EINVAL | EBUSY
| EACCES | EPERM | EXDEV | EIO.

Global Instance Errno_eq_dec : EqDecision Errno.
Proof. solve_decision. Defined.

(** [os.FileInfo], as far as the backend reads it. *)
Record FileInfo : Set := { Name : string; IsDir : bool }.

(** [os.IsNotExist(err)]; [false] for a nil error. *)
Definition IsNotExist (err : option Errno) : bool :=
  match err with
  | Some ENOENT => true
  | _ => false
  end.

(** The file system behind the calls of [MoveVideos].  [W] is the state
    of the disk.  A call that fails leaves the disk as it was, except
    [MkdirAll], which may have created some of the parents. *)
Class Sys (W : Type) := {
  Mkdir : string -> W -> Errno + W;
  MkdirAll : string -> W -> option Errno * W;
  Rename : string -> string -> W -> Errno + W;
  Stat : string -> W -> Errno + FileInfo;
}.

End os.

(** ** [filepath.Walk] *)

Module filewalk.

(** What [os.Lstat] and reading directories show of the tree under the
    root of a walk: a node is either not a directory, or a directory
    whose names could not be read ([inl]), or one with its names, in the
    order [readDirNames] sorts them, each with what [Lstat] says of it. *)
#[warnings="-register-all"]
Inductive tree : Set :=
| NotDir
| Directory (names : os.Errno + list (string * (os.Errno + tree))).

(** The Go [error] values that travel through a walk. *)
Inductive error : Set :=
| PathError (e : os.Errno)
| SkipDir
| SkipAll.

(** [filepath.WalkFunc], for a function that updates captured variables
    of type [S].  [info] is nil when [Lstat] failed. *)
Definition WalkFunc (S : Type) : Type :=
  string -> option os.FileInfo -> option error -> S -> option error * S.

Definition isDir (t : tree) : bool :=
  match t with NotDir => false | Directory _ => true end.

(** The loop [for _, name := range names] of [walk]: [visit] is one
    round, and yields the error the loop returns with, if it does. *)
Fixpoint each {S E} (visit : E -> S -> option error * S) (names : list E) (s : S)
  : option error * S :=
  match names with
  | [] => (None, s)
  | entry :: rest =>
      let (err, s') := visit entry s in
      match err with
      | Some _ => (err, s')
      | None => each visit rest s'
      end
  end.

(** [walk(path, info, walkFn)]; [name] is [info.Name()]. *)
Fixpoint walk {S} (path name : string) (t : tree) (walkFn : WalkFunc S) (s : S)
  : option error * S :=
  match t with
  | NotDir =>
      walkFn path (Some {| os.Name := name; os.IsDir := false |}) None s
  | Directory names =>
      let info := {| os.Name := name; os.IsDir := true |} in
      match names with
      | inl e => walkFn path (Some info) (Some (PathError e)) s
      | inr names =>
          let (err1, s1) := walkFn path (Some info) None s in
          match err1 with
          | Some _ => (err1, s1)
          | None =>
              each (fun (entry : string * (os.Errno + tree)) s =>
                      let filename := filepath.Join [path; entry.1] in
                      match entry.2 with
                      | inl e =>
                          let (err, s') :=
                            walkFn filename None (Some (PathError e)) s in
                          match err with
                          | Some SkipDir => (None, s')
                          | _ => (err, s')
                          end
                      | inr child =>
                          let (err, s') :=
                            walk filename entry.1 child walkFn s in
                          match err with
                          | Some SkipDir =>
                              if isDir child then (None, s') else (err, s')
                          | _ => (err, s')
                          end
                      end) names s1
          end
      end
  end.

(** [filepath.Walk(root, fn)]; [lstat] is [os.Lstat(root)] with the tree
    below the root. *)
Definition Walk {S} (root : string) (lstat : os.Errno + tree)
    (fn : WalkFunc S) (s : S) : option error * S :=
  let (err, s') :=
    match lstat with
    | inl e => fn root None (Some (PathError e)) s
    | inr t => walk root (filepath.Base root) t fn s
    end in
  match err with
  | Some SkipDir | Some SkipAll => (None, s')
  | _ => (err, s')
  end.

End filewalk.

(** ** Package [os/exec] *)

Module exec.

(** [exec.Command(name, arg...)]. *)
Record Cmd : Set := Command { Path : string; Args : list string }.

(** The error of [cmd.Run()]: an [*exec.ExitError] when the command ran
    and did not exit with status zero, and any other error when it could
    not be started at all (the binary is not in the path, say) or its
    output could not be copied. *)
Inductive Error : Set :=
| ExitError (code : Z)
| OtherError (reason : string).

(** What one run of a command leaves behind: the error of [Run] and the
    bytes written to the two buffers. *)
Record Result : Set := { err : option Error; Stdout : string; Stderr : string }.

(** [cmd.Run()] against the system [sys]; the commands run so far are
    logged, oldest first. *)
Definition Run (sys : Cmd -> Result) (cmd : Cmd) (ran : list Cmd)
  : Result * list Cmd :=
  (sys cmd, ran ++ [cmd]).

End exec.

(** ** Package [encoding/base64] *)

Module base64.

Definition encodeStd : string :=
  "ABCDEFGHIJKLMNOPQRSTUVWXYZabcdefghijklmnopqrstuvwxyz0123456789+/".

(** [enc.encode[i]]. *)
Definition encode (i : N) : ascii :=
  match String.get (N.to_nat i) encodeStd with
  | Some c => c
  | None => "="%char
  end.

Definition byte (c : ascii) : N := N_of_ascii c.

(** [base64.StdEncoding.EncodeToString]: three bytes become four
    characters; one or two bytes left over are padded with [=]. *)
Fixpoint EncodeToString (src : string) : string :=
  match src with
  | EmptyString => EmptyString
  | String a EmptyString =>
      let val := N.shiftl (byte a) 16 in
      String (encode (N.land (N.shiftr val 18) 63))
        (String (encode (N.land (N.shiftr val 12) 63)) "==")
  | String a (String b EmptyString) =>
      let val := N.lor (N.shiftl (byte a) 16) (N.shiftl (byte b) 8) in
      String (encode (N.land (N.shiftr val 18) 63))
        (String (encode (N.land (N.shiftr val 12) 63))
           (String (encode (N.land (N.shiftr val 6) 63)) "="))
  | String a (String b (String c rest)) =>
      let val := N.lor (N.lor (N.shiftl (byte a) 16) (N.shiftl (byte b) 8))
                   (byte c) in
      String (encode (N.land (N.shiftr val 18) 63))
        (String (encode (N.land (N.shiftr val 12) 63))
           (String (encode (N.land (N.shiftr val 6) 63))
              (String (encode (N.land val 63)) (EncodeToString rest))))
  end.

End base64.

(** ** The Wails runtime: events pushed to the frontend *)

Module runtime.

(** The errors [MoveVideos] returns, one constructor per message, with
    the values the message is formatted from:
    ["no video files provided to move"],
    ["failed to create output directory '%s': %v"],
    ["Failed to move file '%s': Source file not found."] and
    ["Failed to move file '%s' to '%s': %v"]. *)
Inductive MoveError : Set :=
| NoFilesProvided
| CreateDirFailed (outputDir : string) (err : os.Errno)
| SourceNotFound (fileName : string)
| MoveFailed (fileName newPath : string) (err : os.Errno).

(** The text of an event, one constructor per format string;
    [ErrorText e] is the message of [e] and [ErrorTextWithHint e] the
    same followed by the hint on drives and permissions. *)
Inductive Message : Set :=
| ReceivedRequest (n : Z)
| TargetDirectory (outputDir : string)
| DirectoryCreated
| StartingMove
| Moving (fileName : string)
| ErrorText (e : MoveError)
| ErrorTextWithHint (e : MoveError)
| MovedSummary (movedCount : Z) (outputDir : string).

(** [runtime.EventsEmit(ctx, eventName, data)]. *)
Record Event : Set := { eventName : string; data : Message }.

(** The disk together with the events emitted so far, oldest first.
    The [runtime.Log*] calls only write to the application log and have
    no embedding. *)
Record World (W : Type) : Type := { disk : W; emitted : list Event }.
Arguments disk {W} _.
Arguments emitted {W} _.

(** A Go function with results [A] running against the world. *)
Definition Go (W A : Type) : Type := World W -> A * World W.

Definition ret {W A} (a : A) : Go W A := fun w => (a, w).

Definition bind {W A B} (m : Go W A) (k : A -> Go W B) : Go W B :=
  fun w => let (a, w') := m w in k a w'.

Definition EventsEmit {W} (name : string) (msg : Message) : Go W unit :=
  fun w => (tt, {| disk := disk w;
                   emitted := emitted w ++ [ {| eventName := name; data := msg |} ] |}).

(** The [os] calls as world actions; each yields the [err] Go returns. *)
Definition os_Mkdir {W} `{os.Sys W} (path : string) : Go W (option os.Errno) :=
  fun w => match os.Mkdir path (disk w) with
           | inl e => (Some e, w)
           | inr d => (None, {| disk := d; emitted := emitted w |})
           end.

Definition os_MkdirAll {W} `{os.Sys W} (path : string) : Go W (option os.Errno) :=
  fun w => let (err, d) := os.MkdirAll path (disk w) in
           (err, {| disk := d; emitted := emitted w |}).

Definition os_Rename {W} `{os.Sys W} (oldpath newpath : string)
  : Go W (option os.Errno) :=
  fun w => match os.Rename oldpath newpath (disk w) with
           | inl e => (Some e, w)
           | inr d => (None, {| disk := d; emitted := emitted w |})
           end.

(** [_, statErr := os.Stat(path)]. *)
Definition os_Stat_err {W} `{os.Sys W} (path : string) : Go W (option os.Errno) :=
  fun w => match os.Stat path (disk w) with
           | inl e => (Some e, w)
           | inr _ => (None, w)
           end.

End runtime.

Notation "'do' x <- m ; k" := (runtime.bind m (fun x => k))
  (at level 10, x name, m at level 100, k at level 200,
   format "'[v' 'do'  x  <-  m ; '/' k ']'").

(** ** [MoveVideos] *)

(** The loop of [MoveVideos], which [app.go] and its earlier variant
    share to the letter. *)
Module mover.
Import runtime.

Section Mover.
Context {W : Type} `{os.Sys W}.

(** [for _, originalPath := range absoluteFilePaths].  The result is
    [inl err] when [MoveVideos] returns [err] from inside the loop and
    [inr movedCount] when the loop runs to its end. *)
Fixpoint moveEach (outputDir : string) (paths : list string) (movedCount : Z)
  : Go W (MoveError + Z) :=
  match paths with
  | [] => ret (inr movedCount)
  | originalPath :: rest =>
      let fileName := filepath.Base originalPath in
      let newPath := filepath.Join [outputDir; fileName] in
      do _ <- EventsEmit "move-status" (Moving fileName);
      do err <- os_Rename originalPath newPath;
      match err with
      | Some e =>
          do statErr <- os_Stat_err originalPath;
          if os.IsNotExist statErr then
            let errMsg := SourceNotFound fileName in
            do _ <- EventsEmit "move-error" (ErrorText errMsg);
            ret (inl errMsg)
          else
            let errMsg := MoveFailed fileName newPath e in
            do _ <- EventsEmit "move-error" (ErrorTextWithHint errMsg);
            ret (inl errMsg)
      | None => moveEach outputDir rest (movedCount + 1)
      end
  end.

End Mover.
End mover.

(** [src/app.go]. *)
Module App.
Import runtime.

(** [strings.Join(strings.Split(firstFilePath, "."), "_")]. *)
Definition outputDir (firstFilePath : string) : string :=
  strings.Join (strings.Split firstFilePath "."%char) "_".

(** [MoveVideos]; the result is the returned [error], [None] for nil. *)
Definition MoveVideos {W} `{os.Sys W} (absoluteFilePaths : list string)
  : Go W (option MoveError) :=
  do _ <- EventsEmit "move-status"
       (ReceivedRequest (Z.of_nat (length absoluteFilePaths)));
  match absoluteFilePaths with
  | [] =>
      let err := NoFilesProvided in
      do _ <- EventsEmit "move-error" (ErrorText err);
      ret (Some err)
  | firstFilePath :: _ =>
      let outputDir := outputDir firstFilePath in
      do _ <- EventsEmit "move-status" (TargetDirectory outputDir);
      do err <- os_Mkdir outputDir;
      match err with
      | Some e =>
          let errMsg := CreateDirFailed outputDir e in
          do _ <- EventsEmit "move-error" (ErrorText errMsg);
          ret (Some errMsg)
      | None =>
          do _ <- EventsEmit "move-status" DirectoryCreated;
          do _ <- EventsEmit "move-status" StartingMove;
          do r <- mover.moveEach outputDir absoluteFilePaths 0;
          match r with
          | inl errMsg => ret (Some errMsg)
          | inr movedCount =>
              do _ <- EventsEmit "move-complete" (MovedSummary movedCount outputDir);
              ret None
          end
      end
  end.

(** The error [SelectDirectory] returns: the dialog's or the walk's. *)
Inductive SelectError : Set :=
| DialogError (reason : string)
| ScanError (e : filewalk.error).

(** The function literal handed to [filepath.Walk]; the state is the
    captured slice [videoFiles].  ([Walk] passes a nil [info] only along
    with an error, so the first branch is taken then.) *)
Definition scanFn : filewalk.WalkFunc (list string) :=
  fun path info err videoFiles =>
    match err with
    | Some e => (Some e, videoFiles)
    | None =>
        match info with
        | Some info =>
            if negb (os.IsDir info)
               && strings.HasSuffix (strings.ToLower (os.Name info)) ".m4v"
            then (None, videoFiles ++ [path])
            else (None, videoFiles)
        | None => (None, videoFiles)
        end
    end.

(** [SelectDirectory].  [dialog] is what [runtime.OpenDirectoryDialog]
    returns and [lstat dir] what is on the disk at [dir]. *)
Definition SelectDirectory (dialog : string * option string)
    (lstat : string -> os.Errno + filewalk.tree)
  : list string * option SelectError :=
  let (selectedDir, err) := dialog in
  match err with
  | Some reason => ([], Some (DialogError reason))
  | None =>
      if decide (selectedDir = "") then ([], None)
      else
        let (err, videoFiles) :=
          filewalk.Walk selectedDir (lstat selectedDir) scanFn [] in
        match err with
        | Some e => ([], Some (ScanError e))
        | None => (videoFiles, None)
        end
  end.

(** The errors [GenerateThumbnail] returns:
    ["ffmpeg execution failed for %s: %v. Stderr: %s"] and
    ["ffmpeg produced no thumbnail data for video: %s"]. *)
Inductive ThumbnailError : Set :=
| ExecutionFailed (videoPath : string) (err : exec.Error) (stderr : string)
| NoThumbnailData (videoPath : string).

(** [GenerateThumbnail]; [sys] is the system the command runs on and
    [ran] the commands run before the call. *)
Definition GenerateThumbnail (sys : exec.Cmd -> exec.Result)
    (videoPath : string) (ran : list exec.Cmd)
  : (string * option ThumbnailError) * list exec.Cmd :=
  let cmd := exec.Command "ffmpeg"
               ["-i"; videoPath; "-ss"; "00:00:01"; "-vframes"; "1";
                "-f"; "image2pipe"; "-c:v"; "mjpeg"; "-"] in
  let (r, ran) := exec.Run sys cmd ran in
  match exec.err r with
  | Some err =>
      (("", Some (ExecutionFailed videoPath err (exec.Stderr r))), ran)
  | None =>
      let imageBytes := exec.Stdout r in
      if (String.length imageBytes =? 0)%nat then
        (("", Some (NoThumbnailData videoPath)), ran)
      else
        let encodedString := base64.EncodeToString imageBytes in
        let dataURL := "data:image/jpeg;base64," +:+ encodedString in
        ((dataURL, None), ran)
  end.

End App.

(** The earlier variant of [app.go]: the output directory is named after
    the first file, two levels up, and made with [os.MkdirAll]. *)
Module Variant.
Import runtime.

(** [filepath.Join(parentDir, outputFolderName)]. *)
Definition outputDir (firstFilePath : string) : string :=
  let baseName := filepath.Base firstFilePath in
  let ext := filepath.Ext baseName in
  let outputFolderName := strings.TrimSuffix baseName ext in
  let parentDir := filepath.Dir (filepath.Dir firstFilePath) in
  filepath.Join [parentDir; outputFolderName].

Definition MoveVideos {W} `{os.Sys W} (absoluteFilePaths : list string)
  : Go W (option MoveError) :=
  do _ <- EventsEmit "move-status"
       (ReceivedRequest (Z.of_nat (length absoluteFilePaths)));
  match absoluteFilePaths with
  | [] =>
      let err := NoFilesProvided in
      do _ <- EventsEmit "move-error" (ErrorText err);
      ret (Some err)
  | firstFilePath :: _ =>
      let outputDir := outputDir firstFilePath in
      do _ <- EventsEmit "move-status" (TargetDirectory outputDir);
      do err <- os_MkdirAll outputDir;
      match err with
      | Some e =>
          let errMsg := CreateDirFailed outputDir e in
          do _ <- EventsEmit "move-error" (ErrorText errMsg);
          ret (Some errMsg)
      | None =>
          do _ <- EventsEmit "move-status" DirectoryCreated;
          do _ <- EventsEmit "move-status" StartingMove;
          do r <- mover.moveEach outputDir absoluteFilePaths 0;
          match r with
          | inl errMsg => ret (Some errMsg)
          | inr movedCount =>
              do _ <- EventsEmit "move-complete" (MovedSummary movedCount outputDir);
              ret None
          end
      end
  end.

End Variant.

(** ** A disk: the reference instance of [os.Sys]

    A Unix file tree without symbolic links, hard links or permissions:
    a finite map from the list of names leading from the root to a node.
    The root is a directory and is not stored.  Paths are resolved the
    way [filepath.Clean] reads them (relative ones from the root). *)

Module memfs.

Inductive node : Set :=
| File (content : string)
| Dir.

Global Instance node_eq_dec : EqDecision node.
Proof. solve_decision. Defined.

Abbreviation key := (list string).
Abbreviation FS := (gmap (list string) node).

(** The place a path names. *)
Definition key_of (path : string) : key :=
  rev (fold_left (filepath.clean_step true)
         (strings.Split path filepath.Separator) []).

Definition parent (k : key) : key := removelast k.

Definition lookup_node (fs : FS) (k : key) : option node :=
  match k with
  | [] => Some Dir
  | _ => fs !! k
  end.

Definition is_dir (n : node) : bool :=
  match n with Dir => true | File _ => false end.

(** Is there anything in the directory [k]? *)
Definition has_child (fs : FS) (k : key) : bool :=
  existsb (fun k' => bool_decide (parent k' = k) && negb (bool_decide (k' = [])))
    (map fst (map_to_list fs)).

Definition is_file_at (fs : FS) (k : key) : bool :=
  match fs !! k with
  | Some (File _) => true
  | _ => false
  end.

(** [stat(2)]. *)
Definition Stat (path : string) (fs : FS) : os.Errno + os.FileInfo :=
  if decide (path = "") then inl os.ENOENT
  else match lookup_node fs (key_of path) with
       | Some n => inr {| os.Name := filepath.Base path; os.IsDir := is_dir n |}
       | None => inl os.ENOENT
       end.

(** [mkdir(2)]: the path must be new and its parent a directory. *)
Definition Mkdir (path : string) (fs : FS) : os.Errno + FS :=
  if decide (path = "") then inl os.ENOENT
  else
    let k := key_of path in
    match lookup_node fs k with
    | Some _ => inl os.EEXIST
    | None =>
        match lookup_node fs (parent k) with
        | Some Dir => inr (<[k := Dir]> fs)
        | Some (File _) => inl os.ENOTDIR
        | None => inl os.ENOENT
        end
    end.

(** The directories on the way to [k], [k] included, outermost first. *)
Definition ancestors (k : key) : list key :=
  map (fun n => take n k) (seq 1 (length k)).

(** [os.MkdirAll]: make the directory and the parents that are missing;
    nothing is made when a file is in the way. *)
Definition MkdirAll (path : string) (fs : FS) : option os.Errno * FS :=
  if decide (path = "") then (Some os.ENOENT, fs)
  else
    let ks := ancestors (key_of path) in
    if existsb (is_file_at fs) ks
    then (Some os.ENOTDIR, fs)
    else (None, foldr (fun k m => <[k := Dir]> m) fs ks).

(** The tree under [ks] moved under [kd]; an empty directory at [kd] is
    replaced. *)
Definition move_tree (ks kd : key) (fs : FS) : FS :=
  list_to_map
    (omap (fun '(k, n) =>
             if decide (ks `prefix_of` k) then Some (kd ++ drop (length ks) k, n)
             else if decide (k = kd) then None
             else Some (k, n))
          (map_to_list fs)).

(** [rename(2)]: a file replaces a file, a directory an empty directory;
    a directory does not move below itself. *)
Definition Rename (oldpath newpath : string) (fs : FS) : os.Errno + FS :=
  if decide (oldpath = "") then inl os.ENOENT
  else if decide (newpath = "") then inl os.ENOENT
  else
    let ks := key_of oldpath in
    let kd := key_of newpath in
    match lookup_node fs ks with
    | None => inl os.ENOENT
    | Some src =>
        if decide (ks = kd) then inr fs
        else if decide (ks = []) then inl os.EBUSY
        else if decide (kd = []) then inl os.EBUSY
        else
          match lookup_node fs (parent kd) with
          | None => inl os.ENOENT
          | Some (File _) => inl os.ENOTDIR
          | Some Dir =>
              match src with
              | File c =>
                  match lookup_node fs kd with
                  | Some Dir => inl os.EISDIR
                  | _ => inr (<[kd := File c]> (delete ks fs))
                  end
              | Dir =>
                  if decide (ks `prefix_of` kd) then inl os.EINVAL
                  else
                    match lookup_node fs kd with
                    | Some (File _) => inl os.ENOTDIR
                    | Some Dir =>
                        if has_child fs kd then inl os.ENOTEMPTY
                        else inr (move_tree ks kd fs)
                    | None => inr (move_tree ks kd fs)
                    end
              end
          end
    end.

Global Instance memfs_Sys : os.Sys FS :=
  {| os.Mkdir := Mkdir; os.MkdirAll := MkdirAll;
     os.Rename := Rename; os.Stat := Stat |}.

(** Every node but the root sits in a directory. *)
Definition wf (fs : FS) : Prop :=
  map_Forall (fun k _ => k <> [] /\ lookup_node fs (parent k) = Some Dir) fs.

(** The path names a regular file with the given content. *)
Definition holds (fs : FS) (path content : string) : Prop :=
  path <> "" /\ fs !! key_of path = Some (File content).

(** The directory at [path] has an entry [name]. *)
Definition listed (fs : FS) (path name : string) : Prop :=
  is_Some (fs !! (key_of path ++ [name])).

(** The world a call starts in: the disk, nothing emitted yet. *)
Definition boot (fs : FS) : runtime.World FS :=
  {| runtime.disk := fs; runtime.emitted := [] |}.

End memfs.


(** ** Vocabulary of the statements *)

Module spec.
Import runtime.

(** [newPath] for a source: [filepath.Join(outputDir, filepath.Base(p))]. *)
Definition dest (outputDir originalPath : string) : string :=
  filepath.Join [outputDir; filepath.Base originalPath].

Section Disk.
Context {W : Type} `{os.Sys W}.

(** The disk after each of [paths] has been renamed into [outputDir], in
    order; [None] as soon as one rename fails. *)
Fixpoint renamed_all (outputDir : string) (paths : list string) (d : W)
  : option W :=
  match paths with
  | [] => Some d
  | p :: rest =>
      match os.Rename p (dest outputDir p) d with
      | inr d' => renamed_all outputDir rest d'
      | inl _ => None
      end
  end.

(** The error of [os.Stat]. *)
Definition stat_err (path : string) (d : W) : option os.Errno :=
  match os.Stat path d with
  | inl e => Some e
  | inr _ => None
  end.

(** The error [MoveVideos] returns for a rename of [p] that failed with
    [e] on the disk [d]. *)
Definition move_error (outputDir p : string) (e : os.Errno) (d : W)
  : MoveError :=
  if os.IsNotExist (stat_err p d)
  then SourceNotFound (filepath.Base p)
  else MoveFailed (filepath.Base p) (dest outputDir p) e.

End Disk.

Definition status (m : Message) : Event :=
  {| eventName := "move-status"; data := m |}.

Definition moving (p : string) : Event := status (Moving (filepath.Base p)).

(** The events of a call up to the start of the loop. *)
Definition preamble (n : nat) (outputDir : string) : list Event :=
  [ status (ReceivedRequest (Z.of_nat n));
    status (TargetDirectory outputDir);
    status DirectoryCreated;
    status StartingMove ].

(** The [move-error] event that goes with a returned error. *)
Definition error_event (e : MoveError) : Event :=
  {| eventName := "move-error";
     data := match e with
             | MoveFailed _ _ _ => ErrorTextWithHint e
             | _ => ErrorText e
             end |}.

(** *** The scan *)

(** The first error of a list of outcomes. *)
Fixpoint list_find_error {E} (l : list (option E)) : option E :=
  match l with
  | [] => None
  | Some e :: _ => Some e
  | None :: rest => list_find_error rest
  end.

(** The first failure a walk of the tree meets, in the order of the
    walk: a directory whose names cannot be read, or a name on which
    [Lstat] fails. *)
Fixpoint first_error (t : filewalk.tree) : option os.Errno :=
  match t with
  | filewalk.NotDir => None
  | filewalk.Directory (inl e) => Some e
  | filewalk.Directory (inr names) =>
      list_find_error
        (map (fun entry : string * (os.Errno + filewalk.tree) =>
                match entry.2 with
                | inl e => Some e
                | inr child => first_error child
                end) names)
  end.

(** The nodes of the tree that are not directories, in the order of the
    walk, each with its path from [path] and its name. *)
Fixpoint files_of (path name : string) (t : filewalk.tree)
  : list (string * string) :=
  match t with
  | filewalk.NotDir => [(path, name)]
  | filewalk.Directory (inl _) => []
  | filewalk.Directory (inr names) =>
      concat
        (map (fun entry : string * (os.Errno + filewalk.tree) =>
                match entry.2 with
                | inl _ => []
                | inr child =>
                    files_of (filepath.Join [path; entry.1]) entry.1 child
                end) names)
  end.

(** The allow-list in the specification's words: the name ends in
    [.m4v], whatever the case of its letters. *)
Definition m4v_extensions : list string := [".m4v"; ".m4V"; ".M4v"; ".M4V"].

Definition has_m4v_extension (name : string) : Prop :=
  exists stem ext, name = stem +:+ ext /\ ext ∈ m4v_extensions.

(** The test of the scan on a name. *)
Definition is_video (name : string) : bool :=
  strings.HasSuffix (strings.ToLower name) ".m4v".

(** The paths of the files of the tree that pass the test. *)
Definition videos_of (path name : string) (t : filewalk.tree) : list string :=
  map fst (filter (fun pn => is_video pn.2 = true) (files_of path name t)).

(** *** Names and places *)

Definition sep_free (s : string) : Prop :=
  strings.contains_byte filepath.Separator s = false.

(** A name a directory can hold. *)
Definition proper (e : string) : Prop :=
  e <> "" /\ e <> "." /\ e <> ".." /\ sep_free e.

(** The disk [fs] is the disk [fs0] after the files of [done], regular
    files of [fs0], have been moved into the new directory [out]: the
    directory and its parent are there; away from it nothing changed
    but for the moved files, which are gone; and what lies below it are
    the moved files under their base names. *)
Record moved (fs0 : gmap (list string) memfs.node) (out : string)
    (done : list string) (fs : gmap (list string) memfs.node) : Prop := {
  moved_dir : fs !! memfs.key_of out = Some memfs.Dir;
  moved_parent :
    memfs.lookup_node fs (memfs.parent (memfs.key_of out)) = Some memfs.Dir;
  moved_others : forall k,
    ~ memfs.key_of out `prefix_of` k -> k ∉ map memfs.key_of done ->
    fs !! k = fs0 !! k;
  moved_sources : forall p, p ∈ done -> fs !! memfs.key_of p = None;
  moved_below : forall k,
    memfs.key_of out `prefix_of` k -> k <> memfs.key_of out ->
    is_Some (fs !! k) ->
    exists p, p ∈ done /\ k = memfs.key_of out ++ [filepath.Base p];
  moved_listed : forall p, p ∈ done -> memfs.listed fs out (filepath.Base p);
}.

(** *** The thumbnail *)

(** The command of [GenerateThumbnail]. *)
Definition ffmpeg (videoPath : string) : exec.Cmd :=
  exec.Command "ffmpeg"
    ["-i"; videoPath; "-ss"; "00:00:01"; "-vframes"; "1";
     "-f"; "image2pipe"; "-c:v"; "mjpeg"; "-"].

(** The two failures in the specification's words: the tool exits with
    a status that is not zero; the tool exits with status zero and has
    written no image. *)
Definition exits_nonzero (r : exec.Result) : Prop :=
  exists code, exec.err r = Some (exec.ExitError code) /\ code <> 0%Z.

Definition exits_zero_without_data (r : exec.Result) : Prop :=
  exec.err r = None /\ exec.Stdout r = "".

(** The place of a character in the alphabet of the encoding. *)
Fixpoint index_of (c : ascii) (alphabet : string) (i : N) : option N :=
  match alphabet with
  | EmptyString => None
  | String x rest => if Ascii.eqb x c then Some i else index_of c rest (N.succ i)
  end.

Definition decodeMap (c : ascii) : option N := index_of c base64.encodeStd 0.

(** The bytes a padded base64 text stands for: four characters give
    three bytes, and a last group ending in one or two [=] gives two
    bytes or one. *)
Fixpoint base64_decode (text : string) : option string :=
  match text with
  | EmptyString => Some EmptyString
  | String c0 (String c1 (String c2 (String c3 rest))) =>
      match decodeMap c0, decodeMap c1 with
      | Some s0, Some s1 =>
          let b0 := ascii_of_N (N.lor (N.shiftl s0 2) (N.shiftr s1 4)) in
          match decodeMap c2 with
          | Some s2 =>
              let b1 := ascii_of_N (N.lor (N.shiftl (N.land s1 15) 4)
                                      (N.shiftr s2 2)) in
              match decodeMap c3 with
              | Some s3 =>
                  let b2 := ascii_of_N (N.lor (N.shiftl (N.land s2 3) 6) s3) in
                  match base64_decode rest with
                  | Some bytes => Some (String b0 (String b1 (String b2 bytes)))
                  | None => None
                  end
              | None =>
                  if Ascii.eqb c3 "="%char && String.eqb rest ""
                  then Some (String b0 (String b1 EmptyString))
                  else None
              end
          | None =>
              if Ascii.eqb c2 "="%char && Ascii.eqb c3 "="%char
                 && String.eqb rest ""
              then Some (String b0 EmptyString)
              else None
          end
      | _, _ => None
      end
  | _ => None
  end.

(** *** The naming rule in the specification's words *)

(** The extension stripped and every path separator replaced by an
    underscore. *)
Definition stripped_and_underscored (firstFilePath : string) : string :=
  strings.replace_byte "/" "_"
    (strings.TrimSuffix firstFilePath (filepath.Ext firstFilePath)).

End spec.

(** ** Scenarios *)

Module scenario.
Import runtime spec memfs.

(** Five videos in [/v]; the third of them has been deleted. *)
Definition five : list string :=
  ["/v/a.m4v"; "/v/b.m4v"; "/v/c.m4v"; "/v/d.m4v"; "/v/e.m4v"].

Definition third_deleted : FS :=
  list_to_map [ (["v"], Dir);
                (["v"; "a.m4v"], File "A"); (["v"; "b.m4v"], File "B");
                (["v"; "d.m4v"], File "D"); (["v"; "e.m4v"], File "E") ].

Definition all_present : FS :=
  <[ ["v"; "c.m4v"] := File "C" ]> third_deleted.

(** Two videos of the same name in two directories. *)
Definition same_name : FS :=
  list_to_map [ (["v"], Dir); (["w"], Dir);
                (["v"; "clip.m4v"], File "first");
                (["w"; "clip.m4v"], File "second") ].

(** The output directory of the first video is already there. *)
Definition already_there : FS :=
  <[ ["v"; "a_m4v"] := Dir ]> all_present.

(** The disk a step leaves, for a step that is known to succeed. *)
Definition after {E} (step : E + FS) : FS :=
  match step with inr fs => fs | inl _ => ∅ end.

(** A video in a directory with a dot in its name. *)
Definition dotted_parent : FS :=
  list_to_map [ (["v.1"], Dir); (["v.1"; "a.m4v"], File "A") ].

(** A directory of videos and other files, one level of which is a
    directory named like a video. *)
Definition library : filewalk.tree :=
  filewalk.Directory (inr
    [ ("a.M4V", inr filewalk.NotDir);
      ("b.txt", inr filewalk.NotDir);
      ("sub", inr (filewalk.Directory (inr
         [ ("c.m4v", inr filewalk.NotDir);
           ("d.m4v", inr (filewalk.Directory (inr []))) ])));
      ("z.m4v", inr filewalk.NotDir) ]).

(** The same with a directory that cannot be read after the first video. *)
Definition library_locked : filewalk.tree :=
  filewalk.Directory (inr
    [ ("a.M4V", inr filewalk.NotDir);
      ("locked", inr (filewalk.Directory (inl os.EACCES)));
      ("z.m4v", inr filewalk.NotDir) ]).

(** A system without [ffmpeg] in the path. *)
Definition no_ffmpeg (cmd : exec.Cmd) : exec.Result :=
  {| exec.err := Some (exec.OtherError "executable file not found in $PATH");
     exec.Stdout := ""; exec.Stderr := "" |}.

(** A system where [ffmpeg] cannot read the file and exits with status 1. *)
Definition broken_video (cmd : exec.Cmd) : exec.Result :=
  {| exec.err := Some (exec.ExitError 1);
     exec.Stdout := ""; exec.Stderr := "moov atom not found" |}.

End scenario.

(** * The frontend: [App.vue]

    The component keeps its state in Vue refs and changes it in
    callbacks, each of which runs to its end, or to its next [await],
    before anything else does.  A callback, or the part of an [async]
    function between two [await]s, is a function on the state here.
    JavaScript strings are sequences of code units; they are [string]
    here, a path being made of one-unit characters.  [console.log] has
    no embedding. *)

Module vue.

(** The browser's [File], as far as the component reads it. *)
Record File : Set := { name : string; webkitRelativePath : string }.

(** [interface VideoItem]; [None] is [null].  The numbers [id] are
    counted up from zero and stay far below [2^53]. *)
Record VideoItem : Set := {
  id : nat;
  file : File;
  thumbnail : option string;
  selected : bool;
  error : option string;
}.

(** The refs of the component, the counter [videoIdCounter], the texts
    shown by [alert] so far, and the number of times the clock has been
    read.  ([movingVideoIds] is not declared in
    [frontend/src/App.vue] and stays empty there.) *)
Record State : Set := {
  videos : list VideoItem;
  isLoading : bool;
  logMessages : list string;
  baseDirectory : string;
  isMoving : bool;
  moveError : string;
  moveSuccessMessage : string;
  movingVideoIds : list nat;
  videoIdCounter : nat;
  alerts : list string;
  ticks : nat;
}.

(** What a rejected promise throws, as the component reads it: its
    conversion to a string, for [`${err}`], and the conversion of its
    [message] property, for [`${error.message}`]. *)
Record Rejection : Set := { toString : string; message : string }.

Definition set_videos (v : list VideoItem) (st : State) : State :=
  {| videos := v; isLoading := isLoading st; logMessages := logMessages st;
     baseDirectory := baseDirectory st; isMoving := isMoving st;
     moveError := moveError st; moveSuccessMessage := moveSuccessMessage st;
     movingVideoIds := movingVideoIds st; videoIdCounter := videoIdCounter st;
     alerts := alerts st; ticks := ticks st |}.

Definition set_logMessages (l : list string) (st : State) : State :=
  {| videos := videos st; isLoading := isLoading st; logMessages := l;
     baseDirectory := baseDirectory st; isMoving := isMoving st;
     moveError := moveError st; moveSuccessMessage := moveSuccessMessage st;
     movingVideoIds := movingVideoIds st; videoIdCounter := videoIdCounter st;
     alerts := alerts st; ticks := ticks st |}.

Definition set_baseDirectory (d : string) (st : State) : State :=
  {| videos := videos st; isLoading := isLoading st;
     logMessages := logMessages st;
     baseDirectory := d; isMoving := isMoving st;
     moveError := moveError st; moveSuccessMessage := moveSuccessMessage st;
     movingVideoIds := movingVideoIds st; videoIdCounter := videoIdCounter st;
     alerts := alerts st; ticks := ticks st |}.

Definition set_isMoving (b : bool) (st : State) : State :=
  {| videos := videos st; isLoading := isLoading st;
     logMessages := logMessages st;
     baseDirectory := baseDirectory st; isMoving := b;
     moveError := moveError st; moveSuccessMessage := moveSuccessMessage st;
     movingVideoIds := movingVideoIds st; videoIdCounter := videoIdCounter st;
     alerts := alerts st; ticks := ticks st |}.

Definition set_moveError (e : string) (st : State) : State :=
  {| videos := videos st; isLoading := isLoading st;
     logMessages := logMessages st;
     baseDirectory := baseDirectory st; isMoving := isMoving st;
     moveError := e; moveSuccessMessage := moveSuccessMessage st;
     movingVideoIds := movingVideoIds st; videoIdCounter := videoIdCounter st;
     alerts := alerts st; ticks := ticks st |}.

Definition set_moveSuccessMessage (m : string) (st : State) : State :=
  {| videos := videos st; isLoading := isLoading st;
     logMessages := logMessages st;
     baseDirectory := baseDirectory st; isMoving := isMoving st;
     moveError := moveError st; moveSuccessMessage := m;
     movingVideoIds := movingVideoIds st; videoIdCounter := videoIdCounter st;
     alerts := alerts st; ticks := ticks st |}.

Definition set_movingVideoIds (ids : list nat) (st : State) : State :=
  {| videos := videos st; isLoading := isLoading st;
     logMessages := logMessages st;
     baseDirectory := baseDirectory st; isMoving := isMoving st;
     moveError := moveError st; moveSuccessMessage := moveSuccessMessage st;
     movingVideoIds := ids; videoIdCounter := videoIdCounter st;
     alerts := alerts st; ticks := ticks st |}.

Definition set_videoIdCounter (n : nat) (st : State) : State :=
  {| videos := videos st; isLoading := isLoading st;
     logMessages := logMessages st;
     baseDirectory := baseDirectory st; isMoving := isMoving st;
     moveError := moveError st; moveSuccessMessage := moveSuccessMessage st;
     movingVideoIds := movingVideoIds st; videoIdCounter := n;
     alerts := alerts st; ticks := ticks st |}.

(** [alert(text)]. *)
Definition alert (text : string) (st : State) : State :=
  {| videos := videos st; isLoading := isLoading st;
     logMessages := logMessages st;
     baseDirectory := baseDirectory st; isMoving := isMoving st;
     moveError := moveError st; moveSuccessMessage := moveSuccessMessage st;
     movingVideoIds := movingVideoIds st; videoIdCounter := videoIdCounter st;
     alerts := alerts st ++ [text]; ticks := ticks st |}.

(** The component as it is mounted. *)
Definition mounted : State :=
  {| videos := []; isLoading := false; logMessages := [];
     baseDirectory := ""; isMoving := false; moveError := "";
     moveSuccessMessage := ""; movingVideoIds := []; videoIdCounter := 0;
     alerts := []; ticks := 0 |}.

(** The backslash. *)
Definition backslash : ascii := ascii_of_nat 92.

(** [Array.prototype.findIndex]; [None] is [-1]. *)
Fixpoint findIndex {A} (p : A -> bool) (l : list A) : option nat :=
  match l with
  | [] => None
  | x :: rest => if p x then Some 0 else S <$> findIndex p rest
  end.

(** [Array.prototype.slice(start, end)] for [0 <= start <= end]. *)
Definition slice {A} (start end_ : nat) (l : list A) : list A :=
  drop start (take end_ l).

(** [String.prototype.lastIndexOf] for a one-unit search string; [-1]
    when it does not occur. *)
Fixpoint lastIndexOf (s : string) (c : ascii) : Z :=
  match s with
  | EmptyString => (-1)%Z
  | String a rest =>
      let i := lastIndexOf rest c in
      if (0 <=? i)%Z then (i + 1)%Z
      else if Ascii.eqb a c then 0%Z else (-1)%Z
  end.

(** [String.prototype.substring(0, end)]: a negative [end] counts as
    zero, one beyond the length as the length. *)
Definition substring_from_0 (end_ : Z) (s : string) : string :=
  String.substring 0 (Z.to_nat end_) s.

Section Component.
(** [new Date().toLocaleTimeString()], at the n-th reading of the clock. *)
Variable toLocaleTimeString : nat -> string.

(** [log(message)]. *)
Definition log (message : string) (st : State) : State :=
  let timestamp := toLocaleTimeString (ticks st) in
  let pushed := logMessages st ++ ["[" +:+ timestamp +:+ "] " +:+ message] in
  {| videos := videos st; isLoading := isLoading st;
     logMessages := if decide (100 < length pushed) then tail pushed else pushed;
     baseDirectory := baseDirectory st; isMoving := isMoving st;
     moveError := moveError st; moveSuccessMessage := moveSuccessMessage st;
     movingVideoIds := movingVideoIds st; videoIdCounter := videoIdCounter st;
     alerts := alerts st; ticks := S (ticks st) |}.

(** The computed [selectedVideos]. *)
Definition selectedVideos (st : State) : list VideoItem :=
  filter (fun video => selected video = true) (videos st).

(** The callback of [EventsOn("move-status", ...)]. *)
Definition on_move_status (status : string) (st : State) : State :=
  log ("[Go Backend] " +:+ status) st.

(** What a rejected or resolved call of the backend hands to the
    component: Wails resolves the promise with the result when the Go
    error is nil and rejects it otherwise; [thrown] is what it throws
    for a Go error. *)
Definition settled {A E} (thrown : E -> Rejection) (r : A * option E)
  : A + Rejection :=
  match r.2 with
  | None => inl r.1
  | Some e => inr (thrown e)
  end.

End Component.
End vue.

(** ** The component of [unnamed/part_000], which goes with [app.go] *)

Module part_000.
Import vue.

Section Component.
Variable toLocaleTimeString : nat -> string.

Local Abbreviation log := (vue.log toLocaleTimeString).

(** One round of [movingVideoIds.value.forEach]: the first video with
    the id leaves the list. *)
Definition remove_moved (videos : list VideoItem) (movedId : nat)
  : list VideoItem :=
  match findIndex (fun v => Nat.eqb (id v) movedId) videos with
  | Some index => delete index videos
  | None => videos
  end.

(** The callback of [EventsOn("move-complete", ...)]. *)
Definition on_move_complete (successMsg : string) (st : State) : State :=
  let st := log ("[Go Backend] " +:+ successMsg) st in
  let st := set_moveSuccessMessage successMsg st in
  let st := set_isMoving false st in
  let st := set_moveError "" st in
  let st := set_videos (fold_left remove_moved (movingVideoIds st) (videos st)) st in
  set_movingVideoIds [] st.

(** The callback of [EventsOn("move-error", ...)]. *)
Definition on_move_error (errorMsg : string) (st : State) : State :=
  let st := log ("[Go Backend] Move Error: " +:+ errorMsg) st in
  let st := set_moveError errorMsg st in
  let st := set_isMoving false st in
  let st := set_moveSuccessMessage "" st in
  set_movingVideoIds [] st.

(** An event of the backend reaches the callback registered under its
    name; [text] is the text the backend formats for the message. *)
Definition dispatch (text : runtime.Message -> string) (e : runtime.Event)
    (st : State) : State :=
  if decide (runtime.eventName e = "move-status")
  then on_move_status toLocaleTimeString (text (runtime.data e)) st
  else if decide (runtime.eventName e = "move-complete")
  then on_move_complete (text (runtime.data e)) st
  else if decide (runtime.eventName e = "move-error")
  then on_move_error (text (runtime.data e)) st
  else st.

(** [selectBaseDirectory], from the point where [SelectDirectory] has
    resolved with [videoPaths] (nil is the empty list) to the call of
    [chunkGenerateThumbnails]. *)
Definition push_video (st : State) (path : string) : State :=
  let video :=
    {| id := videoIdCounter st;
       file := {| name := List.last (strings.Split path "/") "";
                  webkitRelativePath := path |};
       thumbnail := None; selected := false; error := None |} in
  set_videos (videos st ++ [video]) (set_videoIdCounter (S (videoIdCounter st)) st).

Definition selectBaseDirectory_resolved (videoPaths : list string) (st : State)
  : State :=
  match videoPaths with
  | [] => log "No videos found or directory selection cancelled." st
  | first :: _ =>
      let st := set_baseDirectory
                  (substring_from_0 (lastIndexOf first backslash) first) st in
      let st := log ("Base directory set: " +:+ baseDirectory st) st in
      let st := set_videos [] st in
      let st := set_logMessages [] st in
      let st := log ("Found " +:+ pretty (length videoPaths)
                     +:+ " video files. Generating thumbnails...") st in
      fold_left push_video videoPaths st
  end.

(** [generateThumbnail(videoObject)] up to its call of the backend: the
    path it asks a thumbnail for. *)
Definition generateThumbnail_request (videoObject : VideoItem) (st : State)
  : State * string :=
  let fullVideoPath := name (file videoObject) in
  (log ("Requesting Go backend to generate thumbnail for: " +:+ fullVideoPath) st,
   fullVideoPath).

(** [generateThumbnail(videoObject)] once the call has settled: the
    object as it leaves it. *)
Definition generateThumbnail_settled (videoObject : VideoItem)
    (outcome : string + Rejection) (st : State) : VideoItem * State :=
  match outcome with
  | inl thumbnailDataUrl =>
      ({| id := id videoObject; file := file videoObject;
          thumbnail := Some thumbnailDataUrl;
          selected := selected videoObject; error := error videoObject |},
       log ("Thumbnail generated for " +:+ name (file videoObject)) st)
  | inr err =>
      let text := "Failed to generate thumbnail: " +:+ message err in
      ({| id := id videoObject; file := file videoObject;
          thumbnail := thumbnail videoObject;
          selected := selected videoObject; error := Some text |},
       log ("Error generating thumbnail for " +:+ name (file videoObject)
            +:+ ": " +:+ text) st)
  end.

(** The loop of [chunkGenerateThumbnails] on an array that does not
    change while it runs: the chunks handed to [Promise.all], one after
    the other.  [None] when the loop has not ended after [fuel] rounds. *)
Fixpoint chunk_loop {A} (fuel : nat) (videoArray : list A) (chunkSize i : nat)
  : option (list (list A)) :=
  if (i <? length videoArray)%nat then
    match fuel with
    | 0 => None
    | S fuel =>
        match chunk_loop fuel videoArray chunkSize (i + chunkSize) with
        | Some chunks => Some (slice i (i + chunkSize) videoArray :: chunks)
        | None => None
        end
    end
  else Some [].

(** [moveSelectedVideos] up to its call of the backend, with the paths
    it calls [MoveVideos] with, if it does. *)
Definition moveSelectedVideos (st : State) : State * option (list string) :=
  if decide (length (selectedVideos st) = 0)
  then (log "No videos selected to move." st, None)
  else if decide (baseDirectory st = "")
  then (alert "Error: Base directory is not set. Please select it first."
          (log "Error: Base directory not set." st), None)
  else
    let st := set_movingVideoIds (map id (selectedVideos st)) st in
    let absoluteFilePaths :=
      map (fun video => name (file video)) (selectedVideos st) in
    let st := log ("Requesting move from Go for "
                   +:+ pretty (length absoluteFilePaths) +:+ " files:") st in
    let st := fold_left (fun st p => log (" - " +:+ p) st) absoluteFilePaths st in
    let st := set_isMoving true st in
    let st := set_moveError "" st in
    let st := set_moveSuccessMessage "" st in
    (st, Some absoluteFilePaths).

(** [moveSelectedVideos] once the call has settled; [None] when the
    promise resolved. *)
Definition moveSelectedVideos_settled (outcome : option Rejection) (st : State)
  : State :=
  match outcome with
  | None => log "Move request sent to Go backend. Waiting for response..." st
  | Some err =>
      let errorText := "Failed to initiate move: " +:+ toString err in
      let st := log ("Error calling Go MoveVideos function: " +:+ errorText) st in
      let st := set_moveError errorText st in
      let st := set_isMoving false st in
      set_movingVideoIds [] st
  end.

End Component.
End part_000.

(** ** The component of [frontend/src/App.vue], which goes with the
    earlier variant of [app.go] *)

Module App_vue.
Import vue.

Section Component.
Variable toLocaleTimeString : nat -> string.

Local Abbreviation log := (vue.log toLocaleTimeString).

(** The callback of [EventsOn("move-complete", ...)]. *)
Definition on_move_complete (successMsg : string) (st : State) : State :=
  let st := log ("[Go Backend] " +:+ successMsg) st in
  let st := set_moveSuccessMessage successMsg st in
  let st := set_isMoving false st in
  let st := set_moveError "" st in
  set_videos [] st.

(** The callback of [EventsOn("move-error", ...)]. *)
Definition on_move_error (errorMsg : string) (st : State) : State :=
  let st := log ("[Go Backend] Move Error: " +:+ errorMsg) st in
  let st := set_moveError errorMsg st in
  let st := set_isMoving false st in
  set_moveSuccessMessage "" st.

Definition dispatch (text : runtime.Message -> string) (e : runtime.Event)
    (st : State) : State :=
  if decide (runtime.eventName e = "move-status")
  then on_move_status toLocaleTimeString (text (runtime.data e)) st
  else if decide (runtime.eventName e = "move-complete")
  then on_move_complete (text (runtime.data e)) st
  else if decide (runtime.eventName e = "move-error")
  then on_move_error (text (runtime.data e)) st
  else st.

(** The path [moveSelectedVideos] builds for a video:
    [`${baseDirectory.value}/${relativePath}`.replace(/\\/g, '/')]. *)
Definition absoluteFilePath (baseDirectory : string) (video : VideoItem)
  : string :=
  let relativePath :=
    if decide (webkitRelativePath (file video) = "")
    then name (file video) else webkitRelativePath (file video) in
  strings.replace_byte backslash "/" (baseDirectory +:+ "/" +:+ relativePath).

(** [moveSelectedVideos] up to its call of the backend. *)
Definition moveSelectedVideos (st : State) : State * option (list string) :=
  if decide (length (selectedVideos st) = 0)
  then (log "No videos selected to move." st, None)
  else if decide (baseDirectory st = "")
  then (alert "Error: Base directory is not set. Please select it first."
          (log "Error: Base directory not set." st), None)
  else
    let absoluteFilePaths :=
      map (absoluteFilePath (baseDirectory st)) (selectedVideos st) in
    let st := log ("Requesting move from Go for "
                   +:+ pretty (length absoluteFilePaths) +:+ " files:") st in
    let st := fold_left (fun st p => log (" - " +:+ p) st) absoluteFilePaths st in
    let st := set_isMoving true st in
    let st := set_moveError "" st in
    let st := set_moveSuccessMessage "" st in
    (st, Some absoluteFilePaths).

(** [moveSelectedVideos] once the call has settled. *)
Definition moveSelectedVideos_settled (outcome : option Rejection) (st : State)
  : State :=
  match outcome with
  | None => log "Move request sent to Go backend. Waiting for response..." st
  | Some err =>
      let errorText := "Failed to initiate move: " +:+ toString err in
      let st := log ("Error calling Go MoveVideos function: " +:+ errorText) st in
      let st := set_moveError errorText st in
      set_isMoving false st
  end.

End Component.
End App_vue.

(** ** Further vocabulary *)

Module vocabulary.
Import runtime memfs spec.

(** A progress event, as opposed to the two events that end a call. *)
Definition is_status (e : Event) : Prop := eventName e = "move-status".

(** The [move-complete] event of a call. *)
Definition complete_event (movedCount : Z) (outputDir : string) : Event :=
  {| eventName := "move-complete"; data := MovedSummary movedCount outputDir |}.

(** The events [after] are the events [before], then progress events,
    then one closing event, the last, which tells the result [r] of a
    call for [n] files into [out]. *)
Definition closes (before after : list Event) (r : option MoveError)
    (n : nat) (out : string) : Prop :=
  exists evs last,
    after = before ++ evs ++ [last]
    /\ Forall is_status evs
    /\ match r with
       | None => last = complete_event (Z.of_nat n) out
       | Some e => last = error_event e
       end.

(** A path of a request that names a regular file of the disk [fs0] or
    nothing at all, and lies neither at the root nor in the directory
    [out]. *)
Definition plain (fs0 : FS) (out p : string) : Prop :=
  key_of p <> []
  /\ ~ key_of out `prefix_of` key_of p
  /\ (fs0 !! key_of p = None \/ exists c, fs0 !! key_of p = Some (File c)).

(** Every entry of the tree, at every depth, has a name a directory can
    hold. *)
Fixpoint proper_names (t : filewalk.tree) : Prop :=
  match t with
  | filewalk.NotDir => True
  | filewalk.Directory (inl _) => True
  | filewalk.Directory (inr names) =>
      Forall id
        (map (fun entry : string * (os.Errno + filewalk.tree) =>
                proper entry.1
                /\ match entry.2 with
                   | inl _ => True
                   | inr child => proper_names child
                   end) names)
  end.

(** A path that ends with its name, the last element of the path. *)
Definition ends_with_name (pn : string * string) : Prop :=
  (exists stem, pn.1 = stem +:+ pn.2) /\ filepath.Base pn.1 = pn.2.

(** The last element of a path, as [strings.Split] cuts it. *)
Definition last_element (path : string) : string :=
  List.last (strings.Split path filepath.Separator) "".

(** The entries [log] writes for the messages [msgs], the clock having
    been read [n] times before. *)
Fixpoint stamped (toLocaleTimeString : nat -> string) (n : nat)
    (msgs : list string) : list string :=
  match msgs with
  | [] => []
  | m :: rest =>
      ("[" +:+ toLocaleTimeString n +:+ "] " +:+ m)
        :: stamped toLocaleTimeString (S n) rest
  end.

(** What the template shows for a text that may be null: [v-if] takes
    null and the empty text for false. *)
Definition shown (text : option string) : Prop :=
  exists s, text = Some s /\ s <> "".

(** The videos [selectBaseDirectory] creates for the paths, the counter
    being at [n]. *)
Fixpoint fresh_videos (n : nat) (paths : list string) : list vue.VideoItem :=
  match paths with
  | [] => []
  | path :: rest =>
      {| vue.id := n;
         vue.file := {| vue.name := List.last (strings.Split path "/") "";
                        vue.webkitRelativePath := path |};
         vue.thumbnail := None; vue.selected := false; vue.error := None |}
        :: fresh_videos (S n) rest
  end.

(** What is common to [app.go] and its earlier variant once the
    directory is there: the loop, and the closing event. *)
Definition finish {W} `{os.Sys W} (out : string) (l : list string)
    (w : World W) : option MoveError * World W :=
  match mover.moveEach out l 0 w with
  | (inl e, w') => (Some e, w')
  | (inr movedCount, w') =>
      (None, {| disk := disk w';
                emitted := emitted w' ++ [complete_event movedCount out] |})
  end.

(** The state [st'] is the state [st] but for the log and the clock. *)
Definition same_but_log (st st' : vue.State) : Prop :=
  vue.videos st' = vue.videos st
  /\ vue.isLoading st' = vue.isLoading st
  /\ vue.baseDirectory st' = vue.baseDirectory st
  /\ vue.isMoving st' = vue.isMoving st
  /\ vue.moveError st' = vue.moveError st
  /\ vue.moveSuccessMessage st' = vue.moveSuccessMessage st
  /\ vue.movingVideoIds st' = vue.movingVideoIds st
  /\ vue.videoIdCounter st' = vue.videoIdCounter st
  /\ vue.alerts st' = vue.alerts st.

(** The events a call has added. *)
Definition new_events {W} (w w' : World W) : list Event :=
  drop (length (emitted w)) (emitted w').

End vocabulary.

(** ** Further scenarios *)

Module examples.
Import memfs.

(** A video without an extension. *)
Definition no_extension : FS :=
  list_to_map [ (["v"], Dir); (["v"; "clip"], File "A") ].

(** A video one level down, and the directory the earlier variant names
    after it already there. *)
Definition grouped_before : FS :=
  list_to_map [ (["v"], Dir); (["v"; "set"], Dir);
                (["v"; "set"; "clip.m4v"], File "A"); (["v"; "clip"], Dir) ].

(** A system where [ffmpeg] writes an image of three bytes. *)
Definition frame_grabbed (cmd : exec.Cmd) : exec.Result :=
  {| exec.err := None; exec.Stdout := "JPG"; exec.Stderr := "" |}.

(** A clock that stands still. *)
Definition noon (n : nat) : string := "12:00:00".

(** A hundred and one messages. *)
Definition chatter : list string := replicate 101 "tick".

(** A path as Windows writes it: [C:], [videos] and [a.m4v] with
    backslashes between them. *)
Definition windows_path : string :=
  "C:" +:+ String vue.backslash ("videos" +:+ String vue.backslash "a.m4v").

(** Two videos found under [C:], the first of them selected. *)
Definition one_of_two_selected : vue.State :=
  {| vue.videos :=
       [ {| vue.id := 0;
            vue.file := {| vue.name := "a.m4v";
                           vue.webkitRelativePath := "a.m4v" |};
            vue.thumbnail := None; vue.selected := true; vue.error := None |};
         {| vue.id := 1;
            vue.file := {| vue.name := "b.m4v";
                           vue.webkitRelativePath := "b.m4v" |};
            vue.thumbnail := None; vue.selected := false; vue.error := None |} ];
     vue.isLoading := false; vue.logMessages := [];
     vue.baseDirectory := "C:"; vue.isMoving := false; vue.moveError := "";
     vue.moveSuccessMessage := ""; vue.movingVideoIds := [];
     vue.videoIdCounter := 2; vue.alerts := []; vue.ticks := 0 |}.

(** A video as it is found, and what a call that fails throws. *)
Definition found_video : vue.VideoItem :=
  {| vue.id := 0;
     vue.file := {| vue.name := "a.m4v"; vue.webkitRelativePath := "/v/a.m4v" |};
     vue.thumbnail := None; vue.selected := false; vue.error := None |}.

Definition thrown_text {E} (e : E) : vue.Rejection :=
  {| vue.toString := "ffmpeg execution failed"; vue.message := "undefined" |}.

End examples.

(** * Properties *)

(** ** Strings *)

Module strings_facts.
Import strings.

Lemma Split_nonempty s sep : Split s sep <> [].
Proof.
  induction s as [|c s IH]; simpl; [discriminate|].
  destruct (Ascii.eqb c sep); [discriminate|].
  destruct (Split s sep); discriminate.
Qed.

Lemma Join_cons e rest sep :
  rest <> [] -> Join (e :: rest) sep = e +:+ sep +:+ Join rest sep.
Proof. destruct rest; [congruence | reflexivity]. Qed.

Lemma Join_Split_replace s old new_ :
  Join (Split s old) (String new_ EmptyString) = replace_byte old new_ s.
Proof.
  induction s as [|c s IH]; [reflexivity|].
  simpl. destruct (Ascii.eqb c old).
  - rewrite Join_cons by apply Split_nonempty. simpl. by rewrite IH.
  - pose proof (Split_nonempty s old) as Hne.
    destruct (Split s old) as [|piece pieces]; [congruence|].
    rewrite <- IH. destruct pieces; reflexivity.
Qed.

Lemma append_length (a b : string) :
  String.length (a +:+ b) = String.length a + String.length b.
Proof. induction a as [|c a IH]; [reflexivity | simpl; congruence]. Qed.

Lemma append_nil_l (b : string) : EmptyString +:+ b = b.
Proof. reflexivity. Qed.

Lemma append_cons (x : ascii) (a b : string) :
  String x a +:+ b = String x (a +:+ b).
Proof. reflexivity. Qed.

Lemma append_assoc (a b c : string) : (a +:+ b) +:+ c = a +:+ (b +:+ c).
Proof.
  induction a as [|x a IH]; [reflexivity|]. by rewrite !append_cons, IH.
Qed.

Lemma substring_all (s : string) : String.substring 0 (String.length s) s = s.
Proof. induction s as [|c s IH]; simpl; congruence. Qed.

Lemma substring_skip (a b : string) :
  String.substring (String.length a) (String.length b) (a +:+ b) = b.
Proof. induction a as [|c a IH]; [apply substring_all | exact IH]. Qed.

Lemma substring_split (s : string) : forall i,
  i <= String.length s ->
  s = String.substring 0 i s +:+ String.substring i (String.length s - i) s.
Proof.
  induction s as [|c s IH]; intros i Hi.
  - destruct i; reflexivity.
  - destruct i as [|i]; cbn [String.length String.substring] in *.
    + rewrite Nat.sub_0_r. change (String.substring 0 (S (String.length s)) (String c s))
        with (String c (String.substring 0 (String.length s) s)).
      by rewrite substring_all.
    + rewrite append_cons, <- IH by lia. reflexivity.
Qed.

(** [HasSuffix s suffix] holds exactly when [s] ends in [suffix]. *)
Lemma HasSuffix_spec (s suffix : string) :
  HasSuffix s suffix = true <-> exists stem, s = stem +:+ suffix.
Proof.
  unfold HasSuffix. rewrite andb_true_iff, Nat.leb_le, String.eqb_eq. split.
  - intros [Hle Hsub]. exists (String.substring 0 (String.length s - String.length suffix) s).
    pose proof (substring_split s (String.length s - String.length suffix)) as Hsp.
    replace (String.length s - (String.length s - String.length suffix))
      with (String.length suffix) in Hsp by lia.
    rewrite Hsub in Hsp. apply Hsp. lia.
  - intros [stem ->]. rewrite append_length. split; [lia|].
    replace (String.length stem + String.length suffix - String.length suffix)
      with (String.length stem) by lia.
    apply substring_skip.
Qed.

Lemma ToLower_append (a b : string) : ToLower (a +:+ b) = ToLower a +:+ ToLower b.
Proof.
  induction a as [|c a IH]; [reflexivity|].
  rewrite append_cons. cbn [ToLower]. by rewrite IH.
Qed.

Lemma ToLower_append_inv (a b : string) : forall s,
  ToLower s = a +:+ b ->
  exists a' b', s = a' +:+ b' /\ ToLower a' = a /\ ToLower b' = b.
Proof.
  induction a as [|c a IH]; intros s Hs.
  - exists EmptyString, s. auto.
  - destruct s as [|x s]; [discriminate|].
    rewrite append_cons in Hs. cbn [ToLower] in Hs.
    injection Hs as Hx Hs. destruct (IH _ Hs) as (a' & b' & -> & Ha & Hb).
    exists (String x a'), b'. cbn [ToLower]. rewrite Ha, Hx. auto.
Qed.

(** The bytes [lower_byte] sends to a given lower-case letter, digit or
    dot. *)
Lemma lower_byte_inv (c x : ascii) :
  lower_byte c = x ->
  (x = "."%char \/ x = "4"%char -> c = x)
  /\ (x = "m"%char -> c = "m"%char \/ c = "M"%char)
  /\ (x = "v"%char -> c = "v"%char \/ c = "V"%char).
Proof.
  intros <-.
  destruct c as [[] [] [] [] [] [] [] []]; vm_compute;
    (split; [intros [?|?]|split; intros ?]); first [discriminate | auto].
Qed.

End strings_facts.


(** ** The path functions on the examples of the Go documentation *)

Module filepath_examples.

Example Split_dots :
  strings.Split "a.b..c" "."%char = ["a"; "b"; ""; "c"]
  /\ strings.Split "" "."%char = [""].
Proof. split; reflexivity. Qed.

Example Clean_examples :
  map filepath.Clean
    ["/a//b/../c/."; "a/../../b"; ""; "/.."; "../a/.."; "//"; "a/b/";
     "abc/def/../../.."; "/abc/def/../../.."; "../../abc/.."]
  = ["/a/c"; "../b"; "."; "/"; ".."; "/"; "a/b"; ".."; "/"; "../.."].
Proof. vm_compute. reflexivity. Qed.

Example Base_examples :
  map filepath.Base [""; "/"; "///"; "/a/b.m4v"; "a/b//"; "x"; "/a/.."]
  = ["."; "/"; "/"; "b.m4v"; "b"; "x"; ".."].
Proof. vm_compute. reflexivity. Qed.

Example Dir_examples :
  map filepath.Dir ["/a/b/c.m4v"; "c.m4v"; "/c"; "/a/b/"; ""; "a//b"; "/"]
  = ["/a/b"; "."; "/"; "/a/b"; "."; "a"; "/"].
Proof. vm_compute. reflexivity. Qed.

Example Ext_examples :
  map filepath.Ext ["/a/b/c.m4v"; "c"; "/a.b/c"; "a.b.c"; ".m4v"; "a."]
  = [".m4v"; ""; ""; ".c"; ".m4v"; "."].
Proof. vm_compute. reflexivity. Qed.

Example Join_examples :
  map filepath.Join
    [["/a/b_m4v"; "c.m4v"]; [""; "x"]; ["a"; ""]; ["/a"; ".."]; [""; ""]]
  = ["/a/b_m4v/c.m4v"; "x"; "a"; "/"; ""].
Proof. vm_compute. reflexivity. Qed.

Example EncodeToString_examples :
  map base64.EncodeToString ["Man"; "Ma"; "M"; ""; "light work."]
  = ["TWFu"; "TWE="; "TQ=="; ""; "bGlnaHQgd29yay4="].
Proof. vm_compute. reflexivity. Qed.

End filepath_examples.

(** ** The loop of [MoveVideos], on any file system *)

Module mover_facts.
Import runtime spec.

Section Facts.
Context {W : Type} `{os.Sys W}.

Lemma moveEach_nil outputDir n (w : World W) :
  mover.moveEach outputDir [] n w = (inr n, w).
Proof. reflexivity. Qed.

(** One round of the loop. *)
Lemma moveEach_cons outputDir p rest n d ev :
  mover.moveEach outputDir (p :: rest) n {| disk := d; emitted := ev |}
  = match os.Rename p (dest outputDir p) d with
    | inr d' =>
        mover.moveEach outputDir rest (n + 1)
          {| disk := d'; emitted := ev ++ [moving p] |}
    | inl e =>
        (inl (move_error outputDir p e d),
         {| disk := d;
            emitted := ev ++ [moving p; error_event (move_error outputDir p e d)] |})
    end.
Proof.
  cbn [mover.moveEach]. unfold bind, EventsEmit, os_Rename, os_Stat_err, ret.
  cbn [disk emitted]. fold (dest outputDir p).
  destruct (os.Rename p (dest outputDir p) d) as [e|d1]; [|reflexivity].
  unfold move_error, stat_err, error_event. cbn [disk emitted].
  destruct (os.Stat p d) as [se|info].
  - destruct (os.IsNotExist (Some se)); cbn [disk emitted];
      rewrite <- app_assoc; reflexivity.
  - cbn [os.IsNotExist disk emitted]. rewrite <- app_assoc. reflexivity.
Qed.

Lemma moveEach_all_renamed outputDir paths : forall n d d' ev,
  renamed_all outputDir paths d = Some d' ->
  mover.moveEach outputDir paths n {| disk := d; emitted := ev |}
  = (inr (n + Z.of_nat (length paths))%Z,
     {| disk := d'; emitted := ev ++ map moving paths |}).
Proof.
  induction paths as [|p rest IH]; intros n d d' ev Hall.
  - injection Hall as <-. rewrite moveEach_nil.
    cbn [length map]. rewrite Z.add_0_r, app_nil_r. reflexivity.
  - rewrite moveEach_cons. cbn [renamed_all] in Hall.
    destruct (os.Rename p (dest outputDir p) d) as [e|d1]; [discriminate|].
    rewrite (IH _ _ _ _ Hall). cbn [length map].
    rewrite <- app_assoc. do 2 f_equal. lia.
Qed.

Lemma moveEach_first_failure outputDir pre p post : forall n d d' e ev,
  renamed_all outputDir pre d = Some d' ->
  os.Rename p (dest outputDir p) d' = inl e ->
  mover.moveEach outputDir (pre ++ p :: post) n {| disk := d; emitted := ev |}
  = (inl (move_error outputDir p e d'),
     {| disk := d';
        emitted := ev ++ map moving (pre ++ [p])
                      ++ [error_event (move_error outputDir p e d')] |}).
Proof.
  induction pre as [|q pre IH]; intros n d d' e ev Hall Hfail.
  - injection Hall as <-. cbn [app]. rewrite moveEach_cons, Hfail.
    reflexivity.
  - cbn [app]. rewrite moveEach_cons. cbn [renamed_all] in Hall.
    destruct (os.Rename q (dest outputDir q) d) as [e'|d1]; [discriminate|].
    rewrite (IH _ _ _ _ _ Hall Hfail). cbn [map app].
    rewrite <- !app_assoc. reflexivity.
Qed.

(** [App.MoveVideos] once the directory is made: the loop decides. *)
Lemma App_MoveVideos_made first rest d d1 :
  os.Mkdir (App.outputDir first) d = inr d1 ->
  App.MoveVideos (first :: rest) {| disk := d; emitted := [] |}
  = let out := App.outputDir first in
    match mover.moveEach out (first :: rest) 0
            {| disk := d1; emitted := preamble (S (length rest)) out |} with
    | (inl e, w) => (Some e, w)
    | (inr movedCount, w) =>
        (None, {| disk := disk w;
                  emitted := emitted w ++
                    [ {| eventName := "move-complete";
                         data := MovedSummary movedCount out |} ] |})
    end.
Proof.
  intros Hmk. unfold App.MoveVideos, bind, EventsEmit, os_Mkdir, ret.
  cbn [disk emitted length app]. rewrite Hmk. cbn [disk emitted app].
  unfold preamble, status.
  destruct (mover.moveEach _ _ _ _) as [[e|n] w]; reflexivity.
Qed.

(** [App.MoveVideos] when the directory cannot be made. *)
Lemma App_MoveVideos_not_made first rest d e :
  os.Mkdir (App.outputDir first) d = inl e ->
  App.MoveVideos (first :: rest) {| disk := d; emitted := [] |}
  = let out := App.outputDir first in
    (Some (CreateDirFailed out e),
     {| disk := d;
        emitted := [ status (ReceivedRequest (Z.of_nat (S (length rest))));
                     status (TargetDirectory out);
                     error_event (CreateDirFailed out e) ] |}).
Proof.
  intros Hmk. unfold App.MoveVideos, bind, EventsEmit, os_Mkdir, ret.
  cbn [disk emitted length app]. rewrite Hmk. reflexivity.
Qed.

(** The same for the earlier variant and [os.MkdirAll]. *)
Lemma Variant_MoveVideos_made first rest d d1 :
  os.MkdirAll (Variant.outputDir first) d = (None, d1) ->
  Variant.MoveVideos (first :: rest) {| disk := d; emitted := [] |}
  = let out := Variant.outputDir first in
    match mover.moveEach out (first :: rest) 0
            {| disk := d1; emitted := preamble (S (length rest)) out |} with
    | (inl e, w) => (Some e, w)
    | (inr movedCount, w) =>
        (None, {| disk := disk w;
                  emitted := emitted w ++
                    [ {| eventName := "move-complete";
                         data := MovedSummary movedCount out |} ] |})
    end.
Proof.
  intros Hmk. unfold Variant.MoveVideos, bind, EventsEmit, os_MkdirAll, ret.
  cbn [disk emitted length app]. rewrite Hmk. cbn [disk emitted app].
  unfold preamble, status.
  destruct (mover.moveEach _ _ _ _) as [[e|n] w]; reflexivity.
Qed.

Lemma Variant_MoveVideos_not_made first rest d d1 e :
  os.MkdirAll (Variant.outputDir first) d = (Some e, d1) ->
  Variant.MoveVideos (first :: rest) {| disk := d; emitted := [] |}
  = let out := Variant.outputDir first in
    (Some (CreateDirFailed out e),
     {| disk := d1;
        emitted := [ status (ReceivedRequest (Z.of_nat (S (length rest))));
                     status (TargetDirectory out);
                     error_event (CreateDirFailed out e) ] |}).
Proof.
  intros Hmk. unfold Variant.MoveVideos, bind, EventsEmit, os_MkdirAll, ret.
  cbn [disk emitted length app]. rewrite Hmk. reflexivity.
Qed.

(** A list of paths is renamed as a whole, or up to a first path whose
    rename fails. *)
Lemma renamed_all_or_first_failure outputDir paths : forall d : W,
  (exists d', renamed_all outputDir paths d = Some d')
  \/ (exists pre p post d' e,
        paths = pre ++ p :: post
        /\ renamed_all outputDir pre d = Some d'
        /\ os.Rename p (dest outputDir p) d' = inl e).
Proof.
  induction paths as [|p rest IH]; intros d; [left; by exists d|].
  cbn [renamed_all].
  destruct (os.Rename p (dest outputDir p) d) as [e|d1] eqn:Hren.
  - right. exists [], p, rest, d, e. by repeat split.
  - destruct (IH d1) as [[d' Hall] | (pre & q & post & d' & e & -> & Hpre & Hq)].
    + left. by exists d'.
    + right. exists (p :: pre), q, post, d', e. repeat split; [|exact Hq].
      cbn [renamed_all]. by rewrite Hren.
Qed.

(** What the loop does, whatever the disk: it renames the paths of a
    first part of the list, in order, and either that part is the whole
    list and it has counted every path, or the rename of the next path
    fails on the disk it leaves and it returns the error of that path. *)
Lemma moveEach_outcome outputDir paths n (d1 : W) ev :
  let run := mover.moveEach outputDir paths n {| disk := d1; emitted := ev |} in
  exists pre post,
    paths = pre ++ post
    /\ renamed_all outputDir pre d1 = Some (disk run.2)
    /\ match post with
       | [] =>
           run.1 = inr (n + Z.of_nat (length paths))%Z
           /\ emitted run.2 = ev ++ map moving pre
       | p :: _ =>
           exists e,
             os.Rename p (dest outputDir p) (disk run.2) = inl e
             /\ run.1 = inl (move_error outputDir p e (disk run.2))
             /\ emitted run.2
                = ev ++ map moving pre
                     ++ [moving p;
                         error_event (move_error outputDir p e (disk run.2))]
       end.
Proof.
  cbv zeta.
  destruct (renamed_all_or_first_failure outputDir paths d1)
    as [[d2 Hall] | (pre & p & post & d' & e & -> & Hpre & Hp)].
  - exists paths, []. rewrite (moveEach_all_renamed _ _ _ _ _ _ Hall).
    cbn [fst snd disk emitted]. by rewrite app_nil_r.
  - exists pre, (p :: post).
    rewrite (moveEach_first_failure _ _ _ _ _ _ _ _ _ Hpre Hp).
    cbn [fst snd disk emitted]. split; [reflexivity|]. split; [exact Hpre|].
    exists e. split; [exact Hp|]. split; [reflexivity|].
    rewrite map_app. cbn [map]. by rewrite <- !app_assoc.
Qed.

Lemma renamed_all_app outputDir (a b : list string) : forall d,
  renamed_all outputDir (a ++ b) d
  = match renamed_all outputDir a d with
    | Some d' => renamed_all outputDir b d'
    | None => None
    end.
Proof.
  induction a as [|p a IH]; intros d; [reflexivity|]. cbn [app renamed_all].
  destruct (os.Rename p (dest outputDir p) d); [reflexivity | apply IH].
Qed.

End Facts.
End mover_facts.

(** ** [MoveVideos] on any file system *)

Module MoveVideos_facts.
Import runtime spec mover_facts.

(** C5.  A move request with no entries is rejected with an error, and
    nothing is done to the disk first: whatever the file system, the
    disk after the call is the disk before it (no directory is made, no
    file renamed); the call only emits its first status event and the
    error event. *)
Theorem MoveVideos_empty_request_rejected {W : Type} `{os.Sys W} (w : World W) :
  App.MoveVideos [] w
  = (Some NoFilesProvided,
     {| disk := disk w;
        emitted := emitted w ++ [ status (ReceivedRequest 0);
                                  error_event NoFilesProvided ] |}).
Proof.
  unfold App.MoveVideos, bind, EventsEmit, ret. cbn [disk emitted length].
  rewrite <- app_assoc. reflexivity.
Qed.

End MoveVideos_facts.



(** ** The naming rule *)

Module naming_facts.

Lemma replace_byte_length old new_ s :
  String.length (strings.replace_byte old new_ s) = String.length s.
Proof. induction s as [|c s IH]; simpl; congruence. Qed.

Lemma replace_byte_get old new_ s : forall i,
  String.get i (strings.replace_byte old new_ s)
  = (fun c => if Ascii.eqb c old then new_ else c) <$> String.get i s.
Proof.
  induction s as [|c s IH]; intros i; [reflexivity|].
  destruct i as [|i]; simpl; [reflexivity | apply IH].
Qed.

(** C4, as the code has it.  The rule of [app.go] yields the first path
    with every dot replaced by an underscore, byte for byte: the
    extension is not stripped (its dot becomes an underscore) and the
    path separators stay where they are. *)
Theorem outputDir_replaces_dots (firstFilePath : string) :
  App.outputDir firstFilePath
  = strings.replace_byte "."%char "_"%char firstFilePath
  /\ String.length (App.outputDir firstFilePath) = String.length firstFilePath
  /\ forall i,
       String.get i (App.outputDir firstFilePath)
       = (fun c => if Ascii.eqb c "."%char then "_"%char else c)
           <$> String.get i firstFilePath.
Proof.
  unfold App.outputDir. rewrite strings_facts.Join_Split_replace.
  split; [reflexivity|]. split.
  - apply replace_byte_length.
  - apply replace_byte_get.
Qed.

(** C4, as the specification words it, fails: [/videos/clip.m4v] is
    sent to [/videos/clip_m4v], not to [_videos_clip]. *)
Lemma outputDir_not_stripped_and_underscored :
  App.outputDir "/videos/clip.m4v" = "/videos/clip_m4v"
  /\ spec.stripped_and_underscored "/videos/clip.m4v" = "_videos_clip"
  /\ ~ (forall firstFilePath,
          App.outputDir firstFilePath
          = spec.stripped_and_underscored firstFilePath).
Proof.
  split; [reflexivity|]. split; [reflexivity|].
  intros Hall. specialize (Hall "/videos/clip.m4v"). discriminate Hall.
Qed.

(** The rule of the earlier variant, on the same path and on a path one
    level deeper. *)
Example Variant_outputDir_two_levels_up :
  map Variant.outputDir ["/videos/clip.m4v"; "/videos/set/clip.m4v"]
  = ["/clip"; "/videos/clip"].
Proof. vm_compute. reflexivity. Qed.

End naming_facts.

(** ** The scan of [SelectDirectory] *)

Module scan_facts.
Import filewalk spec.

(** Induction on trees that reaches the trees below a directory. *)
Section tree_induction.
Variable P : tree -> Prop.
Hypothesis P_NotDir : P NotDir.
Hypothesis P_unreadable : forall e, P (Directory (inl e)).
Hypothesis P_Directory : forall names,
  Forall (fun entry => match entry.2 with inr t => P t | inl _ => True end) names ->
  P (Directory (inr names)).

Fixpoint tree_induction (t : tree) : P t :=
  match t with
  | NotDir => P_NotDir
  | Directory (inl e) => P_unreadable e
  | Directory (inr names) =>
      P_Directory names
        ((fix all (names : list (string * (os.Errno + tree))) :=
            match names
              return Forall (fun entry =>
                       match entry.2 with inr t => P t | inl _ => True end) names
            with
            | [] => @List.Forall_nil _ _
            | (n, inl e) :: rest => @List.Forall_cons _ _ (n, inl e) rest I (all rest)
            | (n, inr c) :: rest =>
                @List.Forall_cons _ _ (n, inr c) rest (tree_induction c) (all rest)
            end) names)
  end.
End tree_induction.

(** What the walk of a tree does to the slice of [scanFn]. *)
Lemma walk_scanFn t : forall path name acc,
  match first_error t with
  | None =>
      walk path name t App.scanFn acc = (None, acc ++ videos_of path name t)
  | Some e =>
      exists found, walk path name t App.scanFn acc = (Some (PathError e), found)
  end.
Proof.
  induction t as [| e | names IH] using tree_induction; intros path name acc.
  - cbn [first_error walk]. unfold videos_of, App.scanFn, is_video.
    cbn [files_of os.IsDir os.Name negb andb filter].
    destruct (strings.HasSuffix _ _) eqn:Hs.
    + rewrite filter_cons_True by (cbn; exact Hs). reflexivity.
    + rewrite filter_cons_False by (cbn; rewrite Hs; discriminate).
      cbn. rewrite app_nil_r. reflexivity.
  - cbn. eauto.
  - cbn [first_error walk].
    change (App.scanFn path (Some {| os.Name := name; os.IsDir := true |}) None acc)
      with (@None error, acc).
    cbv iota. unfold videos_of. cbn [files_of].
    revert acc. induction IH as [|[n [e|child]] rest Hc Hrest IHrest]; intros acc.
    + cbn. rewrite app_nil_r. reflexivity.
    + cbn. eauto.
    + cbn [snd] in Hc.
      specialize (Hc (filepath.Join [path; n]) n acc).
      cbn [map list_find_error each fst snd concat].
      destruct (first_error child) as [e|].
      * destruct Hc as [found Hw]. exists found. rewrite Hw. reflexivity.
      * rewrite Hc.
        specialize (IHrest (acc ++ videos_of (filepath.Join [path; n]) n child)).
        destruct (list_find_error _) as [e|].
        -- exact IHrest.
        -- rewrite IHrest. unfold videos_of.
           rewrite filter_app, map_app, app_assoc. reflexivity.
Qed.

(** The test of the scan is the allow-list, whatever the case. *)
Lemma is_video_spec (name : string) :
  is_video name = true <-> has_m4v_extension name.
Proof.
  unfold is_video, has_m4v_extension. rewrite strings_facts.HasSuffix_spec. split.
  - intros [stem Hs].
    destruct (strings_facts.ToLower_append_inv _ _ _ Hs) as (a & b & -> & _ & Hb).
    exists a, b. split; [reflexivity|].
    destruct b as [|c1 [|c2 [|c3 [|c4 [|c5 b]]]]]; try discriminate.
    cbn [strings.ToLower] in Hb. injection Hb as H1 H2 H3 H4.
    apply strings_facts.lower_byte_inv in H1, H2, H3, H4.
    destruct H1 as (H1 & _ & _). specialize (H1 (or_introl eq_refl)).
    destruct H3 as (H3 & _ & _). specialize (H3 (or_intror eq_refl)).
    destruct H2 as (_ & H2 & _). specialize (H2 eq_refl).
    destruct H4 as (_ & _ & H4). specialize (H4 eq_refl).
    subst c1 c3. unfold m4v_extensions.
    destruct H2 as [-> | ->], H4 as [-> | ->];
      repeat (first [by left | right]).
  - intros (stem & ext & -> & Hext). exists (strings.ToLower stem).
    rewrite strings_facts.ToLower_append. f_equal.
    unfold m4v_extensions in Hext.
    repeat (apply elem_of_cons in Hext as [-> | Hext]; [reflexivity|]).
    by apply elem_of_nil in Hext.
Qed.

Lemma IsAbs_spec (path : string) :
  filepath.IsAbs path = true <-> exists rest, path = String "/" rest.
Proof.
  unfold filepath.IsAbs, strings.HasPrefix. split.
  - destruct path as [|c rest]; [discriminate|]. cbn [strings.HasPrefix].
    rewrite andb_true_r, Ascii.eqb_eq. intros <-. eauto.
  - intros [rest ->]. reflexivity.
Qed.

Lemma IsAbs_Join (path name : string) :
  filepath.IsAbs path = true -> filepath.IsAbs (filepath.Join [path; name]) = true.
Proof.
  intros [rest ->]%IsAbs_spec. apply IsAbs_spec.
  cbn [filepath.Join]. destruct (decide _) as [|_]; [discriminate|].
  unfold filepath.Clean. destruct (decide _) as [Hnil|_]; [discriminate Hnil|].
  change (filepath.IsAbs (strings.Join [String "/" rest; name] "/")) with true.
  cbv iota. eexists. apply strings_facts.append_cons.
Qed.

Lemma files_of_IsAbs t : forall path name,
  filepath.IsAbs path = true ->
  Forall (fun pn => filepath.IsAbs pn.1 = true) (files_of path name t).
Proof.
  induction t as [| e | names IH] using tree_induction; intros path name Habs.
  - cbn. by repeat constructor.
  - constructor.
  - cbn [files_of]. induction IH as [|[n [e|child]] rest Hc Hrest IHrest];
      cbn [map concat fst snd]; [constructor | exact IHrest |].
    apply Forall_app. split; [|exact IHrest].
    apply Hc, IsAbs_Join, Habs.
Qed.

(** C6.  When the dialog returns a directory and the whole tree under it
    can be read, [SelectDirectory] returns, without error, the paths of
    the files of the tree that pass the test, in the order of the walk:
    a path is returned exactly when it is the path of a file (a node
    that is not a directory) whose name ends in [.m4v] in any case of
    the letters; nothing is returned, and still no error, when no file
    does; and the paths are absolute when the directory is. *)
Theorem SelectDirectory_returns_matching_files
    (selectedDir : string) (lstat : string -> os.Errno + tree) (t : tree) :
  selectedDir <> "" ->
  lstat selectedDir = inr t ->
  first_error t = None ->
  let files := files_of selectedDir (filepath.Base selectedDir) t in
  let found := videos_of selectedDir (filepath.Base selectedDir) t in
  App.SelectDirectory (selectedDir, None) lstat = (found, None)
  /\ (forall path,
        path ∈ found <->
        exists name, (path, name) ∈ files /\ has_m4v_extension name)
  /\ ((forall path name, (path, name) ∈ files -> ~ has_m4v_extension name) ->
      App.SelectDirectory (selectedDir, None) lstat = ([], None))
  /\ (filepath.IsAbs selectedDir = true ->
      Forall (fun path => filepath.IsAbs path = true) found).
Proof.
  intros Hdir Hlstat Hread files found.
  assert (Hrun : App.SelectDirectory (selectedDir, None) lstat = (found, None)).
  { unfold App.SelectDirectory. destruct (decide _) as [|_]; [contradiction|].
    unfold Walk. rewrite Hlstat.
    pose proof (walk_scanFn t selectedDir (filepath.Base selectedDir) []) as Hw.
    rewrite Hread in Hw. rewrite Hw. reflexivity. }
  assert (Hmem : forall path,
             path ∈ found <->
             exists name, (path, name) ∈ files /\ has_m4v_extension name).
  { intros path. unfold found, videos_of. rewrite list_elem_of_fmap. split.
    - intros ([p name] & -> & Hin). apply list_elem_of_filter in Hin as [Hv Hin].
      exists name. split; [exact Hin | by apply is_video_spec].
    - intros (name & Hin & Hext). exists (path, name). split; [reflexivity|].
      apply list_elem_of_filter. split; [by apply is_video_spec | exact Hin]. }
  split; [exact Hrun|]. split; [exact Hmem|]. split.
  - intros Hnone. rewrite Hrun. f_equal.
    destruct found as [|path found']; [reflexivity|].
    destruct (proj1 (Hmem path)) as (name & Hin & Hext); [by left|].
    destruct (Hnone _ _ Hin Hext).
  - intros Habs. unfold found, videos_of.
    pose proof (files_of_IsAbs t selectedDir (filepath.Base selectedDir) Habs) as Hall.
    rewrite Forall_forall in Hall. apply Forall_forall. intros path Hin.
    apply list_elem_of_fmap in Hin as (pn & -> & Hin).
    apply list_elem_of_filter in Hin as [_ Hin]. exact (Hall _ Hin).
Qed.

(** C7.  When the walk meets something it cannot read -- the selected
    directory itself, a directory below it whose names cannot be listed,
    or a name on which [Lstat] fails -- [SelectDirectory] returns the
    error of the first such failure and an empty list: the files matched
    before the failure are not returned. *)
Theorem SelectDirectory_aborts_on_unreadable
    (selectedDir : string) (lstat : string -> os.Errno + tree) (e : os.Errno) :
  selectedDir <> "" ->
  match lstat selectedDir with
  | inl e' => Some e'
  | inr t => first_error t
  end = Some e ->
  App.SelectDirectory (selectedDir, None) lstat
  = ([], Some (App.ScanError (PathError e))).
Proof.
  intros Hdir Herr.
  unfold App.SelectDirectory. destruct (decide _) as [|_]; [contradiction|].
  unfold Walk. destruct (lstat selectedDir) as [e'|t].
  - injection Herr as ->. reflexivity.
  - pose proof (walk_scanFn t selectedDir (filepath.Base selectedDir) []) as Hw.
    rewrite Herr in Hw. destruct Hw as [found ->]. reflexivity.
Qed.

End scan_facts.

Lemma SelectDirectory_returns_matching_files_witness :
  App.SelectDirectory ("/videos", None) (fun _ => inr scenario.library)
  = (["/videos/a.M4V"; "/videos/sub/c.m4v"; "/videos/z.m4v"], None).
Proof.
  destruct (scan_facts.SelectDirectory_returns_matching_files
              "/videos" (fun _ => inr scenario.library) scenario.library)
    as (Hrun & _); [discriminate | reflexivity | reflexivity |].
  rewrite Hrun. vm_compute. reflexivity.
Defined.

Lemma SelectDirectory_aborts_on_unreadable_witness :
  spec.videos_of "/videos" "videos" scenario.library_locked
  = ["/videos/a.M4V"; "/videos/z.m4v"]
  /\ App.SelectDirectory ("/videos", None) (fun _ => inr scenario.library_locked)
     = ([], Some (App.ScanError (filewalk.PathError os.EACCES))).
Proof.
  split; [vm_compute; reflexivity|].
  apply (scan_facts.SelectDirectory_aborts_on_unreadable
           "/videos" (fun _ => inr scenario.library_locked) os.EACCES);
    [discriminate | reflexivity].
Defined.

(** ** The base64 text of a data URL *)

Module base64_facts.
Import base64 spec.

Ltac Zify.zify_post_hook ::= Z.to_euclidean_division_equations.

Lemma testbit_above (lo m : N) : (lo < 2 ^ m)%N -> N.testbit lo m = false.
Proof.
  intros Hlo. destruct (N.eq_dec lo 0%N) as [->|Hne]; [apply N.bits_0|].
  apply N.bits_above_log2, N.log2_lt_pow2; lia.
Qed.

(** Bits that do not overlap add up. *)
Lemma lor_shift_add (hi lo n : N) :
  (lo < 2 ^ n)%N -> N.lor (N.shiftl hi n) lo = (hi * 2 ^ n + lo)%N.
Proof.
  intros Hlo. rewrite N.shiftl_mul_pow2.
  assert (Hdisj : N.land (hi * 2 ^ n) lo = 0%N).
  { apply N.bits_inj. intros m. rewrite N.land_spec, N.bits_0.
    destruct (N.lt_ge_cases m n) as [Hm|Hm].
    - by rewrite N.mul_pow2_bits_low.
    - rewrite (testbit_above lo m), andb_false_r; [reflexivity|].
      eapply N.lt_le_trans; [exact Hlo|]. apply N.pow_le_mono_r; lia. }
  by rewrite (N.add_nocarry_lxor _ _ Hdisj), (N.lxor_lor _ _ Hdisj).
Qed.

Lemma land_ones_mod (x : N) (k : N) : N.land x (N.ones k) = (x mod 2 ^ k)%N.
Proof. apply N.land_ones. Qed.

(** The value [val] of a group of three bytes, and its four sextets. *)
Lemma group_value (a b c : N) :
  (b < 256)%N -> (c < 256)%N ->
  N.lor (N.lor (N.shiftl a 16) (N.shiftl b 8)) c
  = (a * 65536 + b * 256 + c)%N.
Proof.
  intros Hb Hc.
  rewrite (N.shiftl_mul_pow2 b), (lor_shift_add a (b * 2 ^ 8) 16)
    by (change (2 ^ 8)%N with 256%N; change (2 ^ 16)%N with 65536%N; lia).
  replace (a * 2 ^ 16 + b * 2 ^ 8)%N with ((a * 256 + b) * 2 ^ 8)%N
    by (change (2 ^ 8)%N with 256%N; change (2 ^ 16)%N with 65536%N; lia).
  rewrite <- N.shiftl_mul_pow2, lor_shift_add
    by (change (2 ^ 8)%N with 256%N; lia).
  change (2 ^ 8)%N with 256%N. lia.
Qed.

Lemma sextet (val k : N) :
  N.land (N.shiftr val k) 63 = ((val / 2 ^ k) mod 64)%N.
Proof.
  rewrite N.shiftr_div_pow2. change 63%N with (N.ones 6).
  apply N.land_ones.
Qed.

(** A character of the alphabet is read back as its place, and [=] is
    not in the alphabet. *)
Lemma decodeMap_encode (i : N) : (i < 64)%N -> decodeMap (encode i) = Some i.
Proof.
  intros Hi. rewrite <- (N2Nat.id i).
  assert (Hn : N.to_nat i < 64) by lia. revert Hn. generalize (N.to_nat i).
  intros n Hn. do 64 (destruct n as [|n]; [reflexivity|]). lia.
Qed.

Lemma encode_not_pad (i : N) : (i < 64)%N -> encode i <> "="%char.
Proof.
  intros Hi Heq. pose proof (decodeMap_encode i Hi) as Hd.
  rewrite Heq in Hd. discriminate Hd.
Qed.

(** The bytes of a group are read back from its sextets. *)
Lemma group_roundtrip (val a b c : N) :
  (a < 256)%N -> (b < 256)%N -> (c < 256)%N ->
  val = (a * 65536 + b * 256 + c)%N ->
  let s0 := N.land (N.shiftr val 18) 63 in
  let s1 := N.land (N.shiftr val 12) 63 in
  let s2 := N.land (N.shiftr val 6) 63 in
  let s3 := N.land val 63 in
  ((s0 < 64)%N /\ (s1 < 64)%N /\ (s2 < 64)%N /\ (s3 < 64)%N)
  /\ N.lor (N.shiftl s0 2) (N.shiftr s1 4) = a
  /\ N.lor (N.shiftl (N.land s1 15) 4) (N.shiftr s2 2) = b
  /\ N.lor (N.shiftl (N.land s2 3) 6) s3 = c.
Proof.
  intros Ha Hb Hc Hval s0 s1 s2 s3.
  assert (H0 : s0 = ((val / 262144) mod 64)%N) by apply (sextet val 18).
  assert (H1 : s1 = ((val / 4096) mod 64)%N) by apply (sextet val 12).
  assert (H2 : s2 = ((val / 64) mod 64)%N) by apply (sextet val 6).
  assert (H3 : s3 = (val mod 64)%N)
    by (unfold s3; change 63%N with (N.ones 6); apply N.land_ones).
  clearbody s0 s1 s2 s3.
  change 15%N with (N.ones 4). change 3%N with (N.ones 2).
  rewrite !N.land_ones, !N.shiftr_div_pow2.
  change (2 ^ 4)%N with 16%N. change (2 ^ 2)%N with 4%N.
  rewrite !lor_shift_add.
  - change (2 ^ 6)%N with 64%N. change (2 ^ 4)%N with 16%N.
    change (2 ^ 2)%N with 4%N. repeat split; lia.
  - change (2 ^ 6)%N with 64%N. lia.
  - change (2 ^ 4)%N with 16%N. lia.
  - change (2 ^ 2)%N with 4%N. lia.
Qed.

Lemma string_ind3 (P : string -> Prop) :
  P EmptyString ->
  (forall a, P (String a EmptyString)) ->
  (forall a b, P (String a (String b EmptyString))) ->
  (forall a b c rest, P rest -> P (String a (String b (String c rest)))) ->
  forall s, P s.
Proof.
  intros P0 P1 P2 P3. fix IH 1.
  intros [|a [|b [|c rest]]]; [exact P0 | apply P1 | apply P2 | apply P3, IH].
Qed.

(** The decoder reads back what [EncodeToString] writes. *)
Lemma decode_EncodeToString (src : string) :
  base64_decode (EncodeToString src) = Some src.
Proof.
  induction src as [|a|a b|a b c rest IH] using string_ind3.
  - reflexivity.
  - cbn [EncodeToString].
    destruct (group_roundtrip (N.shiftl (byte a) 16) (byte a) 0 0)
      as ((L0 & L1 & _) & Ea & _);
      [apply N_ascii_bounded | lia | lia | rewrite N.shiftl_mul_pow2; lia |].
    cbn [base64_decode].
    rewrite (decodeMap_encode _ L0), (decodeMap_encode _ L1), Ea.
    change (decodeMap "=") with (@None N). cbn [Ascii.eqb].
    by rewrite ascii_N_embedding.
  - cbn [EncodeToString].
    destruct (group_roundtrip
                (N.lor (N.shiftl (byte a) 16) (N.shiftl (byte b) 8))
                (byte a) (byte b) 0)
      as ((L0 & L1 & L2 & _) & Ea & Eb & _);
      [apply N_ascii_bounded | apply N_ascii_bounded | lia | |].
    { rewrite <- (N.lor_0_r (N.lor _ _)).
      apply group_value; [apply N_ascii_bounded | lia]. }
    cbn [base64_decode].
    rewrite (decodeMap_encode _ L0), (decodeMap_encode _ L1),
      (decodeMap_encode _ L2), Ea, Eb.
    change (decodeMap "=") with (@None N).
    by rewrite !ascii_N_embedding.
  - cbn [EncodeToString].
    destruct (group_roundtrip
                (N.lor (N.lor (N.shiftl (byte a) 16) (N.shiftl (byte b) 8))
                   (byte c))
                (byte a) (byte b) (byte c))
      as ((L0 & L1 & L2 & L3) & Ea & Eb & Ec);
      [apply N_ascii_bounded | apply N_ascii_bounded | apply N_ascii_bounded
      | apply group_value; apply N_ascii_bounded |].
    cbn [base64_decode].
    rewrite (decodeMap_encode _ L0), (decodeMap_encode _ L1),
      (decodeMap_encode _ L2), (decodeMap_encode _ L3), Ea, Eb, Ec, IH.
    by rewrite !ascii_N_embedding.
Qed.

End base64_facts.

(** ** [GenerateThumbnail] *)

Module thumbnail_facts.
Import exec spec.

(** C8, as the code has it.  [GenerateThumbnail] runs the one [ffmpeg]
    command once, whatever comes of it (no retry, no second seek), and
    returns an error in two cases, told apart by the error itself: when
    [cmd.Run] fails -- a non-zero exit, but also a tool that could not be
    started -- the error carries the error of [Run] and what the tool
    wrote to its standard error; when [Run] succeeds and nothing was
    written to standard output, it is the no-data error.  Otherwise the
    result is, with no error, the JPEG data URL of the bytes of standard
    output: the prefix [data:image/jpeg;base64,] followed by their
    base64 text, from which the bytes are read back. *)
Theorem GenerateThumbnail_outcomes
    (sys : Cmd -> Result) (videoPath : string) (ran : list Cmd) :
  let r := sys (ffmpeg videoPath) in
  let out := App.GenerateThumbnail sys videoPath ran in
  out.2 = ran ++ [ffmpeg videoPath]
  /\ (out.1.2 <> None <-> err r <> None \/ (err r = None /\ Stdout r = ""))
  /\ (forall e, err r = Some e ->
        out.1 = ("", Some (App.ExecutionFailed videoPath e (Stderr r))))
  /\ (err r = None -> Stdout r = "" ->
        out.1 = ("", Some (App.NoThumbnailData videoPath)))
  /\ (err r = None -> Stdout r <> "" ->
        out.1 = ("data:image/jpeg;base64," +:+ base64.EncodeToString (Stdout r),
                 None)
        /\ base64_decode (base64.EncodeToString (Stdout r)) = Some (Stdout r))
  /\ (forall e stderr,
        App.ExecutionFailed videoPath e stderr <> App.NoThumbnailData videoPath).
Proof.
  intros r out. subst out. unfold App.GenerateThumbnail, Run.
  fold (ffmpeg videoPath). fold r.
  destruct (err r) as [e|] eqn:He.
  - cbn [fst snd]. split; [reflexivity|]. split.
    { split; [intros _; by left | discriminate]. }
    split; [intros e' [= <-]; reflexivity|].
    repeat split; discriminate.
  - destruct (Stdout r) as [|c bytes] eqn:Hout;
      cbn [String.length Nat.eqb fst snd].
    + split; [reflexivity|]. split.
      { split; [intros _; by right | discriminate]. }
      repeat split; first [discriminate | reflexivity | congruence].
    + split; [reflexivity|]. split.
      { split; [intros Hne; by destruct Hne|].
        intros [Hf | [_ Hf]]; [by destruct Hf | discriminate]. }
      split; [discriminate|]. split; [discriminate|]. split.
      * intros _ _. split; [reflexivity|].
        apply base64_facts.decode_EncodeToString.
      * discriminate.
Qed.

(** C8, as the specification words it, fails: without [ffmpeg] in the
    path the tool does not exit at all, with no status, and an error is
    returned all the same. *)
Lemma GenerateThumbnail_error_without_exit :
  (App.GenerateThumbnail scenario.no_ffmpeg "/v/a.m4v" []).1
  = ("", Some (App.ExecutionFailed "/v/a.m4v"
                 (OtherError "executable file not found in $PATH") ""))
  /\ ~ (forall sys videoPath ran,
          (App.GenerateThumbnail sys videoPath ran).1.2 <> None ->
          exits_nonzero (sys (ffmpeg videoPath))
          \/ exits_zero_without_data (sys (ffmpeg videoPath))).
Proof.
  split; [reflexivity|]. intros Hall.
  destruct (Hall scenario.no_ffmpeg "/v/a.m4v" []) as [(code & Hc & _) | (Hc & _)];
    [discriminate | discriminate Hc | discriminate Hc].
Qed.

End thumbnail_facts.

(** ** Paths and the places they name *)

Module path_facts.
Import strings strings_facts filepath spec.

Lemma Split_cons c s sep :
  Split (String c s) sep
  = if Ascii.eqb c sep then EmptyString :: Split s sep
    else match Split s sep with
         | [] => [String c EmptyString]
         | piece :: pieces => String c piece :: pieces
         end.
Proof. reflexivity. Qed.

Lemma Split_sep_free s : Forall sep_free (Split s Separator).
Proof.
  induction s as [|c s IH]; [by repeat constructor|].
  rewrite Split_cons. destruct (Ascii.eqb c Separator) eqn:Hc.
  - by constructor.
  - pose proof (Split_nonempty s Separator) as Hne.
    destruct (Split s Separator) as [|piece pieces]; [congruence|].
    inversion IH as [|? ? Hp Hps]; subst. constructor; [|exact Hps].
    unfold sep_free in *. cbn. by rewrite Hc, Hp.
Qed.

Lemma Split_no_sep s : sep_free s -> Split s Separator = [s].
Proof.
  induction s as [|c s IH]; [reflexivity|]. unfold sep_free. cbn [contains_byte].
  intros [Hc Hs]%orb_false_iff. rewrite Split_cons, Hc, (IH Hs). reflexivity.
Qed.

Lemma Split_append a b :
  Split (a +:+ String Separator b) Separator
  = Split a Separator ++ Split b Separator.
Proof.
  induction a as [|c a IH].
  - rewrite append_nil_l, Split_cons, Ascii.eqb_refl. reflexivity.
  - rewrite append_cons, !Split_cons, IH.
    destruct (Ascii.eqb c Separator); [reflexivity|].
    pose proof (Split_nonempty a Separator).
    destruct (Split a Separator); [congruence | reflexivity].
Qed.

Lemma Split_Join (k : list string) :
  k <> [] -> Forall sep_free k -> Split (strings.Join k "/") Separator = k.
Proof.
  induction k as [|e k IH]; [congruence|]. intros _ Hk.
  inversion Hk as [|? ? He Hk']; subst.
  destruct k as [|e' k]; [by apply Split_no_sep|].
  rewrite Join_cons by discriminate.
  change ("/" +:+ strings.Join (e' :: k) "/")
    with (String Separator (strings.Join (e' :: k) "/")).
  rewrite Split_append, (Split_no_sep _ He), IH by (discriminate || assumption).
  reflexivity.
Qed.

(** The loop of [Clean] on elements that are all names. *)
Lemma fold_clean_proper rooted (k : list string) : forall out,
  Forall proper k -> fold_left (clean_step rooted) k out = rev k ++ out.
Proof.
  induction k as [|e k IH]; intros out Hk; [reflexivity|].
  inversion Hk as [|? ? (H1 & H2 & H3 & _) Hk']; subst. cbn [fold_left rev].
  rewrite (IH _ Hk'), <- app_assoc. cbn [app]. f_equal.
  unfold clean_step. repeat (destruct (decide _); [congruence|]). reflexivity.
Qed.

(** What the loop leaves is made of names. *)
Lemma fold_clean_true_proper (elems : list string) : forall out,
  Forall sep_free elems -> Forall proper out ->
  Forall proper (fold_left (clean_step true) elems out).
Proof.
  induction elems as [|e elems IH]; intros out Hfree Hout; [exact Hout|].
  inversion Hfree as [|? ? He Hfree']; subst. cbn [fold_left].
  apply IH; [exact Hfree'|]. unfold clean_step.
  destruct (decide (e = "")); [exact Hout|].
  destruct (decide (e = ".")); [exact Hout|].
  destruct (decide (e = "..")).
  - destruct out as [|top below]; [constructor|].
    inversion Hout as [|? ? (_ & _ & Htop & _) Hbelow]; subst.
    destruct (decide (top = "..")); [congruence | exact Hbelow].
  - constructor; [|exact Hout]. by repeat split.
Qed.

Local Abbreviation key_of := memfs.key_of.

Lemma key_of_proper s : Forall proper (key_of s).
Proof.
  unfold memfs.key_of. apply Forall_rev.
  apply fold_clean_true_proper; [apply Split_sep_free | constructor].
Qed.

(** The place of [a/b] is found from the place of [a]. *)
Lemma key_of_append a b :
  key_of (a +:+ String Separator b)
  = rev (fold_left (clean_step true) (Split b Separator) (rev (key_of a))).
Proof.
  unfold memfs.key_of. by rewrite Split_append, fold_left_app, rev_involutive.
Qed.

Lemma key_of_names (k : list string) :
  Forall proper k -> key_of (String Separator (strings.Join k "/")) = k.
Proof.
  intros Hk. rewrite <- (append_nil_l (String _ _)), key_of_append.
  change (rev (key_of "")) with (@nil string).
  destruct k as [|e k]; [reflexivity|].
  rewrite Split_Join; [|discriminate|by eapply Forall_impl; [exact Hk|intros ? (_&_&_&?)]].
  by rewrite fold_clean_proper, app_nil_r, rev_involutive.
Qed.

(** An unrooted path is cleaned like a rooted one, except that the [..]
    elements that climb above its start are kept. *)
Lemma fold_clean_unrooted (elems : list string) : forall out m,
  Forall sep_free elems -> Forall proper out ->
  exists m',
    fold_left (clean_step false) elems (out ++ replicate m "..")
    = fold_left (clean_step true) elems out ++ replicate m' "..".
Proof.
  induction elems as [|e elems IH]; intros out m Hfree Hout; [by exists m|].
  inversion Hfree as [|? ? He Hfree']; subst.
  cbn [fold_left]. unfold clean_step at 2 4.
  destruct (decide (e = "")); [by apply IH|].
  destruct (decide (e = ".")); [by apply IH|].
  destruct (decide (e = "..")) as [->|].
  - destruct out as [|top below].
    + destruct m as [|m]; cbn [app replicate].
      * apply (IH [] 1); [assumption | constructor].
      * destruct (decide _) as [_|]; [|congruence].
        apply (IH [] (S (S m))); [assumption | constructor].
    + inversion Hout as [|? ? (_ & _ & Htop & _) Hbelow]; subst. cbn [app].
      destruct (decide (top = "..")); [congruence|]. by apply IH.
  - change (e :: out ++ replicate m "..") with ((e :: out) ++ replicate m "..").
    apply IH; [assumption|]. constructor; [by repeat split | assumption].
Qed.

Lemma rev_replicate {A} m (x : A) : rev (replicate m x) = replicate m x.
Proof. rewrite rev_alt. apply reverse_replicate. Qed.

Lemma fold_clean_dots m :
  fold_left (clean_step true) (replicate m "..") [] = [].
Proof. induction m as [|m IH]; [reflexivity | exact IH]. Qed.

Lemma Join_not_empty (k : list string) :
  k <> [] -> Forall (fun e => e <> "") k -> strings.Join k "/" <> "".
Proof.
  destruct k as [|e k]; [congruence|]. intros _ Hk.
  inversion Hk as [|? ? He _]; subst.
  destruct k as [|e' k]; [exact He|]. rewrite Join_cons by discriminate.
  destruct e; [congruence | discriminate].
Qed.

(** Cleaning a path does not change the place it names. *)
Lemma key_of_Clean s : key_of (Clean s) = key_of s.
Proof.
  unfold Clean. destruct (decide (s = "")) as [->|Hs]; [reflexivity|].
  destruct (IsAbs s) eqn:Habs.
  - change ("/" +:+ ?b) with (String Separator b).
    rewrite key_of_names; [reflexivity|].
    apply Forall_rev, fold_clean_true_proper; [apply Split_sep_free | constructor].
  - destruct (fold_clean_unrooted (Split s Separator) [] 0) as [m Hm];
      [apply Split_sep_free | constructor |].
    cbn [app replicate] in Hm. rewrite Hm, rev_app_distr, rev_replicate.
    fold (key_of s).
    set (k := replicate m ".." ++ key_of s).
    assert (Hfree : Forall sep_free k).
    { apply Forall_app. split; [by apply Forall_replicate|].
      eapply Forall_impl; [apply key_of_proper | by intros ? (_&_&_&?)]. }
    assert (Hne : Forall (fun e => e <> "") k).
    { apply Forall_app. split; [by apply Forall_replicate|].
      eapply Forall_impl; [apply key_of_proper | by intros ? (?&_)]. }
    destruct (decide (k = [])) as [Hk|Hk].
    + assert (Hks : key_of s = [])
        by (unfold k in Hk; by apply app_eq_nil in Hk as [_ ?]).
      rewrite Hk, Hks. reflexivity.
    + destruct (decide _) as [Hb|_]; [by apply Join_not_empty in Hb|].
      unfold memfs.key_of at 1. rewrite Split_Join by assumption.
      unfold k. rewrite fold_left_app, fold_clean_dots.
      by rewrite fold_clean_proper, app_nil_r, rev_involutive
        by apply key_of_proper.
Qed.

(** The place of [filepath.Join(dir, name)]. *)
Lemma key_of_Join dir name :
  dir <> "" ->
  key_of (Join [dir; name])
  = rev (fold_left (clean_step true) (Split name Separator) (rev (key_of dir))).
Proof.
  intros Hdir. cbn [Join]. destruct (decide _) as [|_]; [contradiction|].
  rewrite key_of_Clean, <- key_of_append. reflexivity.
Qed.

Lemma key_of_Join_proper dir name :
  dir <> "" -> proper name -> key_of (Join [dir; name]) = key_of dir ++ [name].
Proof.
  intros Hdir Hname. rewrite key_of_Join by assumption.
  rewrite Split_no_sep by apply Hname.
  rewrite (fold_clean_proper true [name]) by (by constructor).
  cbn [rev app]. by rewrite rev_involutive.
Qed.

Lemma clean_step_dotdot out :
  Forall proper out -> clean_step true out ".." = tail out.
Proof.
  intros Hout. unfold clean_step.
  repeat (destruct (decide _) as [Heq|_]; [discriminate Heq|]).
  destruct (decide _) as [_|]; [|congruence].
  destruct out as [|top below]; [reflexivity|].
  inversion Hout as [|? ? (_&_&Htop&_) _]; subst.
  destruct (decide _); [congruence | reflexivity].
Qed.

(** Joining [/], [.] or [..] to a directory names the directory or its
    parent. *)
Lemma key_of_Join_improper dir name :
  dir <> "" -> name = "/" \/ name = "." \/ name = ".." ->
  key_of (Join [dir; name]) = key_of dir
  \/ key_of (Join [dir; name]) = memfs.parent (key_of dir).
Proof.
  intros Hdir Hname. rewrite key_of_Join by assumption.
  destruct Hname as [-> | [-> | ->]].
  - left. cbn. apply rev_involutive.
  - left. cbn. apply rev_involutive.
  - right. change (Split ".." Separator) with [".."]. cbn [fold_left].
    rewrite clean_step_dotdot by apply Forall_rev, key_of_proper.
    unfold memfs.parent.
    destruct (key_of dir) as [|e k _] using rev_ind; [reflexivity|].
    rewrite rev_app_distr. cbn [rev app tail].
    by rewrite rev_involutive, removelast_last.
Qed.

(** The last element of a path is [/], [.], [..] or a name. *)
Lemma Base_shape p :
  Base p = "/" \/ Base p = "." \/ Base p = ".." \/ proper (Base p).
Proof.
  unfold Base. destruct (decide (p = "")); [auto|].
  set (pieces := Split (trim_right Separator p) Separator).
  assert (Hfree : Forall sep_free pieces) by apply Split_sep_free.
  assert (Hlast : sep_free (List.last pieces "")).
  { clearbody pieces. induction Hfree as [|e l He Hl IH]; [reflexivity|].
    destruct l; [exact He | exact IH]. }
  destruct (decide (List.last pieces "" = "")); [auto|].
  destruct (decide (List.last pieces "" = ".")); [auto|].
  destruct (decide (List.last pieces "" = "..")); [auto|].
  right; right; right. by repeat split.
Qed.

End path_facts.

(** ** The reference disk *)

Module memfs_facts.
Import memfs spec path_facts.

Lemma lookup_node_Some_ne fs k n :
  lookup_node fs k = Some n -> n <> Dir -> fs !! k = Some n /\ k <> [].
Proof.
  destruct k; cbn; [intros [= <-] Hn; by destruct Hn | intros Hk _; by split].
Qed.

Lemma lookup_node_ne fs k : k <> [] -> lookup_node fs k = fs !! k.
Proof. by destruct k. Qed.

Lemma parent_snoc k name : parent (k ++ [name]) = k.
Proof. apply removelast_last. Qed.

Lemma Mkdir_inr path fs fs' :
  Mkdir path fs = inr fs' ->
  path <> "" /\ key_of path <> [] /\ fs !! key_of path = None
  /\ lookup_node fs (parent (key_of path)) = Some Dir
  /\ fs' = <[key_of path := Dir]> fs.
Proof.
  unfold Mkdir. destruct (decide (path = "")); [discriminate|].
  destruct (lookup_node fs (key_of path)) eqn:Hk; [discriminate|].
  destruct (lookup_node fs (parent (key_of path))) as [[c|]|] eqn:Hp;
    try discriminate.
  intros [= <-]. destruct (key_of path); [discriminate Hk|]. by repeat split.
Qed.

Lemma Mkdir_exists path fs :
  path <> "" -> is_Some (lookup_node fs (key_of path)) ->
  Mkdir path fs = inl os.EEXIST.
Proof.
  intros Hp [n Hn]. unfold Mkdir. destruct (decide _); [contradiction|].
  by rewrite Hn.
Qed.

(** On a well-formed disk nothing lies below a path that does not exist. *)
Lemma wf_fresh_below fs k :
  wf fs -> k <> [] -> fs !! k = None ->
  forall k', k `prefix_of` k' -> fs !! k' = None.
Proof.
  intros Hwf Hk Hnone k' [ext ->].
  induction ext as [|name ext IH] using rev_ind; [by rewrite app_nil_r|].
  destruct (fs !! (k ++ ext ++ [name])) as [n|] eqn:Hn; [|reflexivity].
  apply Hwf in Hn as [_ Hpar]. rewrite app_assoc, parent_snoc in Hpar.
  rewrite lookup_node_ne in Hpar by (by destruct k). congruence.
Qed.

(** The rename of a regular file, when it succeeds. *)
Lemma Rename_file_inr oldpath newpath fs fs' c :
  Rename oldpath newpath fs = inr fs' ->
  fs !! key_of oldpath = Some (File c) ->
  key_of oldpath <> [] ->
  key_of oldpath <> key_of newpath ->
  key_of newpath <> []
  /\ lookup_node fs (parent (key_of newpath)) = Some Dir
  /\ fs !! key_of newpath <> Some Dir
  /\ fs' = <[key_of newpath := File c]> (delete (key_of oldpath) fs).
Proof.
  unfold Rename. intros Hren Hsrc Hks Hne.
  destruct (decide (oldpath = "")); [discriminate|].
  destruct (decide (newpath = "")); [discriminate|].
  rewrite (lookup_node_ne _ _ Hks), Hsrc in Hren.
  destruct (decide (key_of oldpath = key_of newpath)); [contradiction|].
  destruct (decide (key_of oldpath = [])); [contradiction|].
  destruct (decide (key_of newpath = [])) as [|Hkd]; [discriminate|].
  destruct (lookup_node fs (parent (key_of newpath))) as [[?|]|]; try discriminate.
  rewrite (lookup_node_ne _ _ Hkd) in Hren.
  destruct (fs !! key_of newpath) as [[c'|]|] eqn:Hdst; try discriminate;
    injection Hren as <-; by repeat split.
Qed.

Lemma Rename_missing oldpath newpath fs :
  key_of oldpath <> [] -> fs !! key_of oldpath = None ->
  Rename oldpath newpath fs = inl os.ENOENT.
Proof.
  intros Hks Hnone. unfold Rename.
  destruct (decide (oldpath = "")); [reflexivity|].
  destruct (decide (newpath = "")); [reflexivity|].
  by rewrite (lookup_node_ne _ _ Hks), Hnone.
Qed.

Lemma lookup_made_dirs (ks : list key) (fs : FS) k :
  foldr (fun k m => <[k := Dir]> m) fs ks !! k
  = if decide (k ∈ ks) then Some Dir else fs !! k.
Proof.
  induction ks as [|k' ks IH]; cbn [foldr].
  - case_decide as Hin; [by apply elem_of_nil in Hin | done].
  - rewrite lookup_insert, IH.
    destruct (decide (k' = k)) as [->|Hne].
    + rewrite decide_True by (by left). reflexivity.
    + destruct (decide (k ∈ ks)) as [Hin|Hnin].
      * rewrite decide_True by (by right). reflexivity.
      * rewrite decide_False; [reflexivity|].
        intros [->|Hin]%elem_of_cons; [congruence | contradiction].
Qed.

(** [MkdirAll], when it succeeds, leaves a directory at the path and at
    every place on the way to it, and touches nothing else. *)
Lemma MkdirAll_made path fs fs' :
  MkdirAll path fs = (None, fs') ->
  path <> ""
  /\ (forall k, k ∈ ancestors (key_of path) -> fs' !! k = Some Dir)
  /\ (forall k, k ∉ ancestors (key_of path) -> fs' !! k = fs !! k).
Proof.
  unfold MkdirAll. destruct (decide (path = "")); [discriminate|].
  destruct (existsb _ _); [discriminate|]. intros [= <-].
  split; [assumption|]. split; intros k Hk; rewrite lookup_made_dirs;
    destruct (decide _); done.
Qed.

Lemma MkdirAll_failed path fs fs' e :
  MkdirAll path fs = (Some e, fs') -> fs' = fs.
Proof.
  unfold MkdirAll. destruct (decide (path = "")); [by intros [= _ <-]|].
  destruct (existsb _ _); [by intros [= _ <-] | discriminate].
Qed.

Lemma Mkdir_no_parent path fs :
  path <> "" -> key_of path <> [] ->
  fs !! key_of path = None -> lookup_node fs (parent (key_of path)) = None ->
  Mkdir path fs = inl os.ENOENT.
Proof.
  intros Hp Hk Hnone Hpar. unfold Mkdir.
  destruct (decide _); [contradiction|].
  by rewrite (lookup_node_ne _ _ Hk), Hnone, Hpar.
Qed.

Lemma parent_ne k : k <> [] -> parent k <> k.
Proof.
  intros Hk Heq. destruct k as [|name k _] using rev_ind; [congruence|].
  rewrite parent_snoc in Heq. apply (f_equal length) in Heq.
  rewrite length_app in Heq. cbn in Heq. lia.
Qed.

Lemma parent_not_below k : k <> [] -> ~ k `prefix_of` parent k.
Proof.
  intros Hk [ext Heq]. destruct k as [|name k _] using rev_ind; [congruence|].
  rewrite parent_snoc in Heq. apply (f_equal length) in Heq.
  rewrite !length_app in Heq. cbn in Heq. lia.
Qed.

(** *** The loop of [MoveVideos] on regular files

    [fs0] is the disk before the call, [out] the output directory, which
    does not exist on it, and [l] a list of paths of regular files. *)
Section moving_files.
Variables (fs0 : FS) (out : string) (l : list string).
Hypothesis Hwf : wf fs0.
Hypothesis Hout : out <> "".
Hypothesis Hko : key_of out <> [].
Hypothesis Hnew : fs0 !! key_of out = None.
Hypothesis Hparent : lookup_node fs0 (parent (key_of out)) = Some Dir.
Hypothesis Hfiles : forall p, p ∈ l -> exists c, holds fs0 p c.

Local Abbreviation moved := (spec.moved fs0 out).

Lemma source_place p c :
  holds fs0 p c -> key_of p <> [] /\ ~ key_of out `prefix_of` key_of p.
Proof.
  intros [_ Hp]. split.
  - by apply Hwf in Hp as [? _].
  - intros Hpre. rewrite (wf_fresh_below _ _ Hwf Hko Hnew _ Hpre) in Hp.
    discriminate.
Qed.

Lemma moved_start : moved [] (<[key_of out := Dir]> fs0).
Proof.
  split.
  - apply lookup_insert_eq.
  - destruct (parent (key_of out)) eqn:Hp; [reflexivity|].
    cbn [lookup_node] in *.
    rewrite lookup_insert_ne; [exact Hparent|].
    rewrite <- Hp. intros Heq. by apply (parent_ne (key_of out)).
  - intros k Hk _. apply lookup_insert_ne. intros <-. by apply Hk.
  - intros p Hp. by apply elem_of_nil in Hp.
  - intros k Hpre Hne. rewrite lookup_insert_ne by congruence.
    rewrite (wf_fresh_below _ _ Hwf Hko Hnew _ Hpre). by intros [? ?].
  - intros p Hp. by apply elem_of_nil in Hp.
Qed.

(** One more file moved. *)
Lemma moved_step done fs fs' p :
  moved done fs -> (forall q, q ∈ done -> q ∈ l) -> p ∈ l ->
  os.Rename p (spec.dest out p) fs = inr fs' ->
  exists c,
    holds fs0 p c /\ fs !! key_of p = Some (File c)
    /\ proper (filepath.Base p)
    /\ fs' = <[key_of out ++ [filepath.Base p] := File c]> (delete (key_of p) fs)
    /\ moved (done ++ [p]) fs'.
Proof.
  intros Hinv Hdone Hp Hren. destruct (Hfiles p Hp) as [c Hc].
  destruct (source_place p c Hc) as [Hkp Hout_p].
  assert (Hsrc : fs !! key_of p = Some (File c)).
  { destruct (decide (key_of p ∈ map key_of done)) as [Hin|Hnin].
    - apply list_elem_of_fmap in Hin as (p' & Heq & Hp').
      pose proof (moved_sources _ _ _ _ Hinv p' Hp') as Hgone. rewrite <- Heq in Hgone.
      cbn in Hren. rewrite (Rename_missing _ _ _ Hkp Hgone) in Hren. discriminate.
    - rewrite (moved_others _ _ _ _ Hinv _ Hout_p Hnin). apply Hc. }
  exists c. split; [exact Hc|]. split; [exact Hsrc|].
  assert (Hproper : proper (filepath.Base p)).
  { destruct (Base_shape p) as [Hb | [Hb | [Hb | Hb]]]; [| | |exact Hb]; exfalso.
    all: assert (Hbad : filepath.Base p = "/" \/ filepath.Base p = "."
                        \/ filepath.Base p = "..") by tauto.
    all: assert (Hdir : lookup_node fs (key_of (spec.dest out p)) = Some Dir)
      by (unfold spec.dest;
          destruct (key_of_Join_improper out (filepath.Base p) Hout Hbad)
            as [-> | ->];
          [ rewrite lookup_node_ne by exact Hko; apply (moved_dir _ _ _ _ Hinv)
          | apply (moved_parent _ _ _ _ Hinv) ]).
    all: assert (Hne : key_of p <> key_of (spec.dest out p))
      by (intros Heq; rewrite <- Heq, lookup_node_ne, Hsrc in Hdir by exact Hkp;
          discriminate).
    all: destruct (Rename_file_inr _ _ _ _ _ Hren Hsrc Hkp Hne)
           as (Hkd & _ & Hnd & _).
    all: rewrite lookup_node_ne in Hdir by exact Hkd; contradiction. }
  split; [exact Hproper|].
  assert (Hkd : key_of (spec.dest out p) = key_of out ++ [filepath.Base p])
    by (by apply key_of_Join_proper).
  assert (Hne : key_of p <> key_of (spec.dest out p)).
  { rewrite Hkd. intros Heq. apply Hout_p. rewrite Heq. by apply prefix_app_r. }
  destruct (Rename_file_inr _ _ _ _ _ Hren Hsrc Hkp Hne) as (_ & _ & _ & ->).
  rewrite Hkd in *. split; [reflexivity|].
  assert (Hko_ne : key_of out <> key_of out ++ [filepath.Base p]).
  { intros Heq. apply (f_equal length) in Heq. rewrite length_app in Heq.
    cbn in Heq. lia. }
  split.
  - rewrite lookup_insert_ne by congruence.
    rewrite lookup_delete_ne; [apply (moved_dir _ _ _ _ Hinv)|].
    intros Heq. apply Hout_p. by rewrite Heq.
  - destruct (parent (key_of out)) eqn:Hpar; [reflexivity|]. cbn [lookup_node].
    pose proof (moved_parent _ _ _ _ Hinv) as Hpd. rewrite Hpar in Hpd. cbn in Hpd.
    rewrite lookup_insert_ne.
    + rewrite lookup_delete_ne; [exact Hpd|]. intros Heq. rewrite Heq in Hsrc. congruence.
    + intros Heq. apply (parent_not_below (key_of out) Hko).
      rewrite Hpar, <- Heq. by apply prefix_app_r.
  - intros k Hk Hnin. rewrite map_app, elem_of_app in Hnin.
    rewrite lookup_insert_ne by (intros <-; apply Hk; by apply prefix_app_r).
    rewrite lookup_delete_ne by (intros <-; apply Hnin; right; cbn; left).
    apply (moved_others _ _ _ _ Hinv); tauto.
  - intros q Hq. destruct (Hfiles q) as [cq Hcq].
    { apply elem_of_app in Hq as [Hq | ->%list_elem_of_singleton]; auto. }
    destruct (source_place q cq Hcq) as [_ Hout_q].
    rewrite lookup_insert_ne by (intros Heq; apply Hout_q; rewrite <- Heq; by apply prefix_app_r).
    destruct (decide (key_of p = key_of q)) as [<-|Hpq]; [apply lookup_delete_eq|].
    rewrite lookup_delete_ne by exact Hpq.
    apply elem_of_app in Hq as [Hq | ->%list_elem_of_singleton]; [|congruence].
    apply (moved_sources _ _ _ _ Hinv q Hq).
  - intros k Hpre Hk Hsome.
    destruct (decide (k = key_of out ++ [filepath.Base p])) as [->|Hkne].
    + exists p. split; [apply elem_of_app; right; by left | reflexivity].
    + rewrite lookup_insert_ne in Hsome by congruence.
      rewrite lookup_delete_ne in Hsome by (intros <-; by apply Hout_p).
      destruct (moved_below _ _ _ _ Hinv k Hpre Hk Hsome) as (q & Hq & ->).
      exists q. split; [apply elem_of_app; by left | reflexivity].
  - intros q Hq. unfold listed.
    destruct (decide (filepath.Base q = filepath.Base p)) as [->|Hb].
    + rewrite lookup_insert_eq. eauto.
    + rewrite lookup_insert_ne by (intros Heq; apply app_inv_head in Heq; congruence).
      rewrite lookup_delete_ne
        by (intros Heq; apply Hout_p; rewrite Heq; by apply prefix_app_r).
      apply elem_of_app in Hq as [Hq | ->%list_elem_of_singleton]; [|congruence].
      apply (moved_listed _ _ _ _ Hinv q Hq).
Qed.

(** All the renames of a run. *)
Lemma moved_run rest : forall done fs fs2,
  moved done fs -> (forall q, q ∈ done ++ rest -> q ∈ l) ->
  spec.renamed_all out rest fs = Some fs2 ->
  moved (done ++ rest) fs2.
Proof.
  induction rest as [|p rest IH]; intros done fs fs2 Hinv Hsub Hall.
  - injection Hall as <-. by rewrite app_nil_r.
  - cbn [spec.renamed_all] in Hall.
    destruct (os.Rename p (spec.dest out p) fs) as [e|fs'] eqn:Hren; [discriminate|].
    destruct (moved_step done fs fs' p Hinv) as (c & _ & _ & _ & _ & Hinv');
      [intros q Hq; apply Hsub, elem_of_app; by left
      |apply Hsub, elem_of_app; right; by left | exact Hren |].
    replace (done ++ p :: rest) with ((done ++ [p]) ++ rest)
      by (by rewrite <- app_assoc).
    apply (IH _ fs'); [exact Hinv' | | exact Hall].
    intros q Hq. apply Hsub. by rewrite <- app_assoc in Hq.
Qed.

End moving_files.

End memfs_facts.

(** ** [MoveVideos] on the reference disk *)

Module disk_facts.
Import runtime spec memfs memfs_facts path_facts mover_facts.

(** C2.  On a well-formed disk, when every path of a non-empty request
    names a regular file, the output directory can be made (it is new
    and its parent is a directory) and every rename then succeeds,
    [MoveVideos] returns nil and its [move-complete] event reports as
    many files as the request has, with the output directory; afterwards
    the names in the output directory are exactly the base names of the
    request, and none of the paths of the request exists any more. *)
Theorem MoveVideos_moves_every_file
    (fs0 fs1 fs2 : FS) (first : string) (rest : list string) :
  let l := first :: rest in
  let out := App.outputDir first in
  wf fs0 ->
  (forall p, p ∈ l -> exists c, holds fs0 p c) ->
  os.Mkdir out fs0 = inr fs1 ->
  renamed_all out l fs1 = Some fs2 ->
  App.MoveVideos l (boot fs0)
  = (None,
     {| disk := fs2;
        emitted := preamble (length l) out ++ map moving l
                   ++ [ {| eventName := "move-complete";
                           data := MovedSummary (Z.of_nat (length l)) out |} ] |})
  /\ (forall name, listed fs2 out name <-> name ∈ map filepath.Base l)
  /\ (forall p, p ∈ l -> os.Stat p fs2 = inl os.ENOENT).
Proof.
  intros l out Hwf Hfiles Hmk Hall. split.
  - unfold boot, l. rewrite (App_MoveVideos_made _ _ _ _ Hmk). cbv zeta.
    fold out. fold l. rewrite (moveEach_all_renamed _ _ _ _ _ _ Hall).
    cbn [disk emitted]. rewrite Z.add_0_l, <- app_assoc. reflexivity.
  - cbn in Hmk. apply Mkdir_inr in Hmk as (Hout & Hko & Hnew & Hpar & ->).
    pose proof (moved_run fs0 out l Hwf Hout Hko Hnew Hpar Hfiles l [] _ fs2
                  (moved_start fs0 out Hwf Hko Hnew Hpar)
                  (fun q Hq => Hq) Hall) as Hinv.
    cbn [app] in Hinv. split.
    + intros name. split.
      * intros Hl.
        destruct (moved_below _ _ _ _ Hinv (key_of out ++ [name]))
          as (p & Hp & Heq); [by apply prefix_app_r | | exact Hl |].
        { intros Heq. apply (f_equal length) in Heq. rewrite length_app in Heq.
          cbn in Heq. lia. }
        apply app_inv_head in Heq as [= ->]. by apply list_elem_of_fmap_2.
      * intros (p & -> & Hp)%list_elem_of_fmap.
        apply (moved_listed _ _ _ _ Hinv p Hp).
    + intros p Hp. destruct (Hfiles p Hp) as [c Hc].
      destruct (source_place fs0 out Hwf Hko Hnew p c Hc) as [Hkp _].
      cbn. unfold Stat. destruct (decide (p = "")); [reflexivity|].
      by rewrite (lookup_node_ne _ _ Hkp), (moved_sources _ _ _ _ Hinv p Hp).
Qed.

(** C1.  On any file system: when the directory has been made and, the
    files before it having been renamed, the rename of some file [p] of
    the request fails, [MoveVideos] returns at that file; the error is
    the specific not-found error when [os.Stat] then says that [p] does
    not exist and the generic move error (with the cause of the rename)
    otherwise; the disk is left exactly as the renames of the files
    before [p] made it, nothing being rolled back, and nothing is
    attempted on the files after [p]: the last events are the [Moving]
    of [p] and the error.  On a well-formed disk where the files before
    [p] are regular files, this disk is one where each of them is gone
    from its path and listed in the output directory, and where every
    other regular file, the files after [p] among them, is at its path
    with its content. *)
Theorem MoveVideos_stops_at_first_failure :
  (forall (W : Type) (S : os.Sys W) (first : string)
          (rest pre post : list string) (p : string) (d d1 d' : W)
          (e : os.Errno),
      os.Mkdir (App.outputDir first) d = inr d1 ->
      first :: rest = pre ++ p :: post ->
      renamed_all (App.outputDir first) pre d1 = Some d' ->
      os.Rename p (dest (App.outputDir first) p) d' = inl e ->
      let out := App.outputDir first in
      let err := if os.IsNotExist (stat_err p d')
                 then SourceNotFound (filepath.Base p)
                 else MoveFailed (filepath.Base p) (dest out p) e in
      App.MoveVideos (first :: rest) {| disk := d; emitted := [] |}
      = (Some err,
         {| disk := d';
            emitted := preamble (length (first :: rest)) out
                       ++ map moving (pre ++ [p]) ++ [error_event err] |}))
  /\ (forall (fs0 fs1 fs' : FS) (out : string) (pre : list string),
        wf fs0 ->
        (forall x, x ∈ pre -> exists c, holds fs0 x c) ->
        os.Mkdir out fs0 = inr fs1 ->
        renamed_all out pre fs1 = Some fs' ->
        (forall x, x ∈ pre ->
           os.Stat x fs' = inl os.ENOENT /\ listed fs' out (filepath.Base x))
        /\ (forall y c,
              holds fs0 y c -> key_of y ∉ map key_of pre -> holds fs' y c)).
Proof.
  split.
  - intros W S first rest pre post p d d1 d' e Hmk Hsplit Hpre Hfail out err.
    rewrite (App_MoveVideos_made _ _ _ _ Hmk). cbv zeta. rewrite Hsplit.
    rewrite (moveEach_first_failure _ _ _ _ _ _ _ _ _ Hpre Hfail).
    rewrite <- Hsplit. reflexivity.
  - intros fs0 fs1 fs' out pre Hwf Hfiles Hmk Hall.
    cbn in Hmk. apply Mkdir_inr in Hmk as (Hout & Hko & Hnew & Hpar & ->).
    pose proof (moved_run fs0 out pre Hwf Hout Hko Hnew Hpar Hfiles pre [] _ fs'
                  (moved_start fs0 out Hwf Hko Hnew Hpar)
                  (fun q Hq => Hq) Hall) as Hinv.
    cbn [app] in Hinv. split.
    + intros x Hx. destruct (Hfiles x Hx) as [c Hc].
      destruct (source_place fs0 out Hwf Hko Hnew x c Hc) as [Hkx _].
      split; [|apply (moved_listed _ _ _ _ Hinv x Hx)].
      cbn. unfold Stat. destruct (decide (x = "")); [reflexivity|].
      by rewrite (lookup_node_ne _ _ Hkx), (moved_sources _ _ _ _ Hinv x Hx).
    + intros y c Hy Hnot.
      destruct (source_place fs0 out Hwf Hko Hnew y c Hy) as [_ Hout_y].
      destruct Hy as [Hy1 Hy2]. split; [exact Hy1|].
      by rewrite (moved_others _ _ _ _ Hinv _ Hout_y Hnot).
Qed.

(** C9.  In [app.go], when the output directory of a non-empty request
    already exists -- [os.Stat] finds something at its path, a directory
    or not -- [MoveVideos] returns the directory-creation error, with
    [EEXIST] from [os.Mkdir], and the disk is as it was: no file is
    moved, nor is moving announced. *)
Theorem MoveVideos_fails_on_existing_destination
    (fs : FS) (first : string) (rest : list string) (info : os.FileInfo) :
  let out := App.outputDir first in
  os.Stat out fs = inr info ->
  App.MoveVideos (first :: rest) (boot fs)
  = (Some (CreateDirFailed out os.EEXIST),
     {| disk := fs;
        emitted := [ status (ReceivedRequest (Z.of_nat (length (first :: rest))));
                     status (TargetDirectory out);
                     error_event (CreateDirFailed out os.EEXIST) ] |}).
Proof.
  intros out Hstat. cbn in Hstat. unfold Stat in Hstat.
  destruct (decide (out = "")) as [|Hout]; [discriminate|].
  destruct (lookup_node fs (key_of out)) as [n|] eqn:Hn; [|discriminate].
  apply (App_MoveVideos_not_made first rest fs os.EEXIST).
  apply Mkdir_exists; [exact Hout | exists n; exact Hn].
Qed.

(** C10.  The destination of a file is the output directory joined with
    its base name, so two files [p] and [q] of a request with the same
    base name have the same destination.  On a well-formed disk where
    the paths of the request name regular files, the output directory
    can be made and every rename succeeds: when the turn of [q] comes a
    regular file already sits at that destination, the rename of [q]
    puts the content of [q] there in its place, and [MoveVideos] still
    returns nil and reports as many files moved as the request has. *)
Theorem MoveVideos_same_base_name_overwrites
    (fs0 fs1 fs2 : FS) (first : string) (rest pre mid post : list string)
    (p q cq : string) :
  let l := first :: rest in
  let out := App.outputDir first in
  l = pre ++ p :: mid ++ q :: post ->
  filepath.Base p = filepath.Base q ->
  wf fs0 ->
  (forall x, x ∈ l -> exists c, holds fs0 x c) ->
  holds fs0 q cq ->
  os.Mkdir out fs0 = inr fs1 ->
  renamed_all out l fs1 = Some fs2 ->
  dest out p = dest out q
  /\ (exists fsa fsb,
        renamed_all out (pre ++ p :: mid) fs1 = Some fsa
        /\ (exists c, fsa !! key_of (dest out q) = Some (File c))
        /\ os.Rename q (dest out q) fsa = inr fsb
        /\ fsb !! key_of (dest out q) = Some (File cq))
  /\ App.MoveVideos l (boot fs0)
     = (None,
        {| disk := fs2;
           emitted := preamble (length l) out ++ map moving l
                      ++ [ {| eventName := "move-complete";
                              data := MovedSummary (Z.of_nat (length l)) out |} ] |}).
Proof.
  intros l out Hl Hbase Hwf Hfiles Hq Hmk Hall.
  split; [unfold dest; by rewrite Hbase|]. split.
  - pose proof Hall as Hall'. rewrite Hl in Hall'.
    replace (pre ++ p :: mid ++ q :: post)
      with ((pre ++ p :: mid) ++ q :: post) in Hall'
      by (by rewrite <- app_assoc).
    rewrite renamed_all_app in Hall'.
    destruct (renamed_all out (pre ++ p :: mid) fs1) as [fsa|] eqn:Ha;
      [|discriminate].
    cbn [renamed_all] in Hall'.
    destruct (os.Rename q (dest out q) fsa) as [e|fsb] eqn:Hren; [discriminate|].
    exists fsa, fsb. split; [reflexivity|].
    cbn in Hmk. apply Mkdir_inr in Hmk as (Hout & Hko & Hnew & Hpar & ->).
    assert (Hsub : forall x, x ∈ [] ++ pre ++ p :: mid -> x ∈ l).
    { intros x Hx. rewrite Hl. cbn [app] in Hx.
      replace (pre ++ p :: mid ++ q :: post)
        with ((pre ++ p :: mid) ++ q :: post) by (by rewrite <- app_assoc).
      apply elem_of_app. by left. }
    pose proof (moved_run fs0 out l Hwf Hout Hko Hnew Hpar Hfiles _ [] _ fsa
                  (moved_start fs0 out Hwf Hko Hnew Hpar) Hsub Ha) as Hinv.
    cbn [app] in Hinv.
    assert (Hql : q ∈ l).
    { rewrite Hl. apply elem_of_app. right. right. apply elem_of_app. right. by left. }
    destruct (moved_step fs0 out l Hwf Hout Hko Hnew Hpar Hfiles _ fsa fsb q Hinv)
      as (c & Hc & Hsrc & Hproper & Hfsb & _);
      [intros x Hx; by apply (Hsub x) | exact Hql | exact Hren |].
    assert (Hkd : key_of (dest out q) = key_of out ++ [filepath.Base q])
      by (by apply key_of_Join_proper).
    destruct (source_place fs0 out Hwf Hko Hnew q c Hc) as [Hkq Hout_q].
    assert (Hne : key_of q <> key_of (dest out q)).
    { rewrite Hkd. intros Heq. apply Hout_q. rewrite Heq. by apply prefix_app_r. }
    destruct (Rename_file_inr _ _ _ _ _ Hren Hsrc Hkq Hne) as (_ & _ & Hnd & _).
    rewrite Hkd in *. split; [|split; [exact Hren|]].
    + assert (Hthere : listed fsa out (filepath.Base q)).
      { rewrite <- Hbase. apply (moved_listed _ _ _ _ Hinv p).
        apply elem_of_app. right. by left. }
      destruct Hthere as [[c'|] Hc']; [by exists c' | contradiction].
    + rewrite Hfsb, lookup_insert_eq. destruct Hc as [_ Hc], Hq as [_ Hq]. congruence.
  - unfold boot, l. rewrite (App_MoveVideos_made _ _ _ _ Hmk). cbv zeta.
    fold out. fold l. rewrite (moveEach_all_renamed _ _ _ _ _ _ Hall).
    cbn [disk emitted]. rewrite Z.add_0_l, <- app_assoc. reflexivity.
Qed.

(** C3, as the code has it.  Before it moves anything, [MoveVideos]
    makes the output directory: [app.go] with one [os.Mkdir], which makes
    that directory and no other and succeeds only when its parent is
    already a directory (a missing parent makes it fail with [ENOENT]);
    the earlier variant with [os.MkdirAll], which on success leaves a
    directory at every place on the way to the output directory.  In
    both, when the call fails [MoveVideos] returns the creation error
    and renames nothing: the disk is the one the failed call left, which
    for [os.Mkdir] is the disk before the call.  And in both, when the
    call succeeds, the files are moved on the disk it left, after the
    events that tell of the directory: the disk after [MoveVideos] is
    that disk with the paths of a first part of the request renamed, in
    order, into the directory; either this part is the whole request,
    [MoveVideos] returns nil and the last event is [move-complete], or
    the rename of the next path fails, [MoveVideos] returns its error
    and the last events are the [Moving] of that path and the error.
    So, on a well-formed disk and for a request of regular files, when
    [os.Mkdir] succeeds the output directory is there after
    [MoveVideos], whatever came of the moves. *)
Theorem MoveVideos_makes_directory_first :
  (forall (W : Type) (S : os.Sys W) (first : string) (rest : list string)
          (d : W) (e : os.Errno),
      os.Mkdir (App.outputDir first) d = inl e ->
      App.MoveVideos (first :: rest) {| disk := d; emitted := [] |}
      = (Some (CreateDirFailed (App.outputDir first) e),
         {| disk := d;
            emitted :=
              [ status (ReceivedRequest (Z.of_nat (length (first :: rest))));
                status (TargetDirectory (App.outputDir first));
                error_event (CreateDirFailed (App.outputDir first) e) ] |}))
  /\ (forall (W : Type) (S : os.Sys W) (first : string) (rest : list string)
             (d d1 : W) (e : os.Errno),
        os.MkdirAll (Variant.outputDir first) d = (Some e, d1) ->
        Variant.MoveVideos (first :: rest) {| disk := d; emitted := [] |}
        = (Some (CreateDirFailed (Variant.outputDir first) e),
           {| disk := d1;
              emitted :=
                [ status (ReceivedRequest (Z.of_nat (length (first :: rest))));
                  status (TargetDirectory (Variant.outputDir first));
                  error_event (CreateDirFailed (Variant.outputDir first) e) ] |}))
  /\ (forall (fs fs1 : FS) (first : string),
        os.Mkdir (App.outputDir first) fs = inr fs1 ->
        lookup_node fs (parent (key_of (App.outputDir first))) = Some Dir
        /\ fs1 = <[key_of (App.outputDir first) := Dir]> fs)
  /\ (forall (fs : FS) (first : string) (rest : list string),
        let out := App.outputDir first in
        out <> "" -> key_of out <> [] -> fs !! key_of out = None ->
        lookup_node fs (parent (key_of out)) = None ->
        (App.MoveVideos (first :: rest) (boot fs)).1
        = Some (CreateDirFailed out os.ENOENT)
        /\ disk (App.MoveVideos (first :: rest) (boot fs)).2 = fs)
  /\ (forall (fs fs1 : FS) (first : string),
        os.MkdirAll (Variant.outputDir first) fs = (None, fs1) ->
        (forall k, k ∈ ancestors (key_of (Variant.outputDir first)) ->
                   fs1 !! k = Some Dir)
        /\ (forall k, k ∉ ancestors (key_of (Variant.outputDir first)) ->
                      fs1 !! k = fs !! k))
  /\ (forall (W : Type) (S : os.Sys W) (first : string) (rest : list string)
             (d d1 : W),
        let l := first :: rest in
        let out := App.outputDir first in
        let run := App.MoveVideos l {| disk := d; emitted := [] |} in
        os.Mkdir out d = inr d1 ->
        exists pre post closing,
          l = pre ++ post
          /\ renamed_all out pre d1 = Some (disk run.2)
          /\ emitted run.2
             = preamble (length l) out ++ map moving pre ++ closing
          /\ match post with
             | [] =>
                 run.1 = None
                 /\ closing
                    = [ {| eventName := "move-complete";
                           data := MovedSummary (Z.of_nat (length l)) out |} ]
             | p :: _ =>
                 exists e,
                   os.Rename p (dest out p) (disk run.2) = inl e
                   /\ run.1 = Some (move_error out p e (disk run.2))
                   /\ closing
                      = [ moving p;
                          error_event (move_error out p e (disk run.2)) ]
             end)
  /\ (forall (W : Type) (S : os.Sys W) (first : string) (rest : list string)
             (d d1 : W),
        let l := first :: rest in
        let out := Variant.outputDir first in
        let run := Variant.MoveVideos l {| disk := d; emitted := [] |} in
        os.MkdirAll out d = (None, d1) ->
        exists pre post closing,
          l = pre ++ post
          /\ renamed_all out pre d1 = Some (disk run.2)
          /\ emitted run.2
             = preamble (length l) out ++ map moving pre ++ closing
          /\ match post with
             | [] =>
                 run.1 = None
                 /\ closing
                    = [ {| eventName := "move-complete";
                           data := MovedSummary (Z.of_nat (length l)) out |} ]
             | p :: _ =>
                 exists e,
                   os.Rename p (dest out p) (disk run.2) = inl e
                   /\ run.1 = Some (move_error out p e (disk run.2))
                   /\ closing
                      = [ moving p;
                          error_event (move_error out p e (disk run.2)) ]
             end)
  /\ (forall (fs fs1 : FS) (first : string) (rest : list string),
        let l := first :: rest in
        let out := App.outputDir first in
        wf fs ->
        (forall p, p ∈ l -> exists c, holds fs p c) ->
        os.Mkdir out fs = inr fs1 ->
        disk (App.MoveVideos l (boot fs)).2 !! key_of out = Some Dir
        /\ os.Stat out (disk (App.MoveVideos l (boot fs)).2)
           = inr {| os.Name := filepath.Base out; os.IsDir := true |}).
Proof.
  assert (Hloop : forall (W : Type) (S : os.Sys W) (out : string)
                         (l : list string) (d1 : W),
             let run :=
               match mover.moveEach out l 0
                       {| disk := d1; emitted := preamble (length l) out |} with
               | (inl e, w) => (Some e, w)
               | (inr movedCount, w) =>
                   (None, {| disk := disk w;
                             emitted := emitted w ++
                               [ {| eventName := "move-complete";
                                    data := MovedSummary movedCount out |} ] |})
               end in
             exists pre post closing,
               l = pre ++ post
               /\ renamed_all out pre d1 = Some (disk run.2)
               /\ emitted run.2
                  = preamble (length l) out ++ map moving pre ++ closing
               /\ match post with
                  | [] =>
                      run.1 = None
                      /\ closing
                         = [ {| eventName := "move-complete";
                                data := MovedSummary (Z.of_nat (length l)) out |} ]
                  | p :: _ =>
                      exists e,
                        os.Rename p (dest out p) (disk run.2) = inl e
                        /\ run.1 = Some (move_error out p e (disk run.2))
                        /\ closing
                           = [ moving p;
                               error_event (move_error out p e (disk run.2)) ]
                  end).
  { intros W S out l d1. cbv zeta.
    destruct (moveEach_outcome out l 0 d1 (preamble (length l) out))
      as (pre & post & Hl & Hpre & Hpost).
    destruct (mover.moveEach out l 0 _) as [[err|cnt] w'];
      cbn [fst snd disk emitted] in *.
    - destruct post as [|p post]; [by destruct Hpost|].
      destruct Hpost as (e & Hren & [= ->] & Hev).
      exists pre, (p :: post), [moving p; error_event (move_error out p e (disk w'))].
      split; [exact Hl|]. split; [exact Hpre|]. split; [exact Hev|].
      exists e. by repeat split.
    - destruct post as [|p post]; [|by destruct Hpost as (e & _ & ? & _)].
      destruct Hpost as [[= ->] Hev].
      exists pre, [],
        [ {| eventName := "move-complete";
             data := MovedSummary (Z.of_nat (length l)) out |} ].
      split; [exact Hl|]. split; [exact Hpre|].
      split; [by rewrite Hev, <- app_assoc | by split]. }
  split; [|split; [|split; [|split; [|split; [|split; [|split]]]]]].
  - intros W S first rest d e Hmk.
    apply (App_MoveVideos_not_made first rest d e Hmk).
  - intros W S first rest d d1 e Hmk.
    apply (Variant_MoveVideos_not_made first rest d d1 e Hmk).
  - intros fs fs1 first Hmk. cbn in Hmk.
    apply Mkdir_inr in Hmk as (_ & _ & _ & Hpar & ->). by split.
  - intros fs first rest out Hout Hko Hnone Hpar.
    unfold boot.
    rewrite (App_MoveVideos_not_made first rest fs os.ENOENT);
      [by split | by apply Mkdir_no_parent].
  - intros fs fs1 first Hmk. cbn in Hmk.
    apply MkdirAll_made in Hmk as (_ & Hdirs & Hothers). by split.
  - intros W S first rest d d1 l out run Hmk. subst run. unfold l.
    rewrite (App_MoveVideos_made _ _ _ _ Hmk).
    apply (Hloop W S out (first :: rest) d1).
  - intros W S first rest d d1 l out run Hmk. subst run. unfold l.
    rewrite (Variant_MoveVideos_made _ _ _ _ Hmk).
    apply (Hloop W S out (first :: rest) d1).
  - intros fs fs1 first rest l out Hwf Hfiles Hmk.
    assert (Hrun : exists pre post,
               l = pre ++ post
               /\ renamed_all out pre fs1
                  = Some (disk (App.MoveVideos l (boot fs)).2)).
    { unfold boot, l. rewrite (App_MoveVideos_made _ _ _ _ Hmk).
      destruct (Hloop FS memfs_Sys out (first :: rest) fs1)
        as (pre & post & closing & Hl & Hpre & _).
      exists pre, post. split; [exact Hl | exact Hpre]. }
    destruct Hrun as (pre & post & Hl & Hpre).
    cbn in Hmk. apply Mkdir_inr in Hmk as (Hout & Hko & Hnew & Hpar & ->).
    assert (Hreg : forall p, p ∈ pre -> exists c, holds fs p c).
    { intros p Hp. apply Hfiles. rewrite Hl. apply elem_of_app. by left. }
    pose proof (moved_run fs out pre Hwf Hout Hko Hnew Hpar Hreg pre [] _ _
                  (moved_start fs out Hwf Hko Hnew Hpar)
                  (fun q Hq => Hq) Hpre) as Hinv.
    cbn [app] in Hinv. pose proof (moved_dir _ _ _ _ Hinv) as Hdir.
    split; [exact Hdir|]. cbn [os.Stat memfs_Sys]. unfold Stat.
    rewrite decide_False by exact Hout.
    by rewrite (lookup_node_ne _ _ Hko), Hdir.
Qed.

(** C3, as the specification words it, fails for [app.go]: for a video
    in a directory with a dot in its name the parent of the output
    directory is missing; [os.MkdirAll] would make both, but
    [MoveVideos] makes neither and returns the creation error. *)
Lemma MoveVideos_makes_no_parents :
  App.outputDir "/v.1/a.m4v" = "/v_1/a_m4v"
  /\ (os.MkdirAll "/v_1/a_m4v" scenario.dotted_parent).1 = None
  /\ (App.MoveVideos ["/v.1/a.m4v"] (boot scenario.dotted_parent)).1
     = Some (CreateDirFailed "/v_1/a_m4v" os.ENOENT)
  /\ ~ (forall (fs : FS) (first : string) (rest : list string),
          (os.MkdirAll (App.outputDir first) fs).1 = None ->
          exists info,
            os.Stat (App.outputDir first)
              (disk (App.MoveVideos (first :: rest) (boot fs)).2) = inr info
            /\ os.IsDir info = true).
Proof.
  split; [reflexivity|]. split; [vm_compute; reflexivity|].
  split; [vm_compute; reflexivity|]. intros Hall.
  destruct (Hall scenario.dotted_parent "/v.1/a.m4v" []) as (info & Hstat & _);
    [vm_compute; reflexivity|].
  vm_compute in Hstat. discriminate Hstat.
Qed.

End disk_facts.

(** ** The scenarios *)

Module scenario_facts.
Import runtime spec memfs scenario.

Lemma wf_by_computation (fs : FS) :
  bool_decide (wf fs) = true -> wf fs.
Proof. apply bool_decide_eq_true_1. Qed.

Lemma all_present_wf : wf all_present.
Proof. apply wf_by_computation. vm_compute. reflexivity. Qed.

Lemma same_name_wf : wf same_name.
Proof. apply wf_by_computation. vm_compute. reflexivity. Qed.

Lemma third_deleted_wf : wf third_deleted.
Proof. apply wf_by_computation. vm_compute. reflexivity. Qed.

Lemma two_of_five p :
  p ∈ ["/v/a.m4v"; "/v/b.m4v"] -> exists c, holds third_deleted p c.
Proof.
  intros Hp.
  repeat (apply elem_of_cons in Hp as [-> | Hp];
          [eexists; split; [discriminate | vm_compute; reflexivity]|]).
  by apply elem_of_nil in Hp.
Qed.

Lemma five_present p : p ∈ five -> exists c, holds all_present p c.
Proof.
  intros Hp. unfold five in Hp.
  repeat (apply elem_of_cons in Hp as [-> | Hp];
          [eexists; split; [discriminate | vm_compute; reflexivity]|]).
  by apply elem_of_nil in Hp.
Qed.

Lemma two_present p :
  p ∈ ["/v/clip.m4v"; "/w/clip.m4v"] -> exists c, holds same_name p c.
Proof.
  intros Hp.
  repeat (apply elem_of_cons in Hp as [-> | Hp];
          [eexists; split; [discriminate | vm_compute; reflexivity]|]).
  by apply elem_of_nil in Hp.
Qed.

End scenario_facts.

Lemma MoveVideos_stops_at_first_failure_witness :
  exists w,
    App.MoveVideos scenario.five (memfs.boot scenario.third_deleted)
    = (Some (runtime.SourceNotFound "c.m4v"), w)
    /\ (forall x, x ∈ ["/v/a.m4v"; "/v/b.m4v"] ->
          os.Stat x (runtime.disk w) = inl os.ENOENT
          /\ memfs.listed (runtime.disk w) "/v/a_m4v" (filepath.Base x))
    /\ memfs.holds (runtime.disk w) "/v/d.m4v" "D"
    /\ memfs.holds (runtime.disk w) "/v/e.m4v" "E"
    /\ ~ memfs.listed (runtime.disk w) "/v/a_m4v" "d.m4v"
    /\ ~ memfs.listed (runtime.disk w) "/v/a_m4v" "e.m4v".
Proof.
  destruct disk_facts.MoveVideos_stops_at_first_failure as [Hstop Hdisk].
  set (fs1 := scenario.after (memfs.Mkdir "/v/a_m4v" scenario.third_deleted)).
  set (fs' := default ∅ (spec.renamed_all "/v/a_m4v"
                           ["/v/a.m4v"; "/v/b.m4v"] fs1)).
  assert (Hmk : os.Mkdir "/v/a_m4v" scenario.third_deleted = inr fs1)
    by (vm_compute; reflexivity).
  assert (Hpre : spec.renamed_all "/v/a_m4v" ["/v/a.m4v"; "/v/b.m4v"] fs1
                 = Some fs') by (vm_compute; reflexivity).
  specialize (Hstop _ _ "/v/a.m4v"
                ["/v/b.m4v"; "/v/c.m4v"; "/v/d.m4v"; "/v/e.m4v"]
                ["/v/a.m4v"; "/v/b.m4v"] ["/v/d.m4v"; "/v/e.m4v"] "/v/c.m4v"
                scenario.third_deleted fs1 fs' os.ENOENT
                Hmk eq_refl Hpre ltac:(vm_compute; reflexivity)).
  destruct (Hdisk scenario.third_deleted fs1 fs' "/v/a_m4v"
              ["/v/a.m4v"; "/v/b.m4v"]
              scenario_facts.third_deleted_wf scenario_facts.two_of_five
              Hmk Hpre) as [Hmoved Hkept].
  eexists. split; [exact Hstop|]. cbn [runtime.disk].
  split; [exact Hmoved|].
  assert (Hother : forall y,
            y = "/v/d.m4v" \/ y = "/v/e.m4v" ->
            memfs.key_of y ∉ map memfs.key_of ["/v/a.m4v"; "/v/b.m4v"]).
  { intros y Hy Hin.
    repeat (apply elem_of_cons in Hin as [Hin|Hin];
            [destruct Hy as [-> | ->]; vm_compute in Hin; discriminate Hin|]).
    by apply elem_of_nil in Hin. }
  split; [apply Hkept; [split; [discriminate | vm_compute; reflexivity]
                       | apply Hother; by left]|].
  split; [apply Hkept; [split; [discriminate | vm_compute; reflexivity]
                       | apply Hother; by right]|].
  split; vm_compute; by intros [? ?].
Defined.

Lemma MoveVideos_moves_every_file_witness :
  exists w,
    App.MoveVideos scenario.five (memfs.boot scenario.all_present) = (None, w)
    /\ last (runtime.emitted w)
       = Some {| runtime.eventName := "move-complete";
                 runtime.data := runtime.MovedSummary 5 "/v/a_m4v" |}
    /\ (forall name,
          memfs.listed (runtime.disk w) "/v/a_m4v" name <->
          name ∈ ["a.m4v"; "b.m4v"; "c.m4v"; "d.m4v"; "e.m4v"])
    /\ (forall p, p ∈ scenario.five ->
          os.Stat p (runtime.disk w) = inl os.ENOENT).
Proof.
  set (fs1 := scenario.after (memfs.Mkdir "/v/a_m4v" scenario.all_present)).
  set (fs2 := default ∅ (spec.renamed_all "/v/a_m4v" scenario.five fs1)).
  destruct (disk_facts.MoveVideos_moves_every_file
              scenario.all_present fs1 fs2 "/v/a.m4v"
              ["/v/b.m4v"; "/v/c.m4v"; "/v/d.m4v"; "/v/e.m4v"]
              scenario_facts.all_present_wf scenario_facts.five_present)
    as (Hrun & Hlist & Hgone).
  - vm_compute. reflexivity.
  - vm_compute. reflexivity.
  - eexists. split; [exact Hrun|]. split; [vm_compute; reflexivity|].
    split; [exact Hlist | exact Hgone].
Defined.

Lemma MoveVideos_fails_on_existing_destination_witness :
  App.MoveVideos ["/v/a.m4v"; "/v/b.m4v"] (memfs.boot scenario.already_there)
  = (Some (runtime.CreateDirFailed "/v/a_m4v" os.EEXIST),
     {| runtime.disk := scenario.already_there;
        runtime.emitted :=
          [ spec.status (runtime.ReceivedRequest 2);
            spec.status (runtime.TargetDirectory "/v/a_m4v");
            spec.error_event (runtime.CreateDirFailed "/v/a_m4v" os.EEXIST) ] |}).
Proof.
  apply (disk_facts.MoveVideos_fails_on_existing_destination
           scenario.already_there "/v/a.m4v" ["/v/b.m4v"]
           {| os.Name := "a_m4v"; os.IsDir := true |}).
  vm_compute. reflexivity.
Defined.

Lemma MoveVideos_same_base_name_overwrites_witness :
  exists w,
    App.MoveVideos ["/v/clip.m4v"; "/w/clip.m4v"] (memfs.boot scenario.same_name)
    = (None, w)
    /\ last (runtime.emitted w)
       = Some {| runtime.eventName := "move-complete";
                 runtime.data := runtime.MovedSummary 2 "/v/clip_m4v" |}
    /\ default ∅ (spec.renamed_all "/v/clip_m4v" ["/v/clip.m4v"]
                     (scenario.after (memfs.Mkdir "/v/clip_m4v" scenario.same_name)))
         !! ["v"; "clip_m4v"; "clip.m4v"]
       = Some (memfs.File "first")
    /\ runtime.disk w !! ["v"; "clip_m4v"; "clip.m4v"]
       = Some (memfs.File "second")
    /\ size (runtime.disk w) = 4.
Proof.
  set (fs1 := scenario.after (memfs.Mkdir "/v/clip_m4v" scenario.same_name)).
  set (fs2 := default ∅ (spec.renamed_all "/v/clip_m4v"
                           ["/v/clip.m4v"; "/w/clip.m4v"] fs1)).
  destruct (disk_facts.MoveVideos_same_base_name_overwrites
              scenario.same_name fs1 fs2 "/v/clip.m4v" ["/w/clip.m4v"]
              [] [] [] "/v/clip.m4v" "/w/clip.m4v" "second"
              eq_refl eq_refl
              scenario_facts.same_name_wf scenario_facts.two_present)
    as (_ & _ & Hrun).
  - split; [discriminate | vm_compute; reflexivity].
  - vm_compute. reflexivity.
  - vm_compute. reflexivity.
  - eexists. split; [exact Hrun|]. split; [vm_compute; reflexivity|].
    split; [vm_compute; reflexivity|]. split; vm_compute; reflexivity.
Defined.

Lemma MoveVideos_makes_directory_first_witness :
  ((App.MoveVideos ["/v.1/a.m4v"] (memfs.boot scenario.dotted_parent)).1
   = Some (runtime.CreateDirFailed "/v_1/a_m4v" os.ENOENT)
   /\ runtime.disk
        (App.MoveVideos ["/v.1/a.m4v"] (memfs.boot scenario.dotted_parent)).2
      = scenario.dotted_parent)
  /\ (scenario.all_present !! ["v"; "a_m4v"] = None
      /\ (App.MoveVideos scenario.five (memfs.boot scenario.all_present)).1 = None
      /\ runtime.disk
           (App.MoveVideos scenario.five (memfs.boot scenario.all_present)).2
           !! ["v"; "a_m4v"]
         = Some memfs.Dir
      /\ runtime.disk
           (App.MoveVideos scenario.five (memfs.boot scenario.all_present)).2
           !! ["v"; "a_m4v"; "a.m4v"]
         = Some (memfs.File "A")).
Proof.
  destruct disk_facts.MoveVideos_makes_directory_first
    as (_ & _ & _ & Hmissing & _ & _ & _ & Hthere).
  split.
  - apply (Hmissing scenario.dotted_parent "/v.1/a.m4v" []);
      first [discriminate | vm_compute; reflexivity].
  - set (fs1 := scenario.after (memfs.Mkdir "/v/a_m4v" scenario.all_present)).
    assert (Hmk : os.Mkdir (App.outputDir "/v/a.m4v") scenario.all_present
                  = inr fs1) by (vm_compute; reflexivity).
    destruct (Hthere scenario.all_present fs1 "/v/a.m4v"
                ["/v/b.m4v"; "/v/c.m4v"; "/v/d.m4v"; "/v/e.m4v"]
                scenario_facts.all_present_wf scenario_facts.five_present Hmk)
      as [Hdir _].
    split; [vm_compute; reflexivity|].
    split; [vm_compute; reflexivity|].
    split; [exact Hdir | vm_compute; reflexivity].
Defined.

Lemma GenerateThumbnail_outcomes_witness :
  App.GenerateThumbnail scenario.broken_video "/v/a.m4v" []
  = (("", Some (App.ExecutionFailed "/v/a.m4v" (exec.ExitError 1)
                  "moov atom not found")),
     [spec.ffmpeg "/v/a.m4v"]).
Proof.
  destruct (thumbnail_facts.GenerateThumbnail_outcomes
              scenario.broken_video "/v/a.m4v" [])
    as (Hran & _ & Hfailed & _).
  specialize (Hfailed (exec.ExitError 1) eq_refl).
  destruct (App.GenerateThumbnail _ _ _) as [res ran].
  cbn [fst snd] in *. by rewrite Hran, Hfailed.
Defined.

(** * Further properties of the backend *)

(** ** The events of a call of [MoveVideos] *)

Module protocol_facts.
Import runtime spec vocabulary mover_facts.

Section Protocol.
Context {W : Type} `{os.Sys W}.

(** The loop emits progress events and, when it returns an error, the
    error event of that error; when it runs to its end it has counted
    every path. *)
Lemma moveEach_events outputDir paths : forall n (w : World W),
  exists evs,
    Forall is_status evs
    /\ match mover.moveEach outputDir paths n w with
       | (inr n', w') =>
           n' = (n + Z.of_nat (length paths))%Z
           /\ emitted w' = emitted w ++ evs
       | (inl e, w') => emitted w' = emitted w ++ evs ++ [error_event e]
       end.
Proof.
  induction paths as [|p rest IH]; intros n [d ev].
  - exists []. split; [constructor|]. rewrite moveEach_nil. cbn [length].
    split; [lia | by rewrite app_nil_r].
  - rewrite moveEach_cons.
    destruct (os.Rename p (dest outputDir p) d) as [e|d1].
    + exists [moving p]. split; [by repeat constructor|].
      cbn [emitted]. reflexivity.
    + destruct (IH (n + 1)%Z {| disk := d1; emitted := ev ++ [moving p] |})
        as (evs & Hst & Hrun).
      exists (moving p :: evs). split; [by constructor|].
      destruct (mover.moveEach _ _ _ _) as [[e|n'] w']; cbn [emitted] in *.
      * by rewrite Hrun, <- app_assoc.
      * destruct Hrun as [-> ->]. cbn [length].
        split; [lia | by rewrite <- app_assoc].
Qed.

Lemma finish_closes out l (w : World W) (before : list Event) n :
  emitted w = before ++ preamble n out ->
  closes before (emitted (finish out l w).2) (finish out l w).1 (length l) out.
Proof.
  intros Hw. unfold finish.
  destruct (moveEach_events out l 0 w) as (evs & Hst & Hrun).
  destruct (mover.moveEach _ _ _ _) as [[e|n'] w']; cbn [emitted fst snd] in *.
  - exists (preamble n out ++ evs), (error_event e).
    split; [by rewrite Hrun, Hw, <- !app_assoc|].
    split; [|reflexivity]. apply Forall_app. split; [|exact Hst].
    by repeat constructor.
  - destruct Hrun as [-> Hev].
    exists (preamble n out ++ evs), (complete_event (Z.of_nat (length l)) out).
    split; [by rewrite Hev, Hw, <- !app_assoc|].
    split; [|reflexivity]. apply Forall_app. split; [|exact Hst].
    by repeat constructor.
Qed.

(** A failing loop returns one of the two errors of a move, for a file
    of the request. *)
Lemma finish_error out l (w : World W) e :
  (finish out l w).1 = Some e ->
  exists p err,
    p ∈ l
    /\ (e = SourceNotFound (filepath.Base p)
        \/ e = MoveFailed (filepath.Base p) (dest out p) err).
Proof.
  unfold finish. destruct w as [d ev].
  destruct (renamed_all_or_first_failure out l d)
    as [[d2 Hall] | (pre & p & post & d' & err & -> & Hpre & Hp)].
  - rewrite (moveEach_all_renamed _ _ _ _ _ _ Hall). discriminate.
  - rewrite (moveEach_first_failure _ _ _ _ _ _ _ _ _ Hpre Hp).
    cbn [fst]. intros [= <-]. exists p, err.
    split; [apply elem_of_app; right; by left|].
    unfold move_error. destruct (os.IsNotExist _); auto.
Qed.

(** [MoveVideos] from any world, once the directory is made. *)
Lemma App_MoveVideos_made_from first rest (w : World W) d1 :
  os.Mkdir (App.outputDir first) (disk w) = inr d1 ->
  App.MoveVideos (first :: rest) w
  = finish (App.outputDir first) (first :: rest)
      {| disk := d1;
         emitted := emitted w
                    ++ preamble (S (length rest)) (App.outputDir first) |}.
Proof.
  intros Hmk. unfold App.MoveVideos, bind, EventsEmit, os_Mkdir, ret, finish.
  cbn [disk emitted length app]. rewrite Hmk. cbn [disk emitted app].
  unfold preamble, status. rewrite <- !app_assoc. cbn [app].
  destruct (mover.moveEach _ _ _ _) as [[e|n] w']; reflexivity.
Qed.

Lemma App_MoveVideos_not_made_from first rest (w : World W) e :
  os.Mkdir (App.outputDir first) (disk w) = inl e ->
  App.MoveVideos (first :: rest) w
  = let out := App.outputDir first in
    (Some (CreateDirFailed out e),
     {| disk := disk w;
        emitted := emitted w
                   ++ [ status (ReceivedRequest (Z.of_nat (S (length rest))));
                        status (TargetDirectory out);
                        error_event (CreateDirFailed out e) ] |}).
Proof.
  intros Hmk. unfold App.MoveVideos, bind, EventsEmit, os_Mkdir, ret.
  cbn [disk emitted length app]. rewrite Hmk. destruct w as [d ev].
  cbn [disk emitted]. rewrite <- !app_assoc. reflexivity.
Qed.

Lemma Variant_MoveVideos_made_from first rest (w : World W) d1 :
  os.MkdirAll (Variant.outputDir first) (disk w) = (None, d1) ->
  Variant.MoveVideos (first :: rest) w
  = finish (Variant.outputDir first) (first :: rest)
      {| disk := d1;
         emitted := emitted w
                    ++ preamble (S (length rest)) (Variant.outputDir first) |}.
Proof.
  intros Hmk. unfold Variant.MoveVideos, bind, EventsEmit, os_MkdirAll, ret, finish.
  cbn [disk emitted length app]. rewrite Hmk. cbn [disk emitted app].
  unfold preamble, status. rewrite <- !app_assoc. cbn [app].
  destruct (mover.moveEach _ _ _ _) as [[e|n] w']; reflexivity.
Qed.

Lemma Variant_MoveVideos_not_made_from first rest (w : World W) d1 e :
  os.MkdirAll (Variant.outputDir first) (disk w) = (Some e, d1) ->
  Variant.MoveVideos (first :: rest) w
  = let out := Variant.outputDir first in
    (Some (CreateDirFailed out e),
     {| disk := d1;
        emitted := emitted w
                   ++ [ status (ReceivedRequest (Z.of_nat (S (length rest))));
                        status (TargetDirectory out);
                        error_event (CreateDirFailed out e) ] |}).
Proof.
  intros Hmk. unfold Variant.MoveVideos, bind, EventsEmit, os_MkdirAll, ret.
  cbn [disk emitted length app]. rewrite Hmk.
  cbn [disk emitted]. rewrite <- !app_assoc. reflexivity.
Qed.

Lemma not_made_closes (before : list Event) n out e :
  closes before
    (before ++ [ status (ReceivedRequest n); status (TargetDirectory out);
                 error_event (CreateDirFailed out e) ])
    (Some (CreateDirFailed out e)) (Z.to_nat n) out.
Proof.
  exists [status (ReceivedRequest n); status (TargetDirectory out)],
         (error_event (CreateDirFailed out e)).
  split; [reflexivity|]. split; [by repeat constructor | reflexivity].
Qed.

Lemma empty_closes (before : list Event) out :
  closes before
    (before ++ [status (ReceivedRequest 0)] ++ [error_event NoFilesProvided])
    (Some NoFilesProvided) 0 out.
Proof.
  exists [status (ReceivedRequest 0)], (error_event NoFilesProvided).
  split; [reflexivity|]. split; [by repeat constructor | reflexivity].
Qed.

(** The events of a call of [MoveVideos]. *)
Lemma App_MoveVideos_closes (l : list string) (w : World W) :
  closes (emitted w) (emitted (App.MoveVideos l w).2) (App.MoveVideos l w).1
    (length l) (App.outputDir (hd "" l)).
Proof.
  destruct l as [|first rest].
  - unfold App.MoveVideos, bind, EventsEmit, ret. cbn [fst snd emitted length].
    rewrite <- app_assoc. apply empty_closes.
  - cbn [hd]. destruct (os.Mkdir (App.outputDir first) (disk w)) as [e|d1] eqn:Hmk.
    + rewrite (App_MoveVideos_not_made_from _ _ _ _ Hmk). cbv zeta.
      cbn [fst snd emitted].
      destruct (not_made_closes (emitted w) (Z.of_nat (S (length rest)))
                  (App.outputDir first) e) as (evs & last & H1 & H2 & H3).
      by exists evs, last.
    + rewrite (App_MoveVideos_made_from _ _ _ _ Hmk).
      by apply (finish_closes _ _ _ _ (S (length rest))).
Qed.

Lemma Variant_MoveVideos_closes (l : list string) (w : World W) :
  closes (emitted w) (emitted (Variant.MoveVideos l w).2)
    (Variant.MoveVideos l w).1 (length l) (Variant.outputDir (hd "" l)).
Proof.
  destruct l as [|first rest].
  - unfold Variant.MoveVideos, bind, EventsEmit, ret. cbn [fst snd emitted length].
    rewrite <- app_assoc. apply empty_closes.
  - cbn [hd].
    destruct (os.MkdirAll (Variant.outputDir first) (disk w)) as [[e|] d1] eqn:Hmk.
    + rewrite (Variant_MoveVideos_not_made_from _ _ _ _ _ Hmk). cbv zeta.
      cbn [fst snd emitted].
      destruct (not_made_closes (emitted w) (Z.of_nat (S (length rest)))
                  (Variant.outputDir first) e) as (evs & last & H1 & H2 & H3).
      by exists evs, last.
    + rewrite (Variant_MoveVideos_made_from _ _ _ _ Hmk).
      by apply (finish_closes _ _ _ _ (S (length rest))).
Qed.

(** The errors of a request that is not empty. *)
Lemma App_MoveVideos_error first rest (w : World W) e :
  (App.MoveVideos (first :: rest) w).1 = Some e ->
  (exists err, e = CreateDirFailed (App.outputDir first) err)
  \/ (exists p err,
        p ∈ first :: rest
        /\ (e = SourceNotFound (filepath.Base p)
            \/ e = MoveFailed (filepath.Base p)
                     (dest (App.outputDir first) p) err)).
Proof.
  destruct (os.Mkdir (App.outputDir first) (disk w)) as [err|d1] eqn:Hmk.
  - rewrite (App_MoveVideos_not_made_from _ _ _ _ Hmk). cbv zeta.
    intros [= <-]. left. by exists err.
  - rewrite (App_MoveVideos_made_from _ _ _ _ Hmk). intros He. right.
    by apply finish_error in He.
Qed.

(** X1.  Whatever the request and the file system, a call of
    [MoveVideos] adds to the events emitted before it a run of
    [move-status] events and then exactly one closing event, which is
    the last: [move-complete], with the length of the request and the
    output directory, when it returns nil, and the [move-error] of the
    error it returns otherwise. *)
Theorem MoveVideos_ends_with_one_closing_event
    (absoluteFilePaths : list string) (w : World W) :
  exists evs last,
    emitted (App.MoveVideos absoluteFilePaths w).2 = emitted w ++ evs ++ [last]
    /\ Forall is_status evs
    /\ match (App.MoveVideos absoluteFilePaths w).1 with
       | None =>
           last = complete_event (Z.of_nat (length absoluteFilePaths))
                    (App.outputDir (hd "" absoluteFilePaths))
       | Some e => last = error_event e
       end.
Proof.
  destruct absoluteFilePaths as [|first rest].
  - unfold App.MoveVideos, bind, EventsEmit, ret. cbn [fst snd emitted length].
    rewrite <- app_assoc. apply empty_closes, "".
  - cbn [hd]. destruct (os.Mkdir (App.outputDir first) (disk w)) as [e|d1] eqn:Hmk.
    + rewrite (App_MoveVideos_not_made_from _ _ _ _ Hmk). cbv zeta.
      cbn [fst snd emitted].
      exists [status (ReceivedRequest (Z.of_nat (S (length rest))));
              status (TargetDirectory (App.outputDir first))],
             (error_event (CreateDirFailed (App.outputDir first) e)).
      split; [reflexivity|]. split; [by repeat constructor | reflexivity].
    + rewrite (App_MoveVideos_made_from _ _ _ _ Hmk).
      by apply (finish_closes _ _ _ _ (S (length rest))).
Qed.

(** X2.  [MoveVideos] returns nil exactly when the output directory
    could be made and every file of the request, in order, could then be
    renamed into it; the disk is then the one these renames leave. *)
Theorem MoveVideos_nil_iff_all_renamed
    (first : string) (rest : list string) (w : World W) :
  let l := first :: rest in
  let out := App.outputDir first in
  ((App.MoveVideos l w).1 = None <->
   exists d1 d2,
     os.Mkdir out (disk w) = inr d1 /\ renamed_all out l d1 = Some d2)
  /\ (forall d1 d2,
        os.Mkdir out (disk w) = inr d1 -> renamed_all out l d1 = Some d2 ->
        disk (App.MoveVideos l w).2 = d2).
Proof.
  intros l out. split; [split|].
  - intros Hnil.
    destruct (os.Mkdir out (disk w)) as [e|d1] eqn:Hmk.
    + unfold l in Hnil.
      rewrite (App_MoveVideos_not_made_from _ _ _ _ Hmk) in Hnil. discriminate.
    + destruct (renamed_all_or_first_failure out l d1)
        as [[d2 Hall] | (pre & p & post & d' & e & Hl & Hpre & Hp)].
      * by exists d1, d2.
      * unfold l in Hnil, Hl.
        rewrite (App_MoveVideos_made_from _ _ _ _ Hmk) in Hnil.
        unfold finish in Hnil.
        rewrite Hl, (moveEach_first_failure _ _ _ _ _ _ _ _ _ Hpre Hp) in Hnil.
        discriminate.
  - intros (d1 & d2 & Hmk & Hall). unfold l.
    rewrite (App_MoveVideos_made_from _ _ _ _ Hmk). unfold finish.
    fold out. fold l. by rewrite (moveEach_all_renamed _ _ _ _ _ _ Hall).
  - intros d1 d2 Hmk Hall. unfold l.
    rewrite (App_MoveVideos_made_from _ _ _ _ Hmk). unfold finish.
    fold out. fold l. by rewrite (moveEach_all_renamed _ _ _ _ _ _ Hall).
Qed.

(** X3.  The earlier variant of [MoveVideos] keeps the same protocol:
    whatever the request and the file system, it adds a run of
    [move-status] events and then one closing event, the last --
    [move-complete] with the length of the request when it returns nil,
    the [move-error] of the returned error otherwise. *)
Theorem Variant_MoveVideos_ends_with_one_closing_event
    (absoluteFilePaths : list string) (w : World W) :
  exists evs last,
    emitted (Variant.MoveVideos absoluteFilePaths w).2
      = emitted w ++ evs ++ [last]
    /\ Forall is_status evs
    /\ match (Variant.MoveVideos absoluteFilePaths w).1 with
       | None =>
           last = complete_event (Z.of_nat (length absoluteFilePaths))
                    (Variant.outputDir (hd "" absoluteFilePaths))
       | Some e => last = error_event e
       end.
Proof.
  destruct absoluteFilePaths as [|first rest].
  - unfold Variant.MoveVideos, bind, EventsEmit, ret. cbn [fst snd emitted length].
    rewrite <- app_assoc. apply empty_closes, "".
  - cbn [hd].
    destruct (os.MkdirAll (Variant.outputDir first) (disk w)) as [[e|] d1] eqn:Hmk.
    + rewrite (Variant_MoveVideos_not_made_from _ _ _ _ _ Hmk). cbv zeta.
      cbn [fst snd emitted].
      exists [status (ReceivedRequest (Z.of_nat (S (length rest))));
              status (TargetDirectory (Variant.outputDir first))],
             (error_event (CreateDirFailed (Variant.outputDir first) e)).
      split; [reflexivity|]. split; [by repeat constructor | reflexivity].
    + rewrite (Variant_MoveVideos_made_from _ _ _ _ Hmk).
      by apply (finish_closes _ _ _ _ (S (length rest))).
Qed.

End Protocol.
End protocol_facts.

(** ** What [MoveVideos] leaves alone *)

Module safety_facts.
Import runtime spec vocabulary memfs memfs_facts path_facts mover_facts
  protocol_facts.

Lemma key_of_empty : key_of "" = [].
Proof. reflexivity. Qed.

Lemma plain_holds fs0 out p c :
  plain fs0 out p -> fs0 !! key_of p = Some (File c) -> holds fs0 p c.
Proof.
  intros (Hk & _ & _) Hc. split; [|exact Hc]. intros ->. by apply Hk.
Qed.

Section plain_requests.
Variables (fs0 : FS) (out : string).
Hypothesis Hwf : wf fs0.
Hypothesis Hout : out <> "".
Hypothesis Hko : key_of out <> [].
Hypothesis Hnew : fs0 !! key_of out = None.
Hypothesis Hparent : lookup_node fs0 (parent (key_of out)) = Some Dir.

(** The paths of a plain request that have been renamed named regular
    files: a path that names nothing cannot be renamed. *)
Lemma renamed_prefix_regular pre :
  (forall p, p ∈ pre -> plain fs0 out p) ->
  forall fs',
    renamed_all out pre (<[key_of out := Dir]> fs0) = Some fs' ->
    forall p, p ∈ pre -> exists c, holds fs0 p c.
Proof.
  induction pre as [|p pre IH] using rev_ind; intros Hplain fs' Hall q Hq.
  - by apply elem_of_nil in Hq.
  - rewrite renamed_all_app in Hall.
    destruct (renamed_all out pre _) as [fsm|] eqn:Hpre; [|discriminate].
    cbn [renamed_all] in Hall.
    destruct (os.Rename p (dest out p) fsm) as [e|fs''] eqn:Hren; [discriminate|].
    assert (Hreg : forall x, x ∈ pre -> exists c, holds fs0 x c).
    { apply (IH (fun x Hx => Hplain x ltac:(apply elem_of_app; by left)) fsm eq_refl). }
    apply elem_of_app in Hq as [Hq | ->%list_elem_of_singleton]; [by apply Hreg|].
    destruct (Hplain p ltac:(apply elem_of_app; right; by left))
      as (Hkp & Hout_p & [Hnone | [c Hc]]).
    + exfalso.
      pose proof (moved_run fs0 out pre Hwf Hout Hko Hnew Hparent Hreg pre [] _ fsm
                    (moved_start fs0 out Hwf Hko Hnew Hparent)
                    (fun q Hq => Hq) Hpre) as Hinv.
      cbn [app] in Hinv.
      assert (Hgone : fsm !! key_of p = None).
      { destruct (decide (key_of p ∈ map key_of pre)) as [Hin|Hnin].
        - apply list_elem_of_fmap in Hin as (p' & Heq & Hp').
          rewrite Heq. apply (moved_sources _ _ _ _ Hinv p' Hp').
        - by rewrite (moved_others _ _ _ _ Hinv _ Hout_p Hnin). }
      cbn in Hren. rewrite (Rename_missing _ _ _ Hkp Hgone) in Hren. discriminate.
    + exists c. split; [|exact Hc]. intros ->. by apply Hkp.
Qed.

(** The disk after the renamed part of a plain request. *)
Lemma moved_prefix pre fs' :
  (forall p, p ∈ pre -> plain fs0 out p) ->
  renamed_all out pre (<[key_of out := Dir]> fs0) = Some fs' ->
  moved fs0 out pre fs'.
Proof.
  intros Hplain Hall.
  pose proof (renamed_prefix_regular pre Hplain fs' Hall) as Hreg.
  apply (moved_run fs0 out pre Hwf Hout Hko Hnew Hparent Hreg pre [] _ fs'
           (moved_start fs0 out Hwf Hko Hnew Hparent) (fun q Hq => Hq) Hall).
Qed.

(** What has been renamed is in the directory with its content, as long
    as no two base names are the same. *)
Lemma moved_contents pre : forall fs',
  (forall p, p ∈ pre -> exists c, holds fs0 p c) ->
  renamed_all out pre (<[key_of out := Dir]> fs0) = Some fs' ->
  NoDup (map filepath.Base pre) ->
  forall p c, p ∈ pre -> holds fs0 p c ->
    proper (filepath.Base p)
    /\ fs' !! (key_of out ++ [filepath.Base p]) = Some (File c).
Proof.
  induction pre as [|q pre IH] using rev_ind; intros fs' Hreg Hall Hnd p c Hp Hc.
  - by apply elem_of_nil in Hp.
  - rewrite renamed_all_app in Hall.
    destruct (renamed_all out pre _) as [fsm|] eqn:Hpre; [|discriminate].
    cbn [renamed_all] in Hall.
    destruct (os.Rename q (dest out q) fsm) as [e|fs''] eqn:Hren; [discriminate|].
    injection Hall as ->.
    pose proof (moved_run fs0 out (pre ++ [q]) Hwf Hout Hko Hnew Hparent Hreg
                  pre [] _ fsm (moved_start fs0 out Hwf Hko Hnew Hparent)
                  (fun x Hx => proj2 (elem_of_app pre [q] x) (or_introl Hx))
                  Hpre) as Hinv.
    cbn [app] in Hinv.
    destruct (moved_step fs0 out (pre ++ [q]) Hwf Hout Hko Hnew Hparent Hreg
                pre fsm fs' q Hinv)
      as (cq & Hcq & _ & Hprop & -> & _);
      [intros x Hx; apply elem_of_app; by left
      |apply elem_of_app; right; by left | exact Hren |].
    rewrite map_app in Hnd. apply NoDup_app in Hnd as (Hnd & Hfresh & _).
    apply elem_of_app in Hp as [Hp | ->%list_elem_of_singleton].
    + destruct (IH fsm (fun x Hx => Hreg x ltac:(apply elem_of_app; by left))
                  eq_refl Hnd p c Hp Hc) as [Hpp Hlook].
      split; [exact Hpp|].
      rewrite lookup_insert_ne.
      * rewrite lookup_delete_ne; [exact Hlook|].
        destruct (source_place fs0 out Hwf Hko Hnew q cq Hcq) as [_ Hout_q].
        intros Heq. apply Hout_q. rewrite Heq. by apply prefix_app_r.
      * intros Heq. apply app_inv_head in Heq as [= Hbase].
        apply (Hfresh (filepath.Base p)); [by apply list_elem_of_fmap_2|].
        rewrite <- Hbase. cbn. by left.
    + split; [exact Hprop|]. rewrite lookup_insert_eq.
      destruct Hc as [_ Hc], Hcq as [_ Hcq]. congruence.
Qed.

End plain_requests.

(** Whatever its outcome, a call on a plain request that could make its
    directory leaves the disk of the part of the request it renamed. *)
Lemma MoveVideos_disk_moved (fs0 fs1 : FS) first rest :
  let l := first :: rest in
  let out := App.outputDir first in
  wf fs0 -> (forall p, p ∈ l -> plain fs0 out p) ->
  os.Mkdir out fs0 = inr fs1 ->
  exists pre post,
    l = pre ++ post
    /\ moved fs0 out pre (disk (App.MoveVideos l (boot fs0)).2).
Proof.
  intros l out Hwf Hplain Hmk.
  pose proof Hmk as Hmk'.
  cbn in Hmk'. apply Mkdir_inr in Hmk' as (Hout & Hko & Hnew & Hpar & ->).
  unfold l, boot. rewrite (App_MoveVideos_made _ _ _ _ Hmk). cbv zeta.
  fold out. fold l.
  destruct (renamed_all_or_first_failure out l (<[key_of out := Dir]> fs0))
    as [[d2 Hall] | (pre & p & post & d' & e & Hl & Hpre & Hp)].
  - exists l, []. split; [by rewrite app_nil_r|].
    rewrite (moveEach_all_renamed _ _ _ _ _ _ Hall). cbn [disk snd].
    by apply moved_prefix.
  - exists pre, (p :: post). split; [exact Hl|].
    rewrite Hl, (moveEach_first_failure _ _ _ _ _ _ _ _ _ Hpre Hp).
    cbn [disk snd]. apply moved_prefix; try assumption.
    intros x Hx. apply Hplain. rewrite Hl. apply elem_of_app. by left.
Qed.

(** X4.  On a well-formed disk, for a request each of whose paths names
    a regular file or nothing, away from the root and from the output
    directory: whatever the outcome of [MoveVideos] -- the directory
    cannot be made, a rename fails, or all goes well -- nothing changes
    at a place that is neither in the output directory nor a path of the
    request. *)
Theorem MoveVideos_touches_only_the_request
    (fs0 : FS) (first : string) (rest : list string) (k : key) :
  let l := first :: rest in
  let out := App.outputDir first in
  wf fs0 -> (forall p, p ∈ l -> plain fs0 out p) ->
  ~ key_of out `prefix_of` k -> k ∉ map key_of l ->
  disk (App.MoveVideos l (boot fs0)).2 !! k = fs0 !! k.
Proof.
  intros l out Hwf Hplain Hk Hnot.
  destruct (os.Mkdir out fs0) as [e|fs1] eqn:Hmk.
  - unfold l, boot. by rewrite (App_MoveVideos_not_made _ _ _ _ Hmk).
  - destruct (MoveVideos_disk_moved fs0 fs1 first rest Hwf Hplain Hmk)
      as (pre & post & Hl & Hinv).
    apply (moved_others _ _ _ _ Hinv _ Hk).
    intros Hin. apply Hnot. unfold l in *. rewrite Hl, map_app. apply elem_of_app. by left.
Qed.

(** X5.  After a call on such a request that made its directory -- and
    whether it then moved every file or stopped at one -- a further call
    whose first path gives the same output directory fails with the
    directory-creation error [EEXIST] and leaves the disk as it found
    it: a batch that stopped half-way is not resumed by asking again. *)
Theorem MoveVideos_again_fails
    (fs0 fs1 : FS) (first first' : string) (rest rest' : list string) :
  let l := first :: rest in
  let out := App.outputDir first in
  let fs := disk (App.MoveVideos l (boot fs0)).2 in
  wf fs0 -> (forall p, p ∈ l -> plain fs0 out p) ->
  os.Mkdir out fs0 = inr fs1 ->
  App.outputDir first' = out ->
  (App.MoveVideos (first' :: rest') (boot fs)).1
    = Some (CreateDirFailed out os.EEXIST)
  /\ disk (App.MoveVideos (first' :: rest') (boot fs)).2 = fs.
Proof.
  intros l out fs Hwf Hplain Hmk Hsame.
  destruct (MoveVideos_disk_moved fs0 fs1 first rest Hwf Hplain Hmk)
    as (pre & post & Hl & Hinv).
  cbn in Hmk. apply Mkdir_inr in Hmk as (Hout & Hko & _).
  assert (Hex : os.Mkdir (App.outputDir first') fs = inl os.EEXIST).
  { rewrite Hsame. cbn. apply Mkdir_exists; [exact Hout|].
    rewrite lookup_node_ne by exact Hko. exists Dir.
    apply (moved_dir _ _ _ _ Hinv). }
  unfold boot. rewrite (App_MoveVideos_not_made _ _ _ _ Hex). cbv zeta.
  rewrite Hsame. by split.
Qed.

(** X23.  On a well-formed disk, for a request each of whose paths names
    a regular file or nothing, away from the root and from the output
    directory: when no two paths of the request have the same base name
    and [MoveVideos] returns nil, every path of the request named a
    regular file, and the content of each is afterwards found in the
    output directory under the base name of its path: nothing is lost
    or mixed up. *)
Theorem MoveVideos_keeps_contents
    (fs0 : FS) (first : string) (rest : list string) :
  let l := first :: rest in
  let out := App.outputDir first in
  wf fs0 -> (forall p, p ∈ l -> plain fs0 out p) ->
  NoDup (map filepath.Base l) ->
  (App.MoveVideos l (boot fs0)).1 = None ->
  forall p, p ∈ l ->
    exists c,
      holds fs0 p c
      /\ holds (disk (App.MoveVideos l (boot fs0)).2) (dest out p) c.
Proof.
  intros l out Hwf Hplain Hnd Hnil p Hp.
  destruct (os.Mkdir out fs0) as [e|fs1] eqn:Hmk.
  { unfold l, boot in Hnil. rewrite (App_MoveVideos_not_made _ _ _ _ Hmk) in Hnil.
    discriminate. }
  pose proof Hmk as Hmk'.
  cbn in Hmk'. apply Mkdir_inr in Hmk' as (Hout & Hko & Hnew & Hpar & ->).
  revert Hnil. unfold l, boot. rewrite (App_MoveVideos_made _ _ _ _ Hmk). cbv zeta.
  fold out. fold l.
  destruct (renamed_all_or_first_failure out l (<[key_of out := Dir]> fs0))
    as [[fs2 Hall] | (pre & q & post & d' & e & Hl & Hpre & Hq)].
  - rewrite (moveEach_all_renamed _ _ _ _ _ _ Hall). cbn [fst snd disk]. intros _.
    pose proof (renamed_prefix_regular fs0 out Hwf Hout Hko Hnew Hpar l Hplain
                  fs2 Hall) as Hreg.
    destruct (Hreg p Hp) as [c Hc]. exists c. split; [exact Hc|].
    destruct (moved_contents fs0 out Hwf Hout Hko Hnew Hpar l fs2 Hreg Hall Hnd
                p c Hp Hc) as [Hprop Hlook].
    assert (Hkey : key_of (dest out p) = key_of out ++ [filepath.Base p])
      by (by apply key_of_Join_proper).
    split; [|by rewrite Hkey].
    intros Hnil. rewrite Hnil in Hkey. cbn in Hkey. by destruct (key_of out).
  - rewrite Hl, (moveEach_first_failure _ _ _ _ _ _ _ _ _ Hpre Hq). discriminate.
Qed.

End safety_facts.

(** ** A first path without a dot *)

Module dotless_facts.
Import runtime spec vocabulary memfs memfs_facts mover_facts.

Lemma replace_byte_absent old new_ s :
  strings.contains_byte old s = false -> strings.replace_byte old new_ s = s.
Proof.
  induction s as [|c s IH]; [reflexivity|]. cbn.
  intros [Hc Hs]%orb_false_iff. by rewrite Hc, (IH Hs).
Qed.

Lemma outputDir_without_dot first :
  strings.contains_byte "." first = false -> App.outputDir first = first.
Proof.
  intros Hdot. unfold App.outputDir.
  rewrite strings_facts.Join_Split_replace. by apply replace_byte_absent.
Qed.

(** X6.  When the first path of a request has no dot in it -- a video
    without an extension, in directories without dots -- the output
    directory of [app.go] is that very path; so, if the file is there,
    [os.Mkdir] finds it in the way and [MoveVideos] returns the
    directory-creation error [EEXIST], whatever the rest of the request:
    nothing is moved and the disk is as it was. *)
Theorem MoveVideos_first_path_without_dot
    (fs : FS) (first : string) (rest : list string) (info : os.FileInfo) :
  strings.contains_byte "." first = false ->
  os.Stat first fs = inr info ->
  App.MoveVideos (first :: rest) (boot fs)
  = (Some (CreateDirFailed first os.EEXIST),
     {| disk := fs;
        emitted := [ status (ReceivedRequest (Z.of_nat (length (first :: rest))));
                     status (TargetDirectory first);
                     error_event (CreateDirFailed first os.EEXIST) ] |}).
Proof.
  intros Hdot Hstat. cbn in Hstat. unfold Stat in Hstat.
  destruct (decide (first = "")) as [|Hne]; [discriminate|].
  destruct (lookup_node fs (key_of first)) as [n|] eqn:Hn; [|discriminate].
  pose proof (App_MoveVideos_not_made first rest fs os.EEXIST) as Hrun.
  rewrite (outputDir_without_dot first Hdot) in Hrun. apply Hrun.
  apply Mkdir_exists; [exact Hne | by exists n].
Qed.

End dotless_facts.

(** ** The earlier variant of [MoveVideos] *)

Module variant_facts.
Import runtime spec vocabulary memfs memfs_facts mover_facts protocol_facts.

Lemma ancestors_snoc (k : key) (x : string) :
  ancestors (k ++ [x]) = ancestors k ++ [k ++ [x]].
Proof.
  unfold ancestors. rewrite length_app. cbn [length].
  rewrite seq_app, map_app. cbn [seq map]. f_equal.
  - apply map_ext_in. intros n Hn%in_seq. apply take_app_le. lia.
  - f_equal. apply take_ge. rewrite length_app. cbn. lia.
Qed.

(** On a well-formed disk the places on the way to a directory are
    directories. *)
Lemma dir_ancestors (fs : FS) (k : key) :
  wf fs -> lookup_node fs k = Some Dir ->
  forall a, a ∈ ancestors k -> fs !! a = Some Dir.
Proof.
  intros Hwf. induction k as [|x k IH] using rev_ind; intros Hk a Ha.
  - by apply elem_of_nil in Ha.
  - rewrite ancestors_snoc in Ha.
    rewrite lookup_node_ne in Hk by (by destruct k).
    apply elem_of_app in Ha as [Ha | ->%list_elem_of_singleton]; [|exact Hk].
    apply IH; [|exact Ha].
    apply Hwf in Hk as [_ Hpar]. by rewrite parent_snoc in Hpar.
Qed.

Lemma MkdirAll_existing_directory (fs : FS) (path : string) :
  wf fs -> path <> "" -> lookup_node fs (key_of path) = Some Dir ->
  MkdirAll path fs = (None, fs).
Proof.
  intros Hwf Hp Hk. unfold MkdirAll. destruct (decide _); [contradiction|].
  pose proof (dir_ancestors fs _ Hwf Hk) as Hall.
  destruct (existsb _ _) eqn:Hex.
  - apply existsb_exists in Hex as (a & Ha & Hfile).
    apply list_elem_of_In, Hall in Ha. unfold is_file_at in Hfile.
    rewrite Ha in Hfile. discriminate.
  - f_equal. apply map_eq. intros k. rewrite lookup_made_dirs.
    destruct (decide _) as [Hin|]; [|reflexivity]. symmetry. by apply Hall.
Qed.

Lemma MkdirAll_existing_file (fs : FS) (path c : string) :
  path <> "" -> lookup_node fs (key_of path) = Some (File c) ->
  MkdirAll path fs = (Some os.ENOTDIR, fs).
Proof.
  intros Hp Hk. unfold MkdirAll. destruct (decide _); [contradiction|].
  apply lookup_node_Some_ne in Hk as [Hk Hne]; [|discriminate].
  destruct (existsb _ _) eqn:Hex; [reflexivity|].
  exfalso. apply not_true_iff_false in Hex. apply Hex.
  apply existsb_exists. exists (key_of path). split.
  - destruct (key_of path) as [|x k' _] using rev_ind; [congruence|].
    rewrite ancestors_snoc. apply in_or_app. right. by left.
  - unfold is_file_at. by rewrite Hk.
Qed.

(** X7.  Unlike [app.go], the earlier variant accepts an output directory
    that is already there: on a well-formed disk, when [os.Stat] finds a
    directory at its path, [os.MkdirAll] changes nothing and the files
    are moved into the directory as it is; when it finds a regular file,
    the call returns the directory-creation error [ENOTDIR] and the disk
    is as it was. *)
Theorem Variant_MoveVideos_into_existing_directory
    (fs : FS) (first : string) (rest : list string) (info : os.FileInfo) :
  let l := first :: rest in
  let out := Variant.outputDir first in
  wf fs ->
  os.Stat out fs = inr info ->
  if os.IsDir info then
    Variant.MoveVideos l (boot fs)
    = match mover.moveEach out l 0
              {| disk := fs; emitted := preamble (length l) out |} with
      | (inl e, w) => (Some e, w)
      | (inr movedCount, w) =>
          (None, {| disk := disk w;
                    emitted := emitted w ++ [complete_event movedCount out] |})
      end
  else
    Variant.MoveVideos l (boot fs)
    = (Some (CreateDirFailed out os.ENOTDIR),
       {| disk := fs;
          emitted := [ status (ReceivedRequest (Z.of_nat (length l)));
                       status (TargetDirectory out);
                       error_event (CreateDirFailed out os.ENOTDIR) ] |}).
Proof.
  intros l out Hwf Hstat. cbn [os.Stat memfs_Sys] in Hstat. unfold Stat in Hstat.
  destruct (decide (out = "")) as [|Hne]; [discriminate|].
  destruct (lookup_node fs (key_of out)) as [[c|]|] eqn:Hn; [| |discriminate];
    injection Hstat as <-; cbn [os.IsDir is_dir].
  - apply (Variant_MoveVideos_not_made first rest fs fs os.ENOTDIR).
    by apply (MkdirAll_existing_file fs out c).
  - apply (Variant_MoveVideos_made first rest fs fs).
    by apply MkdirAll_existing_directory.
Qed.

End variant_facts.

(** ** The other ways out of [SelectDirectory] *)

Module select_facts.
Import filewalk spec vocabulary strings strings_facts filepath path_facts
  scan_facts.

(** X8.  [SelectDirectory] never returns files together with an error;
    and when the dialog fails or is cancelled (it then yields the empty
    path) the disk is not read at all: the result is the error of the
    dialog, or nothing and no error, whatever is on the disk. *)
Theorem SelectDirectory_files_or_error
    (dialog : string * option string) (lstat : string -> os.Errno + tree) :
  let r := App.SelectDirectory dialog lstat in
  (r.2 <> None -> r.1 = [])
  /\ (forall reason,
        dialog.2 = Some reason -> r = ([], Some (App.DialogError reason)))
  /\ (dialog = ("", None) -> r = ([], None))
  /\ (dialog.2 <> None \/ dialog.1 = "" ->
      forall lstat', App.SelectDirectory dialog lstat' = r).
Proof.
  destruct dialog as [selectedDir [reason|]]; cbn [fst snd App.SelectDirectory].
  - repeat split; [by intros ? [= <-]|discriminate].
  - destruct (decide (selectedDir = "")) as [->|Hne].
    + repeat split; first [discriminate | congruence].
    + destruct (Walk _ _ _ _) as [[e|] found] eqn:Hw; cbn [fst snd];
        (split; [done|]); (split; [discriminate|]);
        (split; [congruence|]); intros [? | ?]; congruence.
Qed.

Lemma Join_snoc (k : list string) (n sep : string) :
  strings.Join (k ++ [n]) sep
  = if decide (k = []) then n else strings.Join k sep +:+ sep +:+ n.
Proof.
  induction k as [|e k IH]; [reflexivity|].
  rewrite decide_False by discriminate.
  destruct k as [|e' k]; [reflexivity|].
  change ((e :: e' :: k) ++ [n]) with (e :: (e' :: k) ++ [n]).
  rewrite Join_cons by discriminate. rewrite IH.
  rewrite decide_False by discriminate.
  rewrite (Join_cons e (e' :: k)) by discriminate.
  by rewrite !append_assoc.
Qed.

(** A name joined to a path is the end of the result. *)
Lemma Join_ends_with_name (path n : string) :
  path <> "" -> proper n ->
  exists stem,
    filepath.Join [path; n] = stem +:+ n
    /\ (stem = "" \/ exists s, stem = s +:+ "/").
Proof.
  intros Hp (Hn & Hdot & Hdots & Hsep). cbn [filepath.Join].
  destruct (decide _) as [|_]; [contradiction|].
  cbn [strings.Join]. unfold Clean.
  destruct (decide _) as [Hnil|_].
  { destruct path; [contradiction | discriminate Hnil]. }
  change ("/" +:+ n) with (String Separator n).
  rewrite Split_append, (Split_no_sep n Hsep), fold_left_app.
  cbn [fold_left]. set (rooted := IsAbs _).
  set (out0 := fold_left (clean_step rooted) (Split path Separator) []).
  assert (Hstep : clean_step rooted out0 n = n :: out0)
    by (unfold clean_step; by rewrite !decide_False by assumption).
  rewrite Hstep. cbn [rev]. rewrite Join_snoc.
  destruct rooted.
  - destruct (decide (rev out0 = [])).
    + exists "/". split; [reflexivity|]. right. by exists "".
    + exists ("/" +:+ strings.Join (rev out0) "/" +:+ "/").
      split; [by rewrite !append_assoc|]. right.
      exists ("/" +:+ strings.Join (rev out0) "/"). by rewrite !append_assoc.
  - destruct (decide (rev out0 = [])).
    + rewrite decide_False by assumption.
      exists "". split; [reflexivity | by left].
    + rewrite decide_False.
      * exists (strings.Join (rev out0) "/" +:+ "/").
        split; [by rewrite !append_assoc|]. right. by eexists.
      * intros Hnil. apply (f_equal String.length) in Hnil.
        rewrite !append_length in Hnil. cbn in Hnil. lia.
Qed.

Lemma trim_right_absent c s :
  contains_byte c s = false -> trim_right c s = s.
Proof.
  induction s as [|a s IH]; [reflexivity|]. cbn.
  intros [Ha Hs]%orb_false_iff. rewrite (IH Hs), Ha.
  destruct (decide (s = "")) as [->|]; reflexivity.
Qed.

Lemma trim_right_append c a b :
  trim_right c b <> "" -> trim_right c (a +:+ b) = a +:+ trim_right c b.
Proof.
  intros Hb. induction a as [|x a IH]; [by rewrite !append_nil_l|].
  rewrite !append_cons. cbn [trim_right]. rewrite IH.
  destruct (decide _) as [Hnil|_]; [|reflexivity].
  destruct a; [by rewrite append_nil_l in Hnil | discriminate Hnil].
Qed.

(** The base name of a path that ends with a name after a separator. *)
Lemma Base_ends_with_name (stem n : string) :
  n <> "" -> sep_free n -> (stem = "" \/ exists s, stem = s +:+ "/") ->
  Base (stem +:+ n) = n.
Proof.
  intros Hn Hsep Hstem. unfold Base.
  destruct (decide _) as [Hnil|_].
  { apply (f_equal String.length) in Hnil. rewrite append_length in Hnil.
    destruct n; [contradiction | cbn in Hnil; lia]. }
  rewrite trim_right_append by (by rewrite (trim_right_absent _ _ Hsep)).
  rewrite (trim_right_absent _ _ Hsep).
  assert (Hlast : List.last (Split (stem +:+ n) Separator) "" = n).
  { destruct Hstem as [-> | [s ->]].
    - by rewrite append_nil_l, (Split_no_sep n Hsep).
    - rewrite append_assoc. change ("/" +:+ n) with (String Separator n).
      rewrite Split_append, (Split_no_sep n Hsep). apply last_last. }
  rewrite Hlast. by destruct (decide _).
Qed.

Lemma files_of_named t : forall path name,
  path <> "" -> proper_names t ->
  (t = NotDir -> ends_with_name (path, name)) ->
  Forall ends_with_name (files_of path name t).
Proof.
  induction t as [| e | names IH] using tree_induction;
    intros path name Hpath Hnames Hroot.
  - cbn. repeat constructor; by apply Hroot.
  - constructor.
  - cbn [files_of]. cbn [proper_names] in Hnames.
    clear Hroot. induction IH as [|[n [e|child]] rest Hc Hrest IHrest];
      cbn [map concat fst snd] in *; [constructor | |].
    + apply IHrest. by inversion Hnames.
    + inversion Hnames as [|? ? Hhead Hrest']; subst.
      unfold id in Hhead. cbn [fst snd] in Hhead. destruct Hhead as [Hn Hchild].
      apply Forall_app. split; [|by apply IHrest].
      destruct (Join_ends_with_name path n Hpath Hn) as (stem & Hj & Hstem).
      apply Hc; [| exact Hchild |].
      * rewrite Hj. intros Hnil. apply (f_equal String.length) in Hnil.
        rewrite append_length in Hnil. destruct Hn as [Hn _].
        destruct n; [contradiction | cbn in Hnil; lia].
      * intros _. split; cbn [fst snd]; [by exists stem|].
        rewrite Hj. destruct Hn as (? & _ & _ & ?).
        by apply Base_ends_with_name.
Qed.

(** X9.  When the selected path is a directory whose entries, at every
    depth, have names a directory can hold, every path
    [SelectDirectory] returns itself ends in [.m4v], in some case of the
    letters, and so does its base name: the test made on the name of a
    file can be read off the returned path. *)
Theorem SelectDirectory_paths_end_in_m4v
    (selectedDir : string) (lstat : string -> os.Errno + tree) (t : tree) :
  selectedDir <> "" ->
  lstat selectedDir = inr t ->
  isDir t = true ->
  proper_names t ->
  Forall (fun path =>
            has_m4v_extension path /\ has_m4v_extension (Base path))
    (App.SelectDirectory (selectedDir, None) lstat).1.
Proof.
  intros Hdir Hlstat Hroot Hnames.
  unfold App.SelectDirectory. destruct (decide _) as [|_]; [contradiction|].
  unfold Walk. rewrite Hlstat.
  pose proof (walk_scanFn t selectedDir (Base selectedDir) []) as Hw.
  destruct (first_error t) as [e|].
  { destruct Hw as [found ->]. constructor. }
  rewrite Hw. cbn [fst app].
  pose proof (files_of_named t selectedDir (Base selectedDir) Hdir Hnames) as Hall.
  rewrite Forall_forall in Hall. apply Forall_forall. intros path Hin.
  unfold videos_of in Hin.
  apply list_elem_of_fmap in Hin as ([p nm] & -> & Hin).
  apply list_elem_of_filter in Hin as [Hv Hin]. cbn [fst snd] in *.
  destruct (Hall ltac:(intros ->; discriminate) _ Hin) as [[stem Hp] Hb].
  cbn [fst snd] in *. rewrite Hb.
  apply is_video_spec in Hv. split; [|exact Hv].
  destruct Hv as (s & ext & -> & Hext). exists (stem +:+ s), ext.
  split; [by rewrite Hp, append_assoc | exact Hext].
Qed.

End select_facts.

(** ** Where [app.go] makes the directory *)

Module beside_facts.
Import spec vocabulary.

Lemma replace_byte_append old new_ a b :
  strings.replace_byte old new_ (a +:+ b)
  = strings.replace_byte old new_ a +:+ strings.replace_byte old new_ b.
Proof.
  induction a as [|c a IH]; [by rewrite !strings_facts.append_nil_l|].
  rewrite strings_facts.append_cons. cbn [strings.replace_byte].
  by rewrite IH, strings_facts.append_cons.
Qed.

Lemma replace_byte_keeps c old new_ s :
  c <> old -> c <> new_ ->
  strings.contains_byte c (strings.replace_byte old new_ s)
  = strings.contains_byte c s.
Proof.
  intros Hold Hnew. induction s as [|x s IH]; [reflexivity|].
  cbn [strings.replace_byte strings.contains_byte]. rewrite IH. f_equal.
  destruct (Ascii.eqb x old) eqn:Hx; [|reflexivity].
  apply Ascii.eqb_eq in Hx as ->.
  transitivity false; [|symmetry]; apply Ascii.eqb_neq; congruence.
Qed.

Lemma upto_last_separator_sep_free b :
  sep_free b -> filepath.upto_last_separator b = "".
Proof.
  induction b as [|x b IH]; [reflexivity|]. unfold sep_free.
  cbn [strings.contains_byte filepath.upto_last_separator].
  intros [Hx Hb]%orb_false_iff. rewrite (IH Hb), Hx.
  by rewrite decide_True by reflexivity.
Qed.

Lemma upto_last_separator_append a b :
  sep_free b ->
  filepath.upto_last_separator (a +:+ String filepath.Separator b) = a +:+ "/".
Proof.
  intros Hb. induction a as [|x a IH].
  - rewrite !strings_facts.append_nil_l. cbn [filepath.upto_last_separator].
    rewrite (upto_last_separator_sep_free b Hb), Ascii.eqb_refl.
    by rewrite decide_True by reflexivity.
  - rewrite !strings_facts.append_cons. cbn [filepath.upto_last_separator].
    rewrite IH. rewrite decide_False; [reflexivity|].
    destruct a; discriminate.
Qed.

(** X24.  When no directory on the way to the first file has a dot in
    its name, the output directory of [app.go] is made beside the first
    file: it is the path of the file with the dots of its name turned
    into underscores, its directory is the directory of the file, and
    its base name is the name of the file with its dots replaced. *)
Theorem outputDir_beside_first_file (dir name : string) :
  strings.contains_byte "." dir = false ->
  sep_free name -> name <> "" ->
  let firstFilePath := dir +:+ "/" +:+ name in
  let folder := strings.replace_byte "." "_" name in
  App.outputDir firstFilePath = dir +:+ "/" +:+ folder
  /\ filepath.Dir (App.outputDir firstFilePath) = filepath.Dir firstFilePath
  /\ filepath.Base firstFilePath = name
  /\ filepath.Base (App.outputDir firstFilePath) = folder.
Proof.
  intros Hdir Hname Hne firstFilePath folder.
  assert (Hout : App.outputDir firstFilePath = dir +:+ "/" +:+ folder).
  { unfold App.outputDir, firstFilePath.
    rewrite strings_facts.Join_Split_replace, !replace_byte_append.
    by rewrite (dotless_facts.replace_byte_absent _ _ _ Hdir). }
  assert (Hfolder : sep_free folder).
  { unfold sep_free, folder. rewrite replace_byte_keeps by discriminate.
    exact Hname. }
  assert (Hfne : folder <> "") by (unfold folder; by destruct name).
  split; [exact Hout|]. rewrite Hout. unfold firstFilePath, filepath.Dir.
  change ("/" +:+ ?s) with (String filepath.Separator s).
  rewrite !upto_last_separator_append by assumption.
  split; [reflexivity|].
  change (String filepath.Separator ?s) with ("/" +:+ s).
  rewrite <- !strings_facts.append_assoc. split.
  - apply select_facts.Base_ends_with_name;
      [exact Hne | exact Hname | right; by exists dir].
  - apply select_facts.Base_ends_with_name;
      [exact Hfne | exact Hfolder | right; by exists dir].
Qed.

End beside_facts.

(** ** The data URL and the image *)

Module url_facts.
Import exec spec base64_facts.

Lemma append_inv_head (a b c : string) : a +:+ b = a +:+ c -> b = c.
Proof.
  induction a as [|x a IH]; [by rewrite !strings_facts.append_nil_l|].
  rewrite !strings_facts.append_cons. intros [= Heq]. by apply IH.
Qed.

(** X10.  A call of [GenerateThumbnail] that returns no error returns a
    text that is not empty -- so the empty text always goes with an
    error -- and that tells which image was captured: two calls, on any
    systems and videos, that return the same URL captured the same
    bytes. *)
Theorem GenerateThumbnail_url_determines_image
    (sys sys' : Cmd -> Result) (videoPath videoPath' : string)
    (ran ran' : list Cmd) (url : string) :
  (App.GenerateThumbnail sys videoPath ran).1 = (url, None) ->
  (App.GenerateThumbnail sys' videoPath' ran').1 = (url, None) ->
  url <> ""
  /\ Stdout (sys (ffmpeg videoPath)) = Stdout (sys' (ffmpeg videoPath')).
Proof.
  unfold App.GenerateThumbnail, Run.
  fold (ffmpeg videoPath). fold (ffmpeg videoPath').
  destruct (err (sys (ffmpeg videoPath))); [discriminate|].
  destruct (err (sys' (ffmpeg videoPath'))); [discriminate|].
  destruct (String.length (Stdout (sys (ffmpeg videoPath))) =? 0)%nat;
    [discriminate|].
  destruct (String.length (Stdout (sys' (ffmpeg videoPath'))) =? 0)%nat;
    [discriminate|].
  cbn [fst]. intros [= <-] [= Heq]. split; [discriminate|].
  apply append_inv_head in Heq. apply (f_equal base64_decode) in Heq.
  rewrite !decode_EncodeToString in Heq. by injection Heq.
Qed.

End url_facts.

(** ** The output directory of the earlier variant *)

Module grandparent_facts.
Import strings strings_facts filepath spec vocabulary path_facts select_facts.

Local Abbreviation key_of := memfs.key_of.
Local Abbreviation parent := memfs.parent.

Lemma Split_singleton_empty s : Split s Separator = [""] -> s = "".
Proof.
  destruct s as [|c s]; [reflexivity|]. rewrite Split_cons.
  pose proof (Split_nonempty s Separator) as Hne.
  destruct (Ascii.eqb c Separator); [intros [= Hs]; congruence|].
  destruct (Split s Separator); [congruence | discriminate].
Qed.

(** [upto_last_separator] keeps every element of the path but the last. *)
Lemma upto_split p :
  exists pieces b,
    Split p Separator = pieces ++ [b]
    /\ Split (upto_last_separator p) Separator = pieces ++ [""].
Proof.
  induction p as [|c p (pieces & b & Hp & Hu)]; [by exists [], ""|].
  rewrite Split_cons. cbn [upto_last_separator].
  destruct (Ascii.eqb c Separator) eqn:Hc.
  - apply Ascii.eqb_eq in Hc as ->. exists ("" :: pieces), b.
    split; [by rewrite Hp|].
    destruct (decide (upto_last_separator p = "")) as [Ht|Ht].
    + rewrite Ht in Hu. destruct pieces as [|q [|q' qs]]; try discriminate Hu.
      reflexivity.
    + rewrite Split_cons, Ascii.eqb_refl, Hu. reflexivity.
  - rewrite Hp. destruct pieces as [|q qs].
    + exists [], (String c b). split; [reflexivity|].
      apply Split_singleton_empty in Hu. rewrite Hu.
      rewrite decide_True by reflexivity. reflexivity.
    + exists (String c q :: qs), b. split; [reflexivity|].
      destruct (decide (upto_last_separator p = "")) as [Ht|Ht].
      * rewrite Ht in Hu. destruct qs; discriminate Hu.
      * by rewrite Split_cons, Hc, Hu.
Qed.

Lemma Join_Split_id p : strings.Join (Split p Separator) "/" = p.
Proof.
  rewrite Join_Split_replace. induction p as [|c p IH]; [reflexivity|].
  cbn. rewrite IH. by destruct (Ascii.eqb c Separator) eqn:Hc;
    [apply Ascii.eqb_eq in Hc as ->|].
Qed.

(** A path ends with its last element, after a separator if anything
    comes before. *)
Lemma last_element_ends p pieces b :
  Split p Separator = pieces ++ [b] ->
  exists stem, p = stem +:+ b /\ (stem = "" \/ exists s, stem = s +:+ "/").
Proof.
  intros Hp. rewrite <- (Join_Split_id p), Hp, Join_snoc.
  destruct (decide (pieces = [])).
  - exists "". split; [reflexivity | by left].
  - exists (strings.Join pieces "/" +:+ "/").
    split; [by rewrite append_assoc | right; by eexists].
Qed.

(** For a path whose last element is a name, [Dir] names the parent
    place and [Base] is that name. *)
Lemma key_of_Dir p pieces b :
  Split p Separator = pieces ++ [b] -> proper b ->
  key_of (Dir p) = parent (key_of p) /\ Base p = b.
Proof.
  intros Hp Hb. split.
  - unfold Dir. rewrite key_of_Clean.
    destruct (upto_split p) as (pieces' & b' & Hp' & Hu).
    rewrite Hp in Hp'. apply app_inj_tail in Hp' as [<- <-].
    unfold memfs.key_of. rewrite Hp, Hu, !fold_left_app. cbn [fold_left].
    set (out := fold_left _ pieces []).
    assert (Hstep : clean_step true out b = b :: out).
    { destruct Hb as (? & ? & ? & _). unfold clean_step.
      by rewrite !decide_False by assumption. }
    rewrite Hstep. cbn [rev]. by rewrite memfs_facts.parent_snoc.
  - destruct (last_element_ends p pieces b Hp) as (stem & -> & Hstem).
    destruct Hb as (? & _ & _ & ?). by apply Base_ends_with_name.
Qed.

Lemma IsAbs_upto p : IsAbs p = true -> IsAbs (upto_last_separator p) = true.
Proof.
  intros [rest ->]%scan_facts.IsAbs_spec. cbn [upto_last_separator].
  change (Ascii.eqb "/" Separator) with true.
  by destruct (decide _).
Qed.

Lemma Clean_abs s :
  IsAbs s = true -> Clean s = String Separator (strings.Join (key_of s) "/").
Proof.
  intros Habs. unfold Clean. destruct (decide _) as [->|_]; [discriminate|].
  by rewrite Habs.
Qed.

Lemma Dir_abs p :
  IsAbs p = true ->
  Dir p = String Separator (strings.Join (key_of (Dir p)) "/").
Proof.
  intros Habs. unfold Dir at 1. rewrite Clean_abs by (by apply IsAbs_upto).
  unfold Dir. by rewrite key_of_Clean.
Qed.

(** The place two levels up. *)
Lemma key_of_Dir_Dir p pieces b :
  IsAbs p = true -> Split p Separator = pieces ++ [b] -> proper b ->
  key_of (Dir (Dir p)) = parent (parent (key_of p))
  /\ IsAbs (Dir (Dir p)) = true.
Proof.
  intros Habs Hp Hb. destruct (key_of_Dir p pieces b Hp Hb) as [Hk _].
  pose proof (Dir_abs p Habs) as Hq. pose proof (key_of_proper (Dir p)) as Hprop.
  assert (Hqabs : IsAbs (Dir p) = true) by (by rewrite Hq).
  split; [|rewrite (Dir_abs (Dir p) Hqabs); reflexivity].
  rewrite <- Hk.
  destruct (key_of (Dir p)) as [|d k2 _] eqn:Hk1 using rev_ind.
  - rewrite Hq. reflexivity.
  - apply Forall_app in Hprop as [Hk2 Hd]. inversion Hd as [|? ? Hd' _]; subst.
    destruct (key_of_Dir (Dir p) ("" :: k2) d) as [Hkk _]; [|exact Hd'|].
    + rewrite Hq at 1. rewrite Split_cons, Ascii.eqb_refl.
      rewrite Split_Join; [reflexivity | by destruct k2 |].
      apply Forall_app. split.
      * eapply Forall_impl; [exact Hk2 | by intros ? (_&_&_&?)].
      * constructor; [apply Hd' | constructor].
    + by rewrite Hkk, Hk1.
Qed.

(** X11.  The earlier variant names the output directory after the
    first file, two levels up: for an absolute first path whose last
    element is a name, the directory is the entry, in the parent of the
    directory the file is in, called like the file without its
    extension; and for a name that is all extension (a hidden file such
    as [.m4v]) it is that parent directory itself. *)
Theorem Variant_outputDir_in_grandparent (firstFilePath : string) :
  let name := List.last (Split firstFilePath Separator) "" in
  let stem := TrimSuffix name (Ext name) in
  IsAbs firstFilePath = true ->
  proper name ->
  Base firstFilePath = name
  /\ (proper stem ->
      key_of (Variant.outputDir firstFilePath)
      = parent (parent (key_of firstFilePath)) ++ [stem])
  /\ (stem = "" ->
      key_of (Variant.outputDir firstFilePath)
      = parent (parent (key_of firstFilePath))).
Proof.
  intros name stem Habs Hname.
  assert (Hp : Split firstFilePath Separator
               = removelast (Split firstFilePath Separator) ++ [name])
    by (apply app_removelast_last, Split_nonempty).
  destruct (key_of_Dir _ _ _ Hp Hname) as [_ Hbase].
  destruct (key_of_Dir_Dir _ _ _ Habs Hp Hname) as [Hkk Hdabs].
  assert (Hne : Dir (Dir firstFilePath) <> "")
    by (intros Hnil; rewrite Hnil in Hdabs; discriminate).
  split; [exact Hbase|]. unfold Variant.outputDir. rewrite Hbase. fold stem.
  split.
  - intros Hstem. by rewrite key_of_Join_proper, Hkk.
  - intros ->. rewrite key_of_Join by exact Hne. cbn [Split fold_left].
    unfold clean_step. rewrite decide_True by reflexivity.
    by rewrite rev_involutive, Hkk.
Qed.

End grandparent_facts.

(** * Properties of the frontend *)

(** ** The log *)

Module log_facts.
Import vue vocabulary.

Section Facts.
Variable clock : nat -> string.

Local Abbreviation log := (vue.log clock).

Lemma log_fields message st :
  videos (log message st) = videos st
  /\ isLoading (log message st) = isLoading st
  /\ baseDirectory (log message st) = baseDirectory st
  /\ isMoving (log message st) = isMoving st
  /\ moveError (log message st) = moveError st
  /\ moveSuccessMessage (log message st) = moveSuccessMessage st
  /\ movingVideoIds (log message st) = movingVideoIds st
  /\ videoIdCounter (log message st) = videoIdCounter st
  /\ alerts (log message st) = alerts st.
Proof. by repeat split. Qed.

Lemma log_each_fields {A} (f : A -> string) (l : list A) : forall st,
  same_but_log st (fold_left (fun st x => log (f x) st) l st).
Proof.
  induction l as [|x l IH]; intros st; [by repeat split|].
  cbn [fold_left]. destruct (IH (log (f x) st)) as (?&?&?&?&?&?&?&?&?).
  destruct (log_fields (f x) st) as (?&?&?&?&?&?&?&?&?).
  repeat split; congruence.
Qed.

Lemma log_logMessages message st :
  length (logMessages st) <= 100 ->
  logMessages (log message st)
  = drop (length (logMessages st) + 1 - 100)
      (logMessages st ++ ["[" +:+ clock (ticks st) +:+ "] " +:+ message])
  /\ length (logMessages (log message st)) <= 100.
Proof.
  intros Hlen. cbn [logMessages vue.log].
  set (pushed := logMessages st ++ _).
  assert (Hp : length pushed = length (logMessages st) + 1)
    by (unfold pushed; rewrite length_app; reflexivity).
  destruct (decide (100 < length pushed)) as [Hgt|Hle].
  - replace (length (logMessages st) + 1 - 100) with 1 by lia.
    split; [by destruct pushed|].
    destruct pushed; cbn in *; lia.
  - replace (length (logMessages st) + 1 - 100) with 0 by lia.
    split; [reflexivity | lia].
Qed.

(** X12.  [log] keeps the log at a hundred entries: from a log of at
    most a hundred, after any number of messages the log holds the
    entries written, oldest first, without those that came more than a
    hundred entries before the last; and nothing else of the state has
    changed but the number of readings of the clock. *)
Theorem log_keeps_the_last_hundred (msgs : list string) (st : State) :
  length (logMessages st) <= 100 ->
  let st' := fold_left (fun st m => log m st) msgs st in
  let all := logMessages st ++ stamped clock (ticks st) msgs in
  logMessages st' = drop (length all - 100) all
  /\ length (logMessages st') <= 100
  /\ ticks st' = ticks st + length msgs
  /\ same_but_log st st'.
Proof.
  intros Hlen st' all.
  assert (Hsame : same_but_log st st')
    by apply (log_each_fields (fun m => m) msgs st).
  cut (logMessages st' = drop (length all - 100) all
       /\ length (logMessages st') <= 100
       /\ ticks st' = ticks st + length msgs); [tauto|].
  clear Hsame. subst st' all.
  revert st Hlen. induction msgs as [|m msgs IH]; intros st Hlen.
  - cbn [fold_left stamped length]. rewrite app_nil_r, Nat.add_0_r.
    replace (length (logMessages st) - 100) with 0 by lia.
    by repeat split.
  - cbn [fold_left stamped length].
    destruct (log_logMessages m st Hlen) as [Hlog Hlen'].
    destruct (IH (log m st) Hlen') as (Hall & Hbound & Hticks).
    split; [|split; [exact Hbound|]].
    + rewrite Hall, Hlog. cbn [ticks vue.log].
      set (L := logMessages st) in *. set (e := "[" +:+ _).
      set (E := stamped clock (S (ticks st)) msgs).
      set (b := length L + 1 - 100).
      assert (Hb' : b <= length (L ++ [e])) by (rewrite length_app; cbn; lia).
      rewrite <- (drop_app_le (L ++ [e]) E b Hb'), drop_drop.
      rewrite <- (app_assoc L [e] E). cbn [app]. f_equal.
      rewrite !length_app, length_drop, !length_app. cbn [length]. lia.
    + cbn [ticks vue.log] in Hticks. lia.
Qed.

End Facts.
End log_facts.

(** ** Lists of videos *)

Module video_list_facts.
Import vue.

Lemma same_id_same_video (l : list VideoItem) (v v' : VideoItem) :
  NoDup (map id l) -> v ∈ l -> v' ∈ l -> id v = id v' -> v = v'.
Proof.
  induction l as [|x l IH]; intros Hnd Hv Hv' Hid; [by apply elem_of_nil in Hv|].
  cbn [map] in Hnd. apply NoDup_cons in Hnd as [Hx Hnd].
  apply elem_of_cons in Hv as [->|Hv], Hv' as [->|Hv']; [reflexivity | | |by apply IH].
  - exfalso. apply Hx. rewrite Hid. by apply list_elem_of_fmap_2.
  - exfalso. apply Hx. rewrite <- Hid. by apply list_elem_of_fmap_2.
Qed.

Lemma filter_all {A} (P : A -> Prop) `{forall x, Decision (P x)} (l : list A) :
  (forall x, x ∈ l -> P x) -> filter P l = l.
Proof.
  induction l as [|x l IH]; intros Hall; [reflexivity|].
  rewrite filter_cons_True by (apply Hall; by left).
  f_equal. apply IH. intros y Hy. apply Hall. by right.
Qed.

Lemma filter_agree {A} (P Q : A -> Prop)
    `{forall x, Decision (P x)} `{forall x, Decision (Q x)} (l : list A) :
  (forall x, x ∈ l -> P x <-> Q x) -> filter P l = filter Q l.
Proof.
  induction l as [|x l IH]; intros Hall; [reflexivity|].
  assert (Hl : filter P l = filter Q l)
    by (apply IH; intros y Hy; apply Hall; by right).
  destruct (decide (P x)) as [Hp|Hp].
  - rewrite !filter_cons_True; [by rewrite Hl | | exact Hp].
    apply Hall; [by left | exact Hp].
  - rewrite !filter_cons_False; [exact Hl | | exact Hp].
    intros Hq. apply Hp, Hall; [by left | exact Hq].
Qed.

Lemma NoDup_ids_filter (P : VideoItem -> Prop) `{forall x, Decision (P x)}
    (l : list VideoItem) :
  NoDup (map id l) -> NoDup (map id (filter P l)).
Proof.
  induction l as [|x l IH]; intros Hnd; [constructor|].
  cbn [map] in Hnd. apply NoDup_cons in Hnd as [Hx Hnd].
  destruct (decide (P x)).
  - rewrite filter_cons_True by assumption. cbn [map]. apply NoDup_cons.
    split; [|by apply IH].
    intros (v & Hid & Hv)%list_elem_of_fmap. apply Hx. rewrite Hid.
    apply list_elem_of_fmap_2. by apply list_elem_of_filter in Hv as [_ ?].
  - rewrite filter_cons_False by assumption. by apply IH.
Qed.

(** With ids that differ, one round of the loop removes the video with
    the id. *)
Lemma remove_moved_filter (l : list VideoItem) (movedId : nat) :
  NoDup (map id l) ->
  part_000.remove_moved l movedId = filter (fun v => id v <> movedId) l.
Proof.
  unfold part_000.remove_moved. induction l as [|x l IH]; intros Hnd; [reflexivity|].
  cbn [map] in Hnd. apply NoDup_cons in Hnd as [Hx Hnd]. cbn [findIndex].
  destruct (Nat.eqb (id x) movedId) eqn:Heq.
  - apply Nat.eqb_eq in Heq. cbn [delete list_delete].
    rewrite filter_cons_False by (intros Hne; by apply Hne).
    symmetry. apply filter_all. intros v Hv Hid. apply Hx.
    rewrite Heq, <- Hid. by apply list_elem_of_fmap_2.
  - apply Nat.eqb_neq in Heq. rewrite filter_cons_True by exact Heq.
    rewrite <- (IH Hnd). by destruct (findIndex _ l).
Qed.

Lemma remove_all_moved (ids : list nat) : forall l : list VideoItem,
  NoDup (map id l) ->
  fold_left part_000.remove_moved ids l = filter (fun v => id v ∉ ids) l.
Proof.
  induction ids as [|x ids IH]; intros l Hnd; cbn [fold_left].
  - symmetry. apply filter_all. intros v _. apply not_elem_of_nil.
  - rewrite (remove_moved_filter l x Hnd).
    rewrite IH by (by apply NoDup_ids_filter).
    rewrite list_filter_filter. apply filter_agree. intros v _.
    rewrite not_elem_of_cons. tauto.
Qed.

End video_list_facts.

(** ** The move, seen from the component *)

Module move_ui_facts.
Import runtime spec vocabulary vue log_facts protocol_facts video_list_facts.

Section Facts.
Variable clock : nat -> string.

Local Abbreviation log := (vue.log clock).

Lemma selectedVideos_same st st' :
  videos st' = videos st -> selectedVideos st' = selectedVideos st.
Proof. unfold selectedVideos. by intros ->. Qed.

(** [moveSelectedVideos] when it calls the backend. *)
Lemma moveSelectedVideos_calls st :
  selectedVideos st <> [] -> baseDirectory st <> "" ->
  exists st',
    part_000.moveSelectedVideos clock st
    = (st', Some (map (fun v => name (file v)) (selectedVideos st)))
    /\ isMoving st' = true /\ moveError st' = ""
    /\ moveSuccessMessage st' = ""
    /\ movingVideoIds st' = map id (selectedVideos st)
    /\ videos st' = videos st /\ baseDirectory st' = baseDirectory st.
Proof.
  intros Hsel Hbase. unfold part_000.moveSelectedVideos.
  rewrite decide_False by (by destruct (selectedVideos st)).
  rewrite decide_False by assumption.
  eexists. split; [reflexivity|].
  set (st1 := set_movingVideoIds _ st).
  set (st2 := vue.log clock _ st1).
  set (paths := map _ (selectedVideos st1)).
  destruct (log_each_fields clock (fun p => " - " +:+ p) paths st2)
    as (Hv & _ & Hb & _ & _ & _ & Hids & _).
  cbn [isMoving moveError moveSuccessMessage movingVideoIds videos baseDirectory
       set_isMoving set_moveError set_moveSuccessMessage].
  repeat split; [by rewrite Hids | by rewrite Hv | by rewrite Hb].
Qed.

(** X13.  [moveSelectedVideos] calls the backend only with a request
    that is not empty, and only when a base directory is set: it then
    sends the names of the files of the selected videos, in the order of
    the list, records their ids and shows the move as under way; such a
    request is never answered with the error of the empty request.
    Otherwise it calls nothing and leaves the list, the ids and the
    moving flag as they are. *)
Theorem moveSelectedVideos_sends_the_selection (st : State) :
  let st' := (part_000.moveSelectedVideos clock st).1 in
  match (part_000.moveSelectedVideos clock st).2 with
  | Some absoluteFilePaths =>
      absoluteFilePaths = map (fun v => name (file v)) (selectedVideos st)
      /\ absoluteFilePaths <> []
      /\ baseDirectory st <> ""
      /\ isMoving st' = true
      /\ movingVideoIds st' = map id (selectedVideos st)
      /\ videos st' = videos st
      /\ (forall (W : Type) (S : os.Sys W) (w : World W),
            (App.MoveVideos absoluteFilePaths w).1 <> Some NoFilesProvided)
  | None =>
      (selectedVideos st = [] \/ baseDirectory st = "")
      /\ isMoving st' = isMoving st
      /\ movingVideoIds st' = movingVideoIds st
      /\ videos st' = videos st
  end.
Proof.
  destruct (decide (selectedVideos st = [])) as [Hsel|Hsel].
  { unfold part_000.moveSelectedVideos. rewrite Hsel.
    rewrite decide_True by reflexivity. cbn [fst snd]. by repeat split; auto. }
  destruct (decide (baseDirectory st = "")) as [Hbase|Hbase].
  { unfold part_000.moveSelectedVideos.
    rewrite decide_False by (by destruct (selectedVideos st)).
    rewrite decide_True by assumption. cbn [fst snd]. by repeat split; auto. }
  destruct (moveSelectedVideos_calls st Hsel Hbase)
    as (st' & -> & Hm & _ & _ & Hids & Hv & _).
  cbn [fst snd]. repeat split; try assumption.
  - by destruct (selectedVideos st).
  - intros W S w Herr.
    destruct (selectedVideos st) as [|v vs]; [congruence|]. cbn [map] in Herr.
    apply App_MoveVideos_error in Herr
      as [[err Herr] | (p & err & _ & [Herr | Herr])]; discriminate.
Qed.

(** A progress event only adds to the log. *)
Lemma replay_status (dispatch : Event -> State -> State) evs :
  (forall e st, is_status e -> same_but_log st (dispatch e st)) ->
  Forall is_status evs ->
  forall st, same_but_log st (fold_left (fun st e => dispatch e st) evs st).
Proof.
  intros Hd Hevs. induction Hevs as [|e evs He _ IH]; intros st;
    [by repeat split|].
  cbn [fold_left]. destruct (IH (dispatch e st)) as (?&?&?&?&?&?&?&?&?).
  destruct (Hd e st He) as (?&?&?&?&?&?&?&?&?).
  repeat split; congruence.
Qed.

Lemma part_000_dispatch_status text e st :
  is_status e -> same_but_log st (part_000.dispatch clock text e st).
Proof.
  intros He. unfold part_000.dispatch. rewrite decide_True by exact He.
  apply log_fields.
Qed.

Lemma App_vue_dispatch_status text e st :
  is_status e -> same_but_log st (App_vue.dispatch clock text e st).
Proof.
  intros He. unfold App_vue.dispatch. rewrite decide_True by exact He.
  apply log_fields.
Qed.

(** The closing event of a call, whatever the state it reaches. *)
Lemma part_000_dispatch_closing text r n out last st :
  match r with
  | None => last = complete_event (Z.of_nat n) out
  | Some e => last = error_event e
  end ->
  let st' := part_000.dispatch clock text last st in
  isMoving st' = false /\ movingVideoIds st' = []
  /\ match r with
     | None =>
         moveSuccessMessage st' = text (MovedSummary (Z.of_nat n) out)
         /\ moveError st' = ""
         /\ videos st'
            = fold_left part_000.remove_moved (movingVideoIds st) (videos st)
     | Some e =>
         moveError st' = text (data (error_event e))
         /\ moveSuccessMessage st' = "" /\ videos st' = videos st
     end.
Proof.
  destruct r as [e|]; intros ->; cbv zeta; unfold part_000.dispatch.
  - rewrite decide_False by discriminate. rewrite decide_False by discriminate.
    rewrite decide_True by reflexivity. by repeat split.
  - rewrite decide_False by discriminate. rewrite decide_True by reflexivity.
    by repeat split.
Qed.

Lemma App_vue_dispatch_closing text r n out last st :
  match r with
  | None => last = complete_event (Z.of_nat n) out
  | Some e => last = error_event e
  end ->
  let st' := App_vue.dispatch clock text last st in
  isMoving st' = false
  /\ match r with
     | None =>
         moveSuccessMessage st' = text (MovedSummary (Z.of_nat n) out)
         /\ moveError st' = "" /\ videos st' = []
     | Some e =>
         moveError st' = text (data (error_event e))
         /\ moveSuccessMessage st' = "" /\ videos st' = videos st
     end.
Proof.
  destruct r as [e|]; intros ->; cbv zeta; unfold App_vue.dispatch.
  - rewrite decide_False by discriminate. rewrite decide_False by discriminate.
    rewrite decide_True by reflexivity. by repeat split.
  - rewrite decide_False by discriminate. rewrite decide_True by reflexivity.
    by repeat split.
Qed.

Lemma new_events_closes {W} (w w' : World W) r n out :
  closes (emitted w) (emitted w') r n out ->
  exists evs last,
    new_events w w' = evs ++ [last] /\ Forall is_status evs
    /\ match r with
       | None => last = complete_event (Z.of_nat n) out
       | Some e => last = error_event e
       end.
Proof.
  intros (evs & last & Hev & Hst & Hlast). exists evs, last.
  split; [|by split]. unfold new_events. rewrite Hev. apply drop_app_length.
Qed.

(** An interleaving of the events with the settling of the call ends
    with the closing event or with the settling. *)
Lemma split_closing (evs evs1 evs2 : list Event) last :
  evs ++ [last] = evs1 ++ evs2 ->
  (evs2 = [] /\ evs1 = evs ++ [last])
  \/ (exists mid, evs2 = mid ++ [last] /\ evs = evs1 ++ mid).
Proof.
  intros Heq. destruct evs2 as [|x evs2 _] using rev_ind.
  - left. by rewrite app_nil_r in Heq.
  - right. rewrite app_assoc in Heq. apply app_inj_tail in Heq as [-> ->].
    by exists evs2.
Qed.

(** X14.  The component of [part_000] against [app.go]: whatever the
    request, the file system and the state of the component, once the
    events of a call of [MoveVideos] have reached their callbacks the
    move is no longer shown as under way and no ids are tracked; after a
    call that returned nil the success text is the text of
    [move-complete] and the error text is empty; after a call that
    returned an error the error text is the text of its [move-error],
    the success text is empty and the list of videos is as it was.  And
    wherever among the events the promise of the call settles, the move
    is not shown as under way afterwards. *)
Theorem moving_ends_with_the_call
    {W : Type} `{os.Sys W} (text : Message -> string)
    (thrown : MoveError -> Rejection)
    (absoluteFilePaths : list string) (w : World W) (st : State) :
  let run := App.MoveVideos absoluteFilePaths w in
  let replay := fold_left (fun st e => part_000.dispatch clock text e st) in
  let st' := replay (new_events w run.2) st in
  isMoving st' = false
  /\ movingVideoIds st' = []
  /\ match run.1 with
     | None =>
         moveSuccessMessage st'
         = text (MovedSummary (Z.of_nat (length absoluteFilePaths))
                   (App.outputDir (hd "" absoluteFilePaths)))
         /\ moveError st' = ""
     | Some e =>
         moveError st' = text (data (error_event e))
         /\ moveSuccessMessage st' = "" /\ videos st' = videos st
     end
  /\ (forall evs1 evs2,
        new_events w run.2 = evs1 ++ evs2 ->
        isMoving (replay evs2
                    (part_000.moveSelectedVideos_settled clock
                       (thrown <$> run.1) (replay evs1 st))) = false).
Proof.
  intros run replay st'.
  destruct (new_events_closes w run.2 run.1 _ _
              (App_MoveVideos_closes absoluteFilePaths w))
    as (evs & last & Hnew & Hst & Hlast).
  assert (Hend : forall pre st0,
             replay (pre ++ [last]) st0
             = part_000.dispatch clock text last (replay pre st0)).
  { intros pre st0. unfold replay. by rewrite fold_left_app. }
  assert (Hkeep : forall evs0 st0,
             Forall is_status evs0 -> same_but_log st0 (replay evs0 st0)).
  { intros evs0 st0 H0.
    apply (replay_status (part_000.dispatch clock text));
      [intros; by apply part_000_dispatch_status | exact H0]. }
  assert (Hall : isMoving st' = false /\ movingVideoIds st' = []
                 /\ match run.1 with
                    | None =>
                        moveSuccessMessage st'
                        = text (MovedSummary (Z.of_nat (length absoluteFilePaths))
                                  (App.outputDir (hd "" absoluteFilePaths)))
                        /\ moveError st' = ""
                    | Some e =>
                        moveError st' = text (data (error_event e))
                        /\ moveSuccessMessage st' = "" /\ videos st' = videos st
                    end).
  { unfold st'. rewrite Hnew, Hend.
    destruct (part_000_dispatch_closing text run.1 _ _ last (replay evs st) Hlast)
      as (Hm & Hids & Hr).
    split; [exact Hm|]. split; [exact Hids|].
    destruct run.1 as [e|].
    - destruct Hr as (? & ? & Hv). repeat split; try assumption.
      rewrite Hv. by destruct (Hkeep evs st Hst) as (? & _).
    - by destruct Hr as (? & ? & _). }
  destruct Hall as (Hm & Hids & Hr).
  split; [exact Hm|]. split; [exact Hids|]. split; [exact Hr|].
  intros evs1 evs2 Hsplit. rewrite Hnew in Hsplit.
  apply split_closing in Hsplit as [[-> Hevs1] | (mid & -> & Hevs)].
  - unfold replay at 1. cbn [fold_left]. rewrite Hevs1, <- Hnew. fold st'.
    destruct run.1 as [e|]; cbn [fmap option_fmap option_map
      part_000.moveSelectedVideos_settled]; [reflexivity | exact Hm].
  - rewrite Hend.
    by destruct (part_000_dispatch_closing text run.1 _ _ last
                   (replay mid (part_000.moveSelectedVideos_settled clock
                                  (thrown <$> run.1) (replay evs1 st))) Hlast)
      as (? & _).
Qed.

(** X15.  The component of [frontend/src/App.vue] against the earlier
    variant of [app.go]: once the events of a call of [MoveVideos] have
    reached their callbacks the move is no longer shown as under way;
    after a call that returned nil the whole list of videos is empty --
    the videos that were not selected, and so not moved, have left it
    too -- and after a call that returned an error the list is as it
    was and the error text is the text of the [move-error]. *)
Theorem App_vue_moving_ends_with_the_call
    {W : Type} `{os.Sys W} (text : Message -> string)
    (absoluteFilePaths : list string) (w : World W) (st : State) :
  let run := Variant.MoveVideos absoluteFilePaths w in
  let st' := fold_left (fun st e => App_vue.dispatch clock text e st)
               (new_events w run.2) st in
  isMoving st' = false
  /\ match run.1 with
     | None =>
         moveSuccessMessage st'
         = text (MovedSummary (Z.of_nat (length absoluteFilePaths))
                   (Variant.outputDir (hd "" absoluteFilePaths)))
         /\ moveError st' = "" /\ videos st' = []
     | Some e =>
         moveError st' = text (data (error_event e))
         /\ moveSuccessMessage st' = "" /\ videos st' = videos st
     end.
Proof.
  intros run st'.
  destruct (new_events_closes w run.2 run.1 _ _
              (Variant_MoveVideos_closes absoluteFilePaths w))
    as (evs & last & Hnew & Hst & Hlast).
  unfold st'. rewrite Hnew, fold_left_app. cbn [fold_left].
  set (st1 := fold_left _ evs st).
  assert (Hkeep : same_but_log st st1).
  { apply (replay_status (App_vue.dispatch clock text));
      [intros; by apply App_vue_dispatch_status | exact Hst]. }
  destruct (App_vue_dispatch_closing text run.1 _ _ last st1 Hlast) as (Hm & Hr).
  split; [exact Hm|]. destruct run.1 as [e|]; [|exact Hr].
  destruct Hr as (? & ? & Hv). repeat split; try assumption.
  rewrite Hv. by destruct Hkeep as (? & _).
Qed.

(** *** The videos that leave the list *)

(** X16.  In [part_000], when the ids of the videos of the list differ,
    the callback of [move-complete] takes out of the list exactly the
    videos whose ids were recorded when the move was asked for, and
    keeps the others in their order.  So a move asked for by
    [moveSelectedVideos] and completed takes away the videos that were
    selected and no other. *)
Theorem move_complete_removes_the_moved (successMsg : string) (st : State) :
  NoDup (map id (videos st)) ->
  videos (part_000.on_move_complete clock successMsg st)
  = filter (fun v => id v ∉ movingVideoIds st) (videos st)
  /\ ((part_000.moveSelectedVideos clock st).2 <> None ->
      videos (part_000.on_move_complete clock successMsg
                (part_000.moveSelectedVideos clock st).1)
      = filter (fun v => selected v = false) (videos st)).
Proof.
  intros Hnd. split.
  - cbn [videos part_000.on_move_complete set_videos set_movingVideoIds].
    by apply remove_all_moved.
  - intros Hcall.
    destruct (decide (selectedVideos st = [])) as [Hsel|Hsel].
    { exfalso. apply Hcall. unfold part_000.moveSelectedVideos.
      rewrite Hsel. by rewrite decide_True by reflexivity. }
    destruct (decide (baseDirectory st = "")) as [Hbase|Hbase].
    { exfalso. apply Hcall. unfold part_000.moveSelectedVideos.
      rewrite decide_False by (by destruct (selectedVideos st)).
      by rewrite decide_True by assumption. }
    destruct (moveSelectedVideos_calls st Hsel Hbase)
      as (st' & -> & _ & _ & _ & Hids & Hv & _).
    cbn [fst videos part_000.on_move_complete set_videos set_movingVideoIds
         set_moveError set_isMoving set_moveSuccessMessage movingVideoIds].
    destruct (log_fields clock ("[Go Backend] " +:+ successMsg) st')
      as (Hv' & _ & _ & _ & _ & _ & Hids' & _).
    rewrite Hv', Hids', Hv, Hids.
    rewrite remove_all_moved by exact Hnd.
    apply filter_agree. intros v Hv0. split.
    + intros Hnot. destruct (selected v) eqn:Hs; [|reflexivity].
      exfalso. apply Hnot. apply list_elem_of_fmap_2.
      apply list_elem_of_filter. by split.
    + intros Hs (v' & Hid & Hin)%list_elem_of_fmap.
      apply list_elem_of_filter in Hin as [Hs' Hin].
      rewrite (same_id_same_video _ v v' Hnd Hv0 Hin Hid) in Hs. congruence.
Qed.

End Facts.
End move_ui_facts.

(** ** The videos found *)

Module found_facts.
Import strings strings_facts filepath spec vocabulary vue log_facts select_facts
  path_facts.

Section Facts.
Variable clock : nat -> string.

Local Abbreviation log := (vue.log clock).

Lemma push_videos (paths : list string) : forall st,
  let st' := fold_left part_000.push_video paths st in
  videos st' = videos st ++ fresh_videos (videoIdCounter st) paths
  /\ videoIdCounter st' = videoIdCounter st + length paths
  /\ baseDirectory st' = baseDirectory st
  /\ logMessages st' = logMessages st
  /\ isMoving st' = isMoving st
  /\ movingVideoIds st' = movingVideoIds st.
Proof.
  induction paths as [|path paths IH]; intros st; cbv zeta.
  - cbn [fold_left fresh_videos length]. rewrite app_nil_r, Nat.add_0_r.
    by repeat split.
  - cbn [fold_left fresh_videos length].
    destruct (IH (part_000.push_video st path)) as (Hv & Hn & Hb & Hl & Hm & Hi).
    rewrite Hv, Hn, Hb, Hl, Hm, Hi.
    cbn [part_000.push_video videos videoIdCounter baseDirectory logMessages
         isMoving movingVideoIds set_videos set_videoIdCounter].
    rewrite <- app_assoc. repeat split. lia.
Qed.

Lemma fresh_videos_ids (paths : list string) : forall n,
  map id (fresh_videos n paths) = seq n (length paths)
  /\ map (fun v => webkitRelativePath (file v)) (fresh_videos n paths) = paths
  /\ map (fun v => name (file v)) (fresh_videos n paths)
     = map (fun path => List.last (Split path "/") "") paths
  /\ Forall (fun v => selected v = false /\ thumbnail v = None /\ error v = None)
       (fresh_videos n paths).
Proof.
  induction paths as [|path paths IH]; intros n; [by repeat split|].
  destruct (IH (S n)) as (Hi & Hp & Hn & Hf). cbn [fresh_videos map length seq].
  rewrite Hi, Hp, Hn. repeat split. by constructor.
Qed.

(** [selectBaseDirectory] with videos found, as far as the list goes. *)
Lemma selectBaseDirectory_videos first rest st :
  let st' := part_000.selectBaseDirectory_resolved clock (first :: rest) st in
  videos st' = fresh_videos (videoIdCounter st) (first :: rest)
  /\ videoIdCounter st' = videoIdCounter st + length (first :: rest)
  /\ baseDirectory st'
     = substring_from_0 (lastIndexOf first backslash) first
  /\ length (logMessages st') = 1.
Proof.
  cbv zeta. unfold part_000.selectBaseDirectory_resolved.
  set (st0 := vue.log clock _ (set_logMessages [] _)).
  destruct (push_videos (first :: rest) st0) as (Hv & Hn & Hb & Hl & _).
  rewrite Hv, Hn, Hb, Hl. by repeat split.
Qed.

(** X17.  When [SelectDirectory] has found videos, [selectBaseDirectory]
    replaces the list by one video for each path, in the order of the
    paths: the videos carry consecutive ids from the counter on, so no
    two videos of the list have the same id; none is selected and none
    has a thumbnail or an error yet; and the log is started afresh. *)
Theorem selectBaseDirectory_lists_the_paths
    (first : string) (rest : list string) (st : State) :
  let videoPaths := first :: rest in
  let st' := part_000.selectBaseDirectory_resolved clock videoPaths st in
  map (fun v => webkitRelativePath (file v)) (videos st') = videoPaths
  /\ map id (videos st') = seq (videoIdCounter st) (length videoPaths)
  /\ NoDup (map id (videos st'))
  /\ videoIdCounter st' = videoIdCounter st + length videoPaths
  /\ selectedVideos st' = []
  /\ Forall (fun v => thumbnail v = None /\ error v = None) (videos st')
  /\ length (logMessages st') = 1.
Proof.
  intros videoPaths st'.
  destruct (selectBaseDirectory_videos first rest st) as (Hv & Hn & _ & Hl).
  fold videoPaths st' in Hv, Hn, Hl.
  destruct (fresh_videos_ids videoPaths (videoIdCounter st)) as (Hi & Hp & _ & Hf).
  unfold selectedVideos. rewrite Hv, Hi, Hp.
  split; [reflexivity|]. split; [reflexivity|]. split; [apply NoDup_seq|].
  split; [exact Hn|]. split; [|split; [|exact Hl]].
  - clear -Hf. induction Hf as [|v l (Hs & _) _ IH]; [reflexivity|].
    rewrite filter_cons_False by congruence. exact IH.
  - eapply Forall_impl; [exact Hf|]. by intros v (_ & ? & ?).
Qed.

(** *** The name of a video and the base directory *)

Lemma Base_last_element path :
  last_element path <> "" -> Base path = last_element path.
Proof.
  intros Hne. unfold last_element in *.
  assert (Hp : Split path Separator
               = removelast (Split path Separator)
                 ++ [List.last (Split path Separator) ""])
    by (apply app_removelast_last, Split_nonempty).
  destruct (grandparent_facts.last_element_ends path _ _ Hp) as (stem & Hs & Hstem).
  rewrite Hs at 1. apply Base_ends_with_name; [exact Hne | | exact Hstem].
  pose proof (Split_sep_free path) as Hfree. rewrite Hp in Hfree.
  apply Forall_app in Hfree as [_ Hfree]. by inversion Hfree.
Qed.

Lemma contains_byte_append c a b :
  contains_byte c (a +:+ b) = contains_byte c a || contains_byte c b.
Proof.
  induction a as [|x a IH]; [by rewrite append_nil_l|].
  rewrite append_cons. cbn [contains_byte]. by rewrite IH, orb_assoc.
Qed.

Lemma fresh_files (paths : list string) : forall n f,
  f ∈ map file (fresh_videos n paths) ->
  name f = last_element (webkitRelativePath f) /\ webkitRelativePath f ∈ paths.
Proof.
  induction paths as [|path paths IH]; intros n f Hf; [by apply elem_of_nil in Hf|].
  cbn [fresh_videos map] in Hf. apply elem_of_cons in Hf as [-> | Hf].
  - split; [reflexivity | by left].
  - destruct (IH _ _ Hf). split; [assumption | by right].
Qed.

(** X18.  The name [selectBaseDirectory] gives the file of a video is
    the last element of its path, cut at [/]; it is this name, and not
    the path, that [generateThumbnail] hands to [GenerateThumbnail] and
    that [moveSelectedVideos] later hands to [MoveVideos] for the videos
    that are selected then.  The name has no [/] in it; for a path that
    does not end in [/] it is the base name of the path; and as soon as
    the path has a [/] in it, it is shorter than the path, so not the
    path. *)
Theorem videos_are_asked_for_by_name
    (first : string) (rest : list string) (st : State) :
  let videoPaths := first :: rest in
  let st' := part_000.selectBaseDirectory_resolved clock videoPaths st in
  map (fun v => (part_000.generateThumbnail_request clock v st').2) (videos st')
    = map last_element videoPaths
  /\ (forall st2 absoluteFilePaths,
        map file (videos st2) = map file (videos st') ->
        (part_000.moveSelectedVideos clock st2).2 = Some absoluteFilePaths ->
        absoluteFilePaths
        = map (fun v => last_element (webkitRelativePath (file v)))
            (selectedVideos st2)
        /\ Forall (fun p => p ∈ map last_element videoPaths) absoluteFilePaths)
  /\ Forall (fun path =>
               sep_free (last_element path)
               /\ (last_element path <> "" -> last_element path = Base path)
               /\ (contains_byte "/" path = true ->
                   String.length (last_element path) < String.length path))
       videoPaths.
Proof.
  intros videoPaths st'.
  destruct (selectBaseDirectory_videos first rest st) as (Hv & _).
  fold videoPaths st' in Hv.
  destruct (fresh_videos_ids videoPaths (videoIdCounter st)) as (_ & _ & Hn & _).
  split; [|split].
  - cbn [snd part_000.generateThumbnail_request]. by rewrite Hv, Hn.
  - intros st2 paths Hfiles Hcall. rewrite Hv in Hfiles.
    assert (Hnames : forall v, v ∈ videos st2 ->
              name (file v) = last_element (webkitRelativePath (file v))
              /\ webkitRelativePath (file v) ∈ videoPaths).
    { intros v Hin. apply (fresh_files videoPaths (videoIdCounter st)).
      rewrite <- Hfiles. by apply list_elem_of_fmap_2. }
    destruct (decide (selectedVideos st2 = [])) as [Hsel|Hsel].
    { unfold part_000.moveSelectedVideos in Hcall. rewrite Hsel in Hcall.
      rewrite decide_True in Hcall by reflexivity. discriminate Hcall. }
    destruct (decide (baseDirectory st2 = "")) as [Hbase|Hbase].
    { unfold part_000.moveSelectedVideos in Hcall.
      rewrite decide_False in Hcall by (by destruct (selectedVideos st2)).
      rewrite decide_True in Hcall by assumption. discriminate Hcall. }
    destruct (move_ui_facts.moveSelectedVideos_calls clock st2 Hsel Hbase)
      as (st3 & Hrun & _).
    rewrite Hrun in Hcall. injection Hcall as <-.
    assert (Hsub : forall v, v ∈ selectedVideos st2 -> v ∈ videos st2)
      by (intros v Hin; by apply list_elem_of_filter in Hin as [_ ?]).
    split.
    + apply map_ext_in. intros v Hin%list_elem_of_In. by apply Hnames, Hsub.
    + apply Forall_forall. intros p (v & -> & Hin)%list_elem_of_fmap.
      destruct (Hnames v (Hsub v Hin)) as [-> Hpath].
      by apply (list_elem_of_fmap_2 last_element).
  - apply Forall_forall. intros path _.
    assert (Hp : Split path Separator
                 = removelast (Split path Separator) ++ [last_element path])
      by (apply app_removelast_last, Split_nonempty).
    assert (Hfree : sep_free (last_element path)).
    { pose proof (Split_sep_free path) as Hfree. rewrite Hp in Hfree.
      apply Forall_app in Hfree as [_ Hfree]. by inversion Hfree. }
    split; [exact Hfree|]. split.
    + intros Hne. symmetry. by apply Base_last_element.
    + intros Hsep.
      destruct (grandparent_facts.last_element_ends path _ _ Hp)
        as (stem & Hs & [-> | [s ->]]).
      * exfalso. rewrite append_nil_l in Hs. rewrite <- Hs in Hfree.
        unfold sep_free, Separator in Hfree. congruence.
      * rewrite Hs at 2. rewrite !append_length. cbn. lia.
Qed.

Lemma lastIndexOf_absent s c :
  contains_byte c s = false -> lastIndexOf s c = (-1)%Z.
Proof.
  induction s as [|a s IH]; [reflexivity|]. cbn [contains_byte lastIndexOf].
  intros [Ha Hs]%orb_false_iff. by rewrite (IH Hs), Ha.
Qed.

Lemma lastIndexOf_ge s c : (-1 <= lastIndexOf s c)%Z.
Proof.
  induction s as [|a s IH]; cbn [lastIndexOf]; [lia|].
  destruct (0 <=? lastIndexOf s c)%Z eqn:Hi; [lia|].
  destruct (Ascii.eqb a c); lia.
Qed.

Lemma lastIndexOf_last pre post c :
  contains_byte c post = false ->
  lastIndexOf (pre +:+ String c post) c = Z.of_nat (String.length pre).
Proof.
  intros Hpost. induction pre as [|a pre IH].
  - rewrite append_nil_l. cbn [lastIndexOf String.length].
    by rewrite (lastIndexOf_absent _ _ Hpost), Ascii.eqb_refl.
  - rewrite append_cons. cbn [lastIndexOf String.length]. rewrite IH.
    destruct (0 <=? Z.of_nat (String.length pre))%Z eqn:Hle; [lia|].
    apply Z.leb_gt in Hle. lia.
Qed.

Lemma substring_prefix (a b : string) :
  String.substring 0 (String.length a) (a +:+ b) = a.
Proof.
  induction a as [|x a IH]; [by destruct b|].
  rewrite append_cons. cbn. by rewrite IH.
Qed.

(** X19.  The base directory [selectBaseDirectory] sets is the first
    path up to its last backslash.  A first path without a backslash --
    every path of a system whose separator is [/] -- leaves it empty,
    and while it is empty [moveSelectedVideos] calls nothing, whatever
    is selected. *)
Theorem baseDirectory_up_to_last_backslash
    (first : string) (rest : list string) (st : State) :
  let st' := part_000.selectBaseDirectory_resolved clock (first :: rest) st in
  (forall pre post,
     first = pre +:+ String backslash post ->
     contains_byte backslash post = false ->
     baseDirectory st' = pre)
  /\ (contains_byte backslash first = false ->
      baseDirectory st' = ""
      /\ forall st2,
           baseDirectory st2 = baseDirectory st' ->
           (part_000.moveSelectedVideos clock st2).2 = None).
Proof.
  intros st'.
  destruct (selectBaseDirectory_videos first rest st) as (_ & _ & Hb & _).
  fold st' in Hb. rewrite Hb. split.
  - intros pre post -> Hpost. rewrite (lastIndexOf_last _ _ _ Hpost).
    unfold substring_from_0. rewrite Nat2Z.id. apply substring_prefix.
  - intros Hnone. rewrite (lastIndexOf_absent _ _ Hnone).
    assert (Hempty : substring_from_0 (-1) first = "")
      by (unfold substring_from_0; by destruct first).
    rewrite Hempty. split; [reflexivity|]. intros st2 Hst2.
    unfold part_000.moveSelectedVideos.
    destruct (decide _); [reflexivity|]. by rewrite decide_True by exact Hst2.
Qed.

End Facts.
End found_facts.

(** ** The thumbnails *)

Module thumbnail_ui_facts.
Import exec spec vocabulary vue.

Lemma chunk_loop_total {A} (videoArray : list A) (chunkSize : nat) :
  0 < chunkSize ->
  forall fuel i,
    length videoArray - i <= fuel ->
    exists chunks,
      part_000.chunk_loop fuel videoArray chunkSize i = Some chunks
      /\ concat chunks = drop i videoArray
      /\ Forall (fun chunk => 0 < length chunk <= chunkSize) chunks
      /\ length chunks * chunkSize < length videoArray - i + chunkSize.
Proof.
  intros Hsize. induction fuel as [|fuel IH]; intros i Hfuel.
  - exists []. cbn [part_000.chunk_loop].
    destruct (i <? length videoArray)%nat eqn:Hi;
      [apply Nat.ltb_lt in Hi; lia|].
    apply Nat.ltb_ge in Hi. rewrite drop_ge by exact Hi.
    repeat split; [constructor | cbn; lia].
  - cbn [part_000.chunk_loop].
    destruct (i <? length videoArray)%nat eqn:Hi.
    + apply Nat.ltb_lt in Hi.
      destruct (IH (i + chunkSize)) as (chunks & -> & Hcat & Hall & Hlen); [lia|].
      eexists. split; [reflexivity|]. cbn [concat]. rewrite Hcat.
      unfold slice. split; [|split].
      * rewrite <- (take_drop (i + chunkSize) videoArray) at 3.
        rewrite drop_app_le; [reflexivity|]. rewrite length_take. lia.
      * constructor; [|exact Hall]. rewrite length_drop, length_take. lia.
      * cbn [length]. destruct (decide (length videoArray <= i + chunkSize)).
        -- assert (length chunks = 0) as -> by nia. lia.
        -- nia.
    + apply Nat.ltb_ge in Hi. exists []. rewrite drop_ge by exact Hi.
      repeat split; [constructor | cbn; lia].
Qed.

(** X20.  [chunkGenerateThumbnails], on an array that does not change
    while it runs and with a chunk size that is not zero, ends after at
    most as many rounds as the array has videos; the chunks it hands to
    [Promise.all], one after the other, are the array cut in order into
    pieces of at most [chunkSize] videos, none empty, so that every
    video is asked a thumbnail for once and never more than [chunkSize]
    at a time; and there are no more chunks than needed.  With a chunk
    size of zero the loop does not end on an array that is not empty. *)
Theorem chunkGenerateThumbnails_cuts_the_array
    {A : Type} (videoArray : list A) (chunkSize : nat) :
  (0 < chunkSize ->
   exists chunks,
     part_000.chunk_loop (length videoArray) videoArray chunkSize 0 = Some chunks
     /\ concat chunks = videoArray
     /\ Forall (fun chunk => 0 < length chunk <= chunkSize) chunks
     /\ length chunks * chunkSize < length videoArray + chunkSize)
  /\ (chunkSize = 0 -> videoArray <> [] ->
      forall fuel, part_000.chunk_loop fuel videoArray chunkSize 0 = None).
Proof.
  split.
  - intros Hsize.
    destruct (chunk_loop_total videoArray chunkSize Hsize (length videoArray) 0)
      as (chunks & Hrun & Hcat & Hall & Hlen); [lia|].
    exists chunks. rewrite Nat.sub_0_r in Hlen. by repeat split.
  - intros -> Hne fuel. induction fuel as [|fuel IH]; cbn [part_000.chunk_loop].
    + by destruct videoArray.
    + destruct videoArray; [congruence|]. cbn [length Nat.ltb Nat.leb].
      cbn [Nat.add]. cbn [length] in IH. by rewrite IH.
Qed.

Section Facts.
Variable clock : nat -> string.

(** X21.  [generateThumbnail] against [GenerateThumbnail]: for a video
    that has neither thumbnail nor error yet, once the call has settled
    the template shows either the thumbnail or the error tag, never
    both and never neither: the thumbnail, which is then the data URL
    the backend returned, exactly when the backend returned no error. *)
Theorem generateThumbnail_shows_thumbnail_or_error
    (sys : Cmd -> Result) (ran : list Cmd)
    (thrown : App.ThumbnailError -> Rejection)
    (videoObject : VideoItem) (st : State) :
  thumbnail videoObject = None -> error videoObject = None ->
  let request := part_000.generateThumbnail_request clock videoObject st in
  let answer := (App.GenerateThumbnail sys request.2 ran).1 in
  let video' :=
    (part_000.generateThumbnail_settled clock videoObject
       (settled thrown answer) request.1).1 in
  request.2 = name (file videoObject)
  /\ (answer.2 = None ->
      thumbnail video' = Some answer.1 /\ shown (thumbnail video')
      /\ error video' = None)
  /\ (answer.2 <> None -> thumbnail video' = None /\ shown (error video'))
  /\ (shown (thumbnail video') <-> ~ shown (error video')).
Proof.
  intros Hthumb Herr request answer video'.
  split; [reflexivity|].
  assert (Hcases :
            (answer.2 = None /\ answer.1 <> ""
             /\ thumbnail video' = Some answer.1 /\ error video' = None)
            \/ (answer.2 <> None /\ thumbnail video' = None
                /\ shown (error video'))).
  { unfold video', settled, answer, App.GenerateThumbnail, Run.
    destruct (err (sys _)) as [e|]; cbn [fst snd].
    - right. split; [discriminate|]. split; [exact Hthumb|].
      eexists. split; [reflexivity | discriminate].
    - destruct (String.length _ =? 0)%nat; cbn [fst snd].
      + right. split; [discriminate|]. split; [exact Hthumb|].
        eexists. split; [reflexivity | discriminate].
      + left. split; [reflexivity|]. split; [discriminate|].
        split; [reflexivity | exact Herr]. }
  destruct Hcases as [(Hok & Hne & Ht & He) | (Hfail & Ht & He)].
  - split; [intros _; split; [exact Ht|]; split; [by eexists | exact He]|].
    split; [congruence|]. split.
    + intros _ (s & Hs & _). congruence.
    + intros _. by eexists.
  - split; [congruence|]. split; [by intros _|]. split.
    + intros (s & Hs & _). congruence.
    + intros Hnot. contradiction.
Qed.

End Facts.
End thumbnail_ui_facts.

(** ** The request of [frontend/src/App.vue] *)

Module App_vue_facts.
Import strings spec vocabulary vue log_facts.

Section Facts.
Variable clock : nat -> string.

Lemma replace_byte_gone old new_ s :
  old <> new_ -> contains_byte old (replace_byte old new_ s) = false.
Proof.
  intros Hne. induction s as [|c s IH]; [reflexivity|].
  cbn [replace_byte contains_byte]. rewrite IH, orb_false_r.
  destruct (Ascii.eqb c old) eqn:Hc; [|exact Hc].
  apply Ascii.eqb_neq. congruence.
Qed.

(** X22.  [moveSelectedVideos] of [App.vue] calls the backend only with
    a request that is not empty and only when a base directory is set.
    It sends one path for each selected video, in the order of the list:
    the base directory, a [/] and the relative path of the file -- its
    name when it has no relative path -- with every backslash turned
    into a [/], so that no path sent has a backslash in it, and a path
    built from texts without backslashes is sent as it is. *)
Theorem App_vue_sends_paths_without_backslash (st : State) :
  match (App_vue.moveSelectedVideos clock st).2 with
  | Some absoluteFilePaths =>
      absoluteFilePaths
      = map (App_vue.absoluteFilePath (baseDirectory st)) (selectedVideos st)
      /\ absoluteFilePaths <> []
      /\ baseDirectory st <> ""
      /\ Forall (fun p => contains_byte backslash p = false) absoluteFilePaths
      /\ (forall v,
            contains_byte backslash (baseDirectory st) = false ->
            contains_byte backslash (webkitRelativePath (file v)) = false ->
            webkitRelativePath (file v) <> "" ->
            App_vue.absoluteFilePath (baseDirectory st) v
            = baseDirectory st +:+ "/" +:+ webkitRelativePath (file v))
      /\ isMoving (App_vue.moveSelectedVideos clock st).1 = true
  | None =>
      (selectedVideos st = [] \/ baseDirectory st = "")
      /\ isMoving (App_vue.moveSelectedVideos clock st).1 = isMoving st
  end.
Proof.
  unfold App_vue.moveSelectedVideos.
  destruct (decide (length (selectedVideos st) = 0)) as [Hlen|Hlen].
  { cbn [fst snd]. split; [left; by destruct (selectedVideos st) | reflexivity]. }
  destruct (decide (baseDirectory st = "")) as [Hbase|Hbase].
  { cbn [fst snd]. split; [by right | reflexivity]. }
  cbn [fst snd]. split; [reflexivity|].
  split; [by destruct (selectedVideos st)|]. split; [exact Hbase|].
  split; [|split].
  - apply Forall_forall. intros p (v & -> & _)%list_elem_of_fmap.
    unfold App_vue.absoluteFilePath. apply replace_byte_gone. discriminate.
  - intros v Hb Hrel Hne. unfold App_vue.absoluteFilePath.
    rewrite decide_False by exact Hne.
    apply dotless_facts.replace_byte_absent.
    rewrite !found_facts.contains_byte_append, Hb, Hrel. reflexivity.
  - cbn [isMoving set_moveSuccessMessage set_moveError set_isMoving]. reflexivity.
Qed.

End Facts.
End App_vue_facts.

(** ** The ids of the videos *)

Module id_facts.
Import runtime spec vocabulary vue log_facts video_list_facts move_ui_facts
  found_facts.

Section Facts.
Variable clock : nat -> string.

(** X25.  The ids of the listed videos, distinct when the component is
    mounted (the list is empty), stay distinct: each callback of
    [part_000] -- an event of the backend reaching its callback, [log],
    [moveSelectedVideos] before and after its call, and
    [selectBaseDirectory] with the paths found -- leaves a list without
    two videos of the same id when it finds one; and
    [generateThumbnail] does not change the id of the video it is
    given. *)
Theorem ids_stay_distinct (text : Message -> string) (st : State) :
  NoDup (map id (videos st)) ->
  NoDup (map id (videos mounted))
  /\ (forall e, NoDup (map id (videos (part_000.dispatch clock text e st))))
  /\ (forall message, NoDup (map id (videos (vue.log clock message st))))
  /\ NoDup (map id (videos (part_000.moveSelectedVideos clock st).1))
  /\ (forall outcome,
        NoDup (map id (videos (part_000.moveSelectedVideos_settled clock
                                 outcome st))))
  /\ (forall videoPaths,
        NoDup (map id (videos (part_000.selectBaseDirectory_resolved clock
                                 videoPaths st))))
  /\ (forall videoObject outcome,
        id (part_000.generateThumbnail_settled clock videoObject outcome st).1
        = id videoObject).
Proof.
  intros Hnd. split; [constructor|]. split; [|split; [|split; [|split; [|split]]]].
  - intros e. unfold part_000.dispatch.
    destruct (decide _); [exact Hnd|].
    destruct (decide _).
    + cbn [videos part_000.on_move_complete set_videos set_movingVideoIds].
      rewrite remove_all_moved by exact Hnd. by apply NoDup_ids_filter.
    + destruct (decide _); exact Hnd.
  - intros message. exact Hnd.
  - destruct (decide (selectedVideos st = [])) as [Hsel|Hsel].
    { unfold part_000.moveSelectedVideos. rewrite Hsel.
      rewrite decide_True by reflexivity. exact Hnd. }
    destruct (decide (baseDirectory st = "")) as [Hbase|Hbase].
    { unfold part_000.moveSelectedVideos.
      rewrite decide_False by (by destruct (selectedVideos st)).
      rewrite decide_True by assumption. exact Hnd. }
    destruct (moveSelectedVideos_calls clock st Hsel Hbase)
      as (st' & -> & _ & _ & _ & _ & Hv & _).
    cbn [fst]. by rewrite Hv.
  - intros [err|]; exact Hnd.
  - intros [|first rest]; [exact Hnd|].
    destruct (selectBaseDirectory_videos clock first rest st) as (Hv & _).
    rewrite Hv.
    destruct (fresh_videos_ids (first :: rest) (videoIdCounter st)) as (Hi & _).
    rewrite Hi. apply NoDup_seq.
  - by intros videoObject [url|err].
Qed.

End Facts.
End id_facts.

(** ** The further scenarios *)

Module example_facts.
Import runtime spec vocabulary memfs scenario examples.

Lemma five_plain p :
  p ∈ five -> plain third_deleted (App.outputDir "/v/a.m4v") p.
Proof.
  intros Hp. unfold five in Hp.
  repeat (apply elem_of_cons in Hp as [-> | Hp];
          [split; [discriminate|]; split;
             [intros [ext Hext]; vm_compute in Hext; discriminate Hext
             |vm_compute; eauto]|]).
  by apply elem_of_nil in Hp.
Qed.

Lemma five_plain_present p :
  p ∈ five -> plain all_present (App.outputDir "/v/a.m4v") p.
Proof.
  intros Hp. unfold five in Hp.
  repeat (apply elem_of_cons in Hp as [-> | Hp];
          [split; [discriminate|]; split;
             [intros [ext Hext]; vm_compute in Hext; discriminate Hext
             |vm_compute; eauto]|]).
  by apply elem_of_nil in Hp.
Qed.

Lemma five_names : NoDup (map filepath.Base five).
Proof.
  refine (bool_decide_eq_true_1 (NoDup (map filepath.Base five)) _).
  vm_compute. reflexivity.
Qed.

Lemma grouped_before_wf : wf grouped_before.
Proof. apply scenario_facts.wf_by_computation. vm_compute. reflexivity. Qed.

Lemma library_proper_names : proper_names library.
Proof.
  cbn. repeat (constructor; [unfold id; cbn [fst snd]|]);
    repeat split; try discriminate; try reflexivity; repeat constructor;
    unfold id; cbn [fst snd]; repeat split; try discriminate; try reflexivity;
    repeat constructor.
Qed.

End example_facts.

Lemma MoveVideos_touches_only_the_request_witness :
  runtime.disk (App.MoveVideos scenario.five
                  (memfs.boot scenario.third_deleted)).2 !! ["v"]
  = scenario.third_deleted !! ["v"].
Proof.
  apply (safety_facts.MoveVideos_touches_only_the_request
           scenario.third_deleted "/v/a.m4v"
           ["/v/b.m4v"; "/v/c.m4v"; "/v/d.m4v"; "/v/e.m4v"] ["v"]).
  - exact scenario_facts.third_deleted_wf.
  - exact example_facts.five_plain.
  - intros [ext Hext]. vm_compute in Hext. discriminate Hext.
  - intros Hin.
    repeat (apply elem_of_cons in Hin as [Hin|Hin];
            [vm_compute in Hin; discriminate Hin|]).
    by apply elem_of_nil in Hin.
Defined.

Lemma MoveVideos_again_fails_witness :
  (App.MoveVideos ["/v/a.m4v"; "/v/d.m4v"; "/v/e.m4v"]
     (memfs.boot
        (runtime.disk (App.MoveVideos scenario.five
                         (memfs.boot scenario.third_deleted)).2))).1
  = Some (runtime.CreateDirFailed "/v/a_m4v" os.EEXIST).
Proof.
  apply (safety_facts.MoveVideos_again_fails
           scenario.third_deleted
           (scenario.after (memfs.Mkdir "/v/a_m4v" scenario.third_deleted))
           "/v/a.m4v" "/v/a.m4v"
           ["/v/b.m4v"; "/v/c.m4v"; "/v/d.m4v"; "/v/e.m4v"]
           ["/v/d.m4v"; "/v/e.m4v"]).
  - exact scenario_facts.third_deleted_wf.
  - exact example_facts.five_plain.
  - vm_compute. reflexivity.
  - reflexivity.
Defined.

Lemma MoveVideos_first_path_without_dot_witness :
  (App.MoveVideos ["/v/clip"] (memfs.boot examples.no_extension)).1
  = Some (runtime.CreateDirFailed "/v/clip" os.EEXIST).
Proof.
  rewrite (dotless_facts.MoveVideos_first_path_without_dot
             examples.no_extension "/v/clip" []
             {| os.Name := "clip"; os.IsDir := false |});
    [reflexivity | reflexivity | vm_compute; reflexivity].
Defined.

Lemma Variant_MoveVideos_into_existing_directory_witness :
  (Variant.MoveVideos ["/v/set/clip.m4v"] (memfs.boot examples.grouped_before)).1
  = None.
Proof.
  pose proof (variant_facts.Variant_MoveVideos_into_existing_directory
                examples.grouped_before "/v/set/clip.m4v" []
                {| os.Name := "clip"; os.IsDir := true |}
                example_facts.grouped_before_wf
                ltac:(vm_compute; reflexivity)) as Hrun.
  cbn [os.IsDir] in Hrun. rewrite Hrun. vm_compute. reflexivity.
Defined.

Lemma SelectDirectory_paths_end_in_m4v_witness :
  Forall (fun path =>
            spec.has_m4v_extension path
            /\ spec.has_m4v_extension (filepath.Base path))
    (App.SelectDirectory ("/videos", None) (fun _ => inr scenario.library)).1.
Proof.
  apply (select_facts.SelectDirectory_paths_end_in_m4v
           "/videos" (fun _ => inr scenario.library) scenario.library);
    [discriminate | reflexivity | reflexivity
    | exact example_facts.library_proper_names].
Defined.

Lemma GenerateThumbnail_url_determines_image_witness :
  "data:image/jpeg;base64,SlBH" <> ""
  /\ exec.Stdout (examples.frame_grabbed (spec.ffmpeg "/v/a.m4v"))
     = exec.Stdout (examples.frame_grabbed (spec.ffmpeg "/v/b.m4v")).
Proof.
  apply (url_facts.GenerateThumbnail_url_determines_image
           examples.frame_grabbed examples.frame_grabbed
           "/v/a.m4v" "/v/b.m4v" [] []);
    vm_compute; reflexivity.
Defined.

Lemma Variant_outputDir_in_grandparent_witness :
  memfs.key_of (Variant.outputDir "/videos/set/clip.m4v") = ["videos"; "clip"].
Proof.
  destruct (grandparent_facts.Variant_outputDir_in_grandparent
              "/videos/set/clip.m4v" eq_refl) as (_ & Hkey & _).
  - repeat split; discriminate.
  - rewrite Hkey; [reflexivity|]. repeat split; discriminate.
Defined.

Lemma log_keeps_the_last_hundred_witness :
  length (vue.logMessages
            (fold_left (fun st m => vue.log examples.noon m st)
               examples.chatter vue.mounted)) <= 100
  /\ vue.ticks (fold_left (fun st m => vue.log examples.noon m st)
                  examples.chatter vue.mounted) = 101.
Proof.
  destruct (log_facts.log_keeps_the_last_hundred examples.noon
              examples.chatter vue.mounted) as (_ & Hlen & Hticks & _).
  - cbn. lia.
  - split; [exact Hlen | exact Hticks].
Defined.

Lemma move_complete_removes_the_moved_witness :
  map vue.id
    (vue.videos
       (part_000.on_move_complete examples.noon "Moved 1 files"
          (part_000.moveSelectedVideos examples.noon
             examples.one_of_two_selected).1))
  = [1].
Proof.
  destruct (move_ui_facts.move_complete_removes_the_moved examples.noon
              "Moved 1 files" examples.one_of_two_selected) as [_ Hrun].
  - exact (NoDup_seq 0 2).
  - rewrite Hrun; [reflexivity | discriminate].
Defined.

Lemma generateThumbnail_shows_thumbnail_or_error_witness :
  vue.thumbnail
    (part_000.generateThumbnail_settled examples.noon examples.found_video
       (vue.settled examples.thrown_text
          (App.GenerateThumbnail examples.frame_grabbed "a.m4v" []).1)
       (part_000.generateThumbnail_request examples.noon examples.found_video
          vue.mounted).1).1
  = Some "data:image/jpeg;base64,SlBH".
Proof.
  destruct (thumbnail_ui_facts.generateThumbnail_shows_thumbnail_or_error
              examples.noon examples.frame_grabbed [] examples.thrown_text
              examples.found_video vue.mounted eq_refl eq_refl)
    as (_ & Hok & _).
  destruct (Hok eq_refl) as (Hthumb & _). exact Hthumb.
Defined.

Lemma baseDirectory_up_to_last_backslash_witness :
  vue.baseDirectory
    (part_000.selectBaseDirectory_resolved examples.noon
       [examples.windows_path] vue.mounted)
  = "C:" +:+ String vue.backslash "videos".
Proof.
  destruct (found_facts.baseDirectory_up_to_last_backslash examples.noon
              examples.windows_path [] vue.mounted) as [Hpre _].
  apply (Hpre ("C:" +:+ String vue.backslash "videos") "a.m4v"); reflexivity.
Defined.

Lemma chunkGenerateThumbnails_cuts_the_array_witness :
  exists chunks,
    part_000.chunk_loop 5 [1; 2; 3; 4; 5] 2 0 = Some chunks
    /\ concat chunks = [1; 2; 3; 4; 5]
    /\ Forall (fun chunk => 0 < length chunk <= 2) chunks.
Proof.
  destruct (thumbnail_ui_facts.chunkGenerateThumbnails_cuts_the_array
              [1; 2; 3; 4; 5] 2) as [Hcut _].
  destruct (Hcut ltac:(lia)) as (chunks & Hrun & Hcat & Hall & _).
  exists chunks. by repeat split.
Defined.

Lemma MoveVideos_keeps_contents_witness :
  exists c,
    memfs.holds scenario.all_present "/v/c.m4v" c
    /\ memfs.holds
         (runtime.disk (App.MoveVideos scenario.five
                          (memfs.boot scenario.all_present)).2)
         "/v/a_m4v/c.m4v" c.
Proof.
  apply (safety_facts.MoveVideos_keeps_contents scenario.all_present "/v/a.m4v"
           ["/v/b.m4v"; "/v/c.m4v"; "/v/d.m4v"; "/v/e.m4v"]
           scenario_facts.all_present_wf example_facts.five_plain_present
           example_facts.five_names ltac:(vm_compute; reflexivity)
           "/v/c.m4v").
  do 2 right. by left.
Defined.

Lemma outputDir_beside_first_file_witness :
  App.outputDir "/videos/clip.m4v" = "/videos/clip_m4v"
  /\ filepath.Dir (App.outputDir "/videos/clip.m4v") = filepath.Dir "/videos/clip.m4v"
  /\ filepath.Base "/videos/clip.m4v" = "clip.m4v"
  /\ filepath.Base (App.outputDir "/videos/clip.m4v") = "clip_m4v".
Proof.
  apply (beside_facts.outputDir_beside_first_file "/videos" "clip.m4v");
    [reflexivity | reflexivity | discriminate].
Defined.

Lemma ids_stay_distinct_witness :
  NoDup (map vue.id
           (vue.videos
              (part_000.on_move_complete examples.noon "Moved 1 files"
                 (part_000.moveSelectedVideos examples.noon
                    examples.one_of_two_selected).1))).
Proof.
  destruct (id_facts.ids_stay_distinct examples.noon (fun _ => "Moved 1 files")
              (part_000.moveSelectedVideos examples.noon
                 examples.one_of_two_selected).1 (NoDup_seq 0 2))
    as (_ & Hdispatch & _).
  exact (Hdispatch (vocabulary.complete_event 1 "a_m4v")).
Defined.
